(** * Lepton JPEG recompressor (Go port): shallow embedding and verification

    The Go sources are embedded function by function.  Machine integers are
    modelled as [Z] with the wrap-around of every operation written out;
    slices and arrays are lists indexed with stdpp's lookup and insert;
    a Go panic, a returned [error] and a normal return are the three
    constructors of [result]. *)

From Stdlib Require Import ZArith List Lia Bool.
From stdpp Require Import base list.
Import ListNotations.
Local Open Scope Z_scope.

(** ** Machine integers *)

Definition u8 (x : Z) : Z := x mod 2 ^ 8.
Definition u16 (x : Z) : Z := x mod 2 ^ 16.
Definition u32 (x : Z) : Z := x mod 2 ^ 32.
Definition u64 (x : Z) : Z := x mod 2 ^ 64.

(** Go's [x << n] on an unsigned type of the given width: the bits shifted
    beyond the width are lost (and a count of the width or more gives 0). *)
Definition shl8 (x n : Z) : Z := u8 (Z.shiftl x n).
Definition shl16 (x n : Z) : Z := u16 (Z.shiftl x n).
Definition shl32 (x n : Z) : Z := u32 (Z.shiftl x n).
Definition shl64 (x n : Z) : Z := u64 (Z.shiftl x n).

(** Outcome of a Go call that may panic or return an error. *)
Inductive result (E A : Type) : Type :=
| Ok (a : A)
| Error (e : E)
| Panic.
Arguments Ok {E A} a.
Arguments Error {E A} e.
Arguments Panic {E A}.

#[global] Instance result_bind {E} : MBind (result E) :=
  fun A B (k : A -> result E B) (r : result E A) =>
    match r with
    | Ok a => k a
    | Error e => Error e
    | Panic => Panic
    end.

(** Slice indexing [s[i]]: out of range is a run-time panic. *)
Definition index {E} (s : list Z) (i : Z) : result E Z :=
  if i <? 0 then Panic
  else match s !! Z.to_nat i with
       | Some x => Ok x
       | None => Panic
       end.

(** ** branch.go: adaptive probability cell *)

Module Branch.

(** [type Branch struct { counts uint16 }] *)
Definition Branch := Z.

Definition NewBranch : Branch := 0x0101.

(** [probLookup], as filled by [init]: entry 0 keeps the zero value. *)
Definition probLookup (i : Z) : Z :=
  let a := Z.shiftr i 8 in
  let b := Z.land i 0xff in
  if (1 <=? i) && (i <? 65536) && (0 <? a + b)
  then u8 (Z.shiftl a 8 / (a + b))
  else 0.

Definition GetProbability (b : Branch) : Z := probLookup b.

Definition RecordAndUpdateBit (b : Branch) (bit : bool) : Branch :=
  let orig :=
    if bit then u16 (Z.lor (Z.shiftr b 8) (shl16 b 8)) else b in
  let sum := u16 (orig + 0x100) in
  let overflow := sum <? orig in
  let sum :=
    if overflow then
      let mask := if orig =? 0xff01 then 0xff00 else 0x8100 in
      Z.lor (Z.shiftr (u16 (1 + Z.land sum 0xFF)) 1) mask
    else sum in
  if bit then u16 (Z.lor (Z.shiftr sum 8) (shl16 sum 8)) else sum.

Definition GetCounts (b : Branch) : Z := b.
Definition SetCounts (_ : Branch) (counts : Z) : Branch := counts.

(** The false counter is the high byte, the true counter the low byte. *)
Definition falseCount (b : Branch) : Z := Z.shiftr b 8.
Definition trueCount (b : Branch) : Z := Z.land b 0xff.

(** A run of observations applied to one cell, first observation first. *)
Definition RecordAll (b : Branch) (bits : list bool) : Branch :=
  fold_left RecordAndUpdateBit bits b.

End Branch.

(** ** vpx_bool_reader.go: helpers shared by the decoder and the encoder *)

Definition bitsInByte : Z := 8.
Definition bitsInValue : Z := 64.
Definition bitsInValueMinusLastByte : Z := bitsInValue - bitsInByte.
Definition valueMask : Z := Z.shiftl 1 bitsInValueMinusLastByte - 1.

Definition mulProb (tmpRange probability : Z) : Z :=
  u64 (Z.land
         (u64 (Z.shiftr (u64 (tmpRange - Z.shiftl 1 bitsInValueMinusLastByte)) 8
               * probability))
         (Z.shiftl 0xFF bitsInValueMinusLastByte)
       + Z.shiftl 1 bitsInValueMinusLastByte).

Definition leadingZeros64 (x : Z) : Z :=
  if x =? 0 then 64 else
  let n := 0 in
  let '(n, x) := if Z.land x 0xFFFFFFFF00000000 =? 0 then (n + 32, shl64 x 32) else (n, x) in
  let '(n, x) := if Z.land x 0xFFFF000000000000 =? 0 then (n + 16, shl64 x 16) else (n, x) in
  let '(n, x) := if Z.land x 0xFF00000000000000 =? 0 then (n + 8, shl64 x 8) else (n, x) in
  let '(n, x) := if Z.land x 0xF000000000000000 =? 0 then (n + 4, shl64 x 4) else (n, x) in
  let '(n, x) := if Z.land x 0xC000000000000000 =? 0 then (n + 2, shl64 x 2) else (n, x) in
  if Z.land x 0x8000000000000000 =? 0 then n + 1 else n.

Definition trailingZeros64 (x : Z) : Z :=
  if x =? 0 then 64 else
  let n := 0 in
  let '(n, x) := if Z.land x 0xFFFFFFFF =? 0 then (n + 32, Z.shiftr x 32) else (n, x) in
  let '(n, x) := if Z.land x 0xFFFF =? 0 then (n + 16, Z.shiftr x 16) else (n, x) in
  let '(n, x) := if Z.land x 0xFF =? 0 then (n + 8, Z.shiftr x 8) else (n, x) in
  let '(n, x) := if Z.land x 0xF =? 0 then (n + 4, Z.shiftr x 4) else (n, x) in
  let '(n, x) := if Z.land x 0x3 =? 0 then (n + 2, Z.shiftr x 2) else (n, x) in
  if Z.land x 0x1 =? 0 then n + 1 else n.

(** [bitLength]: the loop [for n > 0 { bits++; n >>= 1 }] runs once per
    binary digit of [n]; a Go [int] has at most 63 of them. *)
Fixpoint bitLength_loop (fuel : nat) (n bits : Z) : Z :=
  match fuel with
  | O => bits
  | S fuel => if 0 <? n then bitLength_loop fuel (Z.shiftr n 1) (bits + 1) else bits
  end.

Definition bitLength (n : Z) : Z :=
  if n =? 0 then 0 else bitLength_loop 64 n 0.

Definition leadingZeros8 (x : Z) : Z :=
  if x =? 0 then 8 else
  let n := 0 in
  let '(n, x) := if Z.land x 0xF0 =? 0 then (n + 4, shl8 x 4) else (n, x) in
  let '(n, x) := if Z.land x 0xC0 =? 0 then (n + 2, shl8 x 2) else (n, x) in
  if Z.land x 0x80 =? 0 then n + 1 else n.

Definition rotateLeft64 (x n : Z) : Z :=
  Z.lor (shl64 x n) (Z.shiftr x (u32 (64 - n))).

(** [io.Reader] as the decoder sees it, one byte per call: the next call
    yields a byte, fails with an error other than [io.EOF], or (at the end
    of the list) reports [io.EOF] with no byte. *)
Inductive ReadEvent : Type :=
| Data (b : Z)
| Failure.

Definition bytesReader (data : list Z) : list ReadEvent := map Data data.

Inductive VPXError : Type :=
| ErrStreamInconsistent
| ErrUpstream.

(** ** vpx_bool_reader.go: VPXBoolReader *)

Module VPXBoolReader.
Import Branch.

Record VPXBoolReader : Type := mkReader {
  value : Z;
  rang : Z;
  upstreamReader : list ReadEvent
}.

(** The refill loop of [vpxReaderFill]; every iteration performs one
    upstream read, so it is structural on the remaining events. *)
Fixpoint fill_loop (up : list ReadEvent) (tmpValue shift : Z)
  : result VPXError (Z * list ReadEvent) :=
  if 0 <? shift then
    match up with
    | [] => Ok (tmpValue, [])
    | Failure :: _ => Error ErrUpstream
    | Data b :: up' =>
        fill_loop up' (Z.lor tmpValue (shl64 b shift)) (shift - 8)
    end
  else Ok (tmpValue, up).

Definition vpxReaderFill (up : list ReadEvent) (tmpValue : Z)
  : result VPXError (Z * list ReadEvent) :=
  if Z.land tmpValue 0xFF =? 0 then
    let shift := trailingZeros64 tmpValue in
    let tmpValue := Z.land tmpValue (u64 (tmpValue - 1)) in
    let tmpValue := Z.lor tmpValue (Z.shiftl 1 (Z.land shift 7)) in
    fill_loop up tmpValue (shift - 7)
  else Ok (tmpValue, up).

(** [get]: one decoded bit; returns the bit, the updated cell and the
    two registers. *)
Definition get (branch : Branch) (tmpValue tmpRange : Z)
  : bool * Branch * Z * Z :=
  let probability := GetProbability branch in
  let split := mulProb tmpRange probability in
  let bit := split <=? tmpValue in
  let branch := RecordAndUpdateBit branch bit in
  let '(tmpRange, tmpValue) :=
    if bit then (u64 (tmpRange - split), u64 (tmpValue - split))
    else (split, tmpValue) in
  let shift := leadingZeros64 tmpRange in
  (bit, branch, shl64 tmpValue shift, shl64 tmpRange shift).

Definition GetBit (r : VPXBoolReader) (branch : Branch)
  : result VPXError (bool * Branch * VPXBoolReader) :=
  let tmpValue := value r in
  let tmpRange := rang r in
  '(tmpValue, up) ←
    (if Z.land tmpValue valueMask =? 0
     then vpxReaderFill (upstreamReader r) tmpValue
     else Ok (tmpValue, upstreamReader r));
  let '(bit, branch, tmpValue, tmpRange) := get branch tmpValue tmpRange in
  Ok (bit, branch, mkReader tmpValue tmpRange up).

Definition NewVPXBoolReader (reader : list ReadEvent)
  : result VPXError VPXBoolReader :=
  let r := mkReader (Z.shiftl 1 (bitsInValue - 1))
                    (Z.shiftl 255 bitsInValueMinusLastByte) reader in
  '(bit, _, r) ← GetBit r NewBranch;
  if bit : bool then Error ErrStreamInconsistent else Ok r.

(** Loop of [GetGrid]: [i] counts the remaining iterations. *)
Fixpoint GetGrid_loop (i : nat) (branches : list Branch)
    (decodedSoFar tmpValue tmpRange : Z)
  : result VPXError (Z * list Branch * Z * Z) :=
  match i with
  | O => Ok (decodedSoFar, branches, tmpValue, tmpRange)
  | S i =>
      b ← index branches decodedSoFar;
      let '(curBit, b, tmpValue, tmpRange) := get b tmpValue tmpRange in
      let branches := <[Z.to_nat decodedSoFar := b]> branches in
      let decodedSoFar := Z.shiftl decodedSoFar 1 in
      let decodedSoFar := if curBit then Z.lor decodedSoFar 1 else decodedSoFar in
      GetGrid_loop i branches decodedSoFar tmpValue tmpRange
  end.

Definition GetGrid (r : VPXBoolReader) (branches : list Branch)
  : result VPXError (Z * list Branch * VPXBoolReader) :=
  let len := Z.of_nat (length branches) in
  if (len =? 0) || negb (Z.land len (len - 1) =? 0) then Panic else
  let A := len in
  '(tmpValue, up) ← vpxReaderFill (upstreamReader r) (value r);
  let numBits := bitLength A - 1 in
  '(decodedSoFar, branches, tmpValue, tmpRange) ←
    GetGrid_loop (Z.to_nat numBits) branches 1 tmpValue (rang r);
  Ok (Z.lxor decodedSoFar A, branches, mkReader tmpValue tmpRange up).

(** Loop of [GetUnaryEncoded], [n] iterations left, at index [value]. *)
Fixpoint GetUnaryEncoded_loop (n : nat) (val : Z) (branches : list Branch)
    (up : list ReadEvent) (tmpValue tmpRange : Z)
  : result VPXError (Z * list Branch * VPXBoolReader) :=
  match n with
  | O => Ok (val, branches, mkReader tmpValue tmpRange up)
  | S n =>
      '(tmpValue, up) ←
        (if (val =? 0) || (val =? 7) then vpxReaderFill up tmpValue
         else Ok (tmpValue, up));
      b ← index branches val;
      let split := mulProb tmpRange (GetProbability b) in
      if split <=? tmpValue then
        let branches := <[Z.to_nat val := RecordAndUpdateBit b true]> branches in
        let tmpRange := u64 (tmpRange - split) in
        let tmpValue := u64 (tmpValue - split) in
        let shift := leadingZeros64 tmpRange in
        GetUnaryEncoded_loop n (val + 1) branches up
          (shl64 tmpValue shift) (shl64 tmpRange shift)
      else
        let branches := <[Z.to_nat val := RecordAndUpdateBit b false]> branches in
        let tmpRange := split in
        let shift := leadingZeros64 tmpRange in
        Ok (val, branches,
            mkReader (shl64 tmpValue shift) (shl64 tmpRange shift) up)
  end.

Definition GetUnaryEncoded (r : VPXBoolReader) (branches : list Branch)
  : result VPXError (Z * list Branch * VPXBoolReader) :=
  GetUnaryEncoded_loop (length branches) 0 branches
    (upstreamReader r) (value r) (rang r).

(** Loop of [GetNBits]: [k] iterations left, the next index is [k - 1]. *)
Fixpoint GetNBits_loop (k : nat) (branches : list Branch) (coef : Z)
    (up : list ReadEvent) (tmpValue tmpRange : Z)
  : result VPXError (Z * list Branch * VPXBoolReader) :=
  match k with
  | O => Ok (coef, branches, mkReader tmpValue tmpRange up)
  | S i =>
      '(tmpValue, up) ←
        (if Z.land tmpValue valueMask =? 0 then vpxReaderFill up tmpValue
         else Ok (tmpValue, up));
      b ← index branches (Z.of_nat i);
      let '(bit, b, tmpValue, tmpRange) := get b tmpValue tmpRange in
      let branches := <[i := b]> branches in
      let coef := if bit then Z.lor coef (Z.shiftl 1 (Z.of_nat i)) else coef in
      GetNBits_loop i branches coef up tmpValue tmpRange
  end.

Definition GetNBits (r : VPXBoolReader) (n : Z) (branches : list Branch)
  : result VPXError (Z * list Branch * VPXBoolReader) :=
  if Z.of_nat (length branches) <? n then Panic else
  GetNBits_loop (Z.to_nat n) branches 0 (upstreamReader r) (value r) (rang r).

End VPXBoolReader.

(** ** vpx_bool_reader.go: VPXBoolWriter *)

Module VPXBoolWriter.
Import Branch.

(** [writer] holds the bytes handed to the [io.Writer] (a [bytes.Buffer]
    in the callers). *)
Record VPXBoolWriter : Type := mkWriter {
  lowValue : Z;
  rang : Z;
  buffer : list Z;
  writer : list Z
}.

(** [carry] walks the buffer from its last byte towards the first; the
    recursion below runs over the reversed buffer.  Running off the
    front is an index panic. *)
Fixpoint carry_rev (rbuf : list Z) : option (list Z) :=
  match rbuf with
  | [] => None
  | b :: rest =>
      if b =? 0xFF then option_map (cons 0) (carry_rev rest)
      else Some (u8 (b + 1) :: rest)
  end.

Definition carry {E} (buf : list Z) : result E (list Z) :=
  match carry_rev (rev buf) with
  | Some r => Ok (rev r)
  | None => Panic
  end.

Definition highBitsMask : Z := 0xfe00000000000000.

(** [put]: returns the updated cell, [tmpValue], [tmpRange] and the
    buffer. *)
Definition put {E} (buf : list Z) (bit : bool) (branch : Branch)
    (tmpValue tmpRange : Z) : result E (Branch * Z * Z * list Z) :=
  let probability := GetProbability branch in
  let split := u32 (1 + Z.shiftr (u32 (u32 (tmpRange - 1) * probability)) 8) in
  let branch := RecordAndUpdateBit branch bit in
  let '(tmpValue, tmpRange) :=
    if bit then (u64 (tmpValue + split), u32 (tmpRange - split))
    else (tmpValue, split) in
  let shift := leadingZeros8 (u8 tmpRange) in
  let tmpRange := shl32 tmpRange shift in
  let tmpValue := shl64 tmpValue shift in
  if negb (Z.land tmpValue highBitsMask =? 0) then
    let leftoverBits := leadingZeros64 tmpValue + 2 in
    let vAligned := rotateLeft64 tmpValue leftoverBits in
    buf ← (if negb (Z.land vAligned 1 =? 0) then carry buf else Ok buf);
    let buf := buf ++ [u8 (Z.shiftr vAligned 56); u8 (Z.shiftr vAligned 48);
                       u8 (Z.shiftr vAligned 40); u8 (Z.shiftr vAligned 32);
                       u8 (Z.shiftr vAligned 24); u8 (Z.shiftr vAligned 16)] in
    let tmpValue :=
      Z.shiftr (Z.lor (Z.land vAligned 0xffff) 0x20000) leftoverBits in
    Ok (branch, tmpValue, tmpRange, buf)
  else Ok (branch, tmpValue, tmpRange, buf).

Definition PutBit {E} (w : VPXBoolWriter) (v : bool) (branch : Branch)
  : result E (Branch * VPXBoolWriter) :=
  '(branch, tmpValue, tmpRange, buf) ←
    put (buffer w) v branch (lowValue w) (rang w);
  Ok (branch, mkWriter tmpValue tmpRange buf (writer w)).

Definition NewVPXBoolWriter {E} (out : list Z) : result E VPXBoolWriter :=
  let w := mkWriter (Z.shiftl 1 9) 255 [] out in
  '(_, w) ← PutBit w false NewBranch;
  Ok w.

(** Loop of [PutGrid]: [k] iterations left, the bit index is [k - 1]. *)
Fixpoint PutGrid_loop {E} (k : nat) (v : Z) (branches : list Branch)
    (serializedSoFar tmpValue tmpRange : Z) (buf : list Z)
  : result E (list Branch * Z * Z * list Z) :=
  match k with
  | O => Ok (branches, tmpValue, tmpRange, buf)
  | S i =>
      let curBit := negb (Z.land v (shl8 1 (Z.of_nat i)) =? 0) in
      b ← index branches serializedSoFar;
      '(b, tmpValue, tmpRange, buf) ← put buf curBit b tmpValue tmpRange;
      let branches := <[Z.to_nat serializedSoFar := b]> branches in
      let serializedSoFar := Z.shiftl serializedSoFar 1 in
      let serializedSoFar :=
        if curBit then Z.lor serializedSoFar 1 else serializedSoFar in
      PutGrid_loop i v branches serializedSoFar tmpValue tmpRange buf
  end.

Definition PutGrid {E} (w : VPXBoolWriter) (v : Z) (branches : list Branch)
  : result E (list Branch * VPXBoolWriter) :=
  let A := Z.of_nat (length branches) in
  if negb (Z.land A (A - 1) =? 0) then Panic else
  let numBits := bitLength A - 1 in
  '(branches, tmpValue, tmpRange, buf) ←
    PutGrid_loop (Z.to_nat numBits) v branches 1 (lowValue w) (rang w)
      (buffer w);
  Ok (branches, mkWriter tmpValue tmpRange buf (writer w)).

(** Byte loop of [Finish]; [shift] is a [uint32] and wraps. *)
Fixpoint Finish_loop (n : nat) (tmpValue shift : Z) (buf : list Z) : list Z :=
  match n with
  | O => buf
  | S n =>
      let shift := u32 (shift - 8) in
      Finish_loop n tmpValue shift (buf ++ [u8 (Z.shiftr tmpValue shift)])
  end.

Definition Finish {E} (w : VPXBoolWriter) : result E VPXBoolWriter :=
  let tmpValue := lowValue w in
  let streamBits := u32 (64 - leadingZeros64 tmpValue - 2) in
  let tmpValue := shl64 tmpValue (u32 (63 - streamBits)) in
  buf ← (if negb (Z.land tmpValue (Z.shiftl 1 63) =? 0)
         then carry (buffer w) else Ok (buffer w));
  let numBytes := Z.shiftr (u32 (streamBits + 7)) 3 in
  let buf := Finish_loop (Z.to_nat numBytes) tmpValue 63 buf in
  Ok (mkWriter (lowValue w) (rang w) buf (writer w ++ buf)).

(** Loop of [PutNBits]: [k] iterations left, the bit index is [k - 1]. *)
Fixpoint PutNBits_loop {E} (k : nat) (bits : Z) (branches : list Branch)
    (tmpValue tmpRange : Z) (buf : list Z)
  : result E (list Branch * Z * Z * list Z) :=
  match k with
  | O => Ok (branches, tmpValue, tmpRange, buf)
  | S i =>
      let bit := negb (Z.land bits (u64 (Z.shiftl 1 (Z.of_nat i))) =? 0) in
      b ← index branches (Z.of_nat i);
      '(b, tmpValue, tmpRange, buf) ← put buf bit b tmpValue tmpRange;
      PutNBits_loop i bits (<[i := b]> branches) tmpValue tmpRange buf
  end.

Definition PutNBits {E} (w : VPXBoolWriter) (bits numBits : Z)
    (branches : list Branch) : result E (list Branch * VPXBoolWriter) :=
  '(branches, tmpValue, tmpRange, buf) ←
    PutNBits_loop (Z.to_nat numBits) bits branches (lowValue w) (rang w)
      (buffer w);
  Ok (branches, mkWriter tmpValue tmpRange buf (writer w)).

(** Loop of [PutUnaryEncoded]: [n] iterations left, at index [i]. *)
Fixpoint PutUnaryEncoded_loop {E} (n : nat) (i v : Z) (branches : list Branch)
    (tmpValue tmpRange : Z) (buf : list Z)
  : result E (list Branch * Z * Z * list Z) :=
  match n with
  | O => Ok (branches, tmpValue, tmpRange, buf)
  | S n =>
      let curBit := negb (v =? i) in
      b ← index branches i;
      '(b, tmpValue, tmpRange, buf) ← put buf curBit b tmpValue tmpRange;
      let branches := <[Z.to_nat i := b]> branches in
      if curBit
      then PutUnaryEncoded_loop n (i + 1) v branches tmpValue tmpRange buf
      else Ok (branches, tmpValue, tmpRange, buf)
  end.

Definition PutUnaryEncoded {E} (w : VPXBoolWriter) (v : Z)
    (branches : list Branch) : result E (list Branch * VPXBoolWriter) :=
  let A := Z.of_nat (length branches) in
  if A <? v then Panic else
  '(branches, tmpValue, tmpRange, buf) ←
    PutUnaryEncoded_loop (length branches) 0 v branches (lowValue w) (rang w)
      (buffer w);
  Ok (branches, mkWriter tmpValue tmpRange buf (writer w)).

End VPXBoolWriter.

(** ** encode_test.go: the grid round trip of TestVPXBoolWriterGridRoundtrip *)

Definition freshBranches (n : nat) : list Branch.Branch :=
  replicate n Branch.NewBranch.

(** Bytes produced by a fresh writer for [PutGrid val] over 16 fresh cells
    followed by [Finish]. *)
Definition bool_write (val : Z) : result VPXError (list Z) :=
  w ← VPXBoolWriter.NewVPXBoolWriter [];
  '(_, w) ← VPXBoolWriter.PutGrid w val (freshBranches 16);
  w ← VPXBoolWriter.Finish w;
  Ok (VPXBoolWriter.writer w).

(** Value read back by a fresh reader with [GetGrid] over 16 fresh cells. *)
Definition bool_read (data : list Z) : result VPXError Z :=
  r ← VPXBoolReader.NewVPXBoolReader (bytesReader data);
  '(v, _, _) ← VPXBoolReader.GetGrid r (freshBranches 16);
  Ok v.

Definition grid_roundtrip (val : Z) : result VPXError Z :=
  data ← bool_write val;
  bool_read data.

(** ** branch.go: BitWriter *)

Module BitWriter.

Record BitWriter : Type := mkBitWriter {
  dataBuffer : list Z;
  fillRegister : Z;
  currentBit : Z
}.

Definition NewBitWriter : BitWriter := mkBitWriter [] 0 64.

(** One byte leaving the register: [append(b)], then the stuffed
    [0x00] when [b == 0xFF]. *)
Definition appendFFEncoded (buf : list Z) (b : Z) : list Z :=
  if b =? 0xFF then buf ++ [b; 0x00] else buf ++ [b].

(** Loop of [writeFFEncoded], [i] running from [8 - k] to 7. *)
Fixpoint writeFFEncoded_loop (k : nat) (i : Z) (fill : Z) (buf : list Z)
  : list Z :=
  match k with
  | O => buf
  | S k =>
      let b := u8 (Z.shiftr fill (56 - i * 8)) in
      writeFFEncoded_loop k (i + 1) fill (appendFFEncoded buf b)
  end.

Definition writeFFEncoded (w : BitWriter) (fill : Z) : BitWriter :=
  mkBitWriter (writeFFEncoded_loop 8 0 fill (dataBuffer w))
              (fillRegister w) (currentBit w).

Definition Write (w : BitWriter) (val numBits : Z) : BitWriter :=
  if numBits =? 0 then w else
  if numBits <=? currentBit w then
    let reg :=
      if u32 (currentBit w - numBits) <? 64
      then Z.lor (fillRegister w) (shl64 val (u32 (currentBit w - numBits)))
      else fillRegister w in
    mkBitWriter (dataBuffer w) reg (u32 (currentBit w - numBits))
  else
    let fill := fillRegister w in
    let fill :=
      if currentBit w <? numBits
      then Z.lor fill (Z.shiftr val (u32 (numBits - currentBit w)))
      else fill in
    let leftoverNewBits := u32 (numBits - currentBit w) in
    let leftoverVal := Z.land val (u32 (shl32 1 leftoverNewBits - 1)) in
    let w := writeFFEncoded w fill in
    let reg :=
      if leftoverNewBits <? 64
      then shl64 leftoverVal (u32 (64 - leftoverNewBits))
      else 0 in
    mkBitWriter (dataBuffer w) reg (u32 (64 - leftoverNewBits)).

Definition WriteByte (w : BitWriter) (b : Z) : BitWriter :=
  mkBitWriter (dataBuffer w ++ [b]) (fillRegister w) (currentBit w).

Definition WriteByteUnescaped (w : BitWriter) (b : Z) : BitWriter :=
  mkBitWriter (dataBuffer w ++ [b]) (fillRegister w) (currentBit w).

(** Loop of [flushWholeBytes]; [currentBit] grows by 8 per iteration. *)
Fixpoint flushWholeBytes_loop (fuel : nat) (w : BitWriter) : option BitWriter :=
  if currentBit w <=? 56 then
    match fuel with
    | O => None
    | S fuel =>
        let b := u8 (Z.shiftr (fillRegister w) 56) in
        flushWholeBytes_loop fuel
          (mkBitWriter (appendFFEncoded (dataBuffer w) b)
                       (shl64 (fillRegister w) 8)
                       (u32 (currentBit w + 8)))
    end
  else Some w.

(** [None] only if the fuel ran out; [flushWholeBytes_total] shows that
    it never does. *)
Definition flushWholeBytes (w : BitWriter) : option BitWriter :=
  flushWholeBytes_loop 8 w.

(** Loop of [Pad]: every iteration writes one bit. *)
Fixpoint Pad_loop (fuel : nat) (fillBit offset : Z) (w : BitWriter)
  : option BitWriter :=
  if negb (Z.land (currentBit w) 7 =? 0) then
    match fuel with
    | O => None
    | S fuel =>
        let bit := if negb (Z.land fillBit (u8 offset) =? 0) then 1 else 0 in
        Pad_loop fuel fillBit (shl32 offset 1) (Write w bit 1)
    end
  else Some w.

Definition Pad (w : BitWriter) (fillBit : Z) : option BitWriter :=
  match Pad_loop 7 fillBit 1 w with
  | Some w => flushWholeBytes w
  | None => None
  end.

Definition DetachBuffer (w : BitWriter) : option (list Z * BitWriter) :=
  match flushWholeBytes w with
  | Some w => Some (dataBuffer w, mkBitWriter [] 0 64)
  | None => None
  end.

Definition ResetFromOverhang (w : BitWriter) (overhangByte numBits : Z)
  : BitWriter :=
  mkBitWriter [] (shl64 overhangByte 56) (u32 (64 - numBits)).

(** The calls of the bit-level path, and of the unescaped byte API. *)
Inductive BitOp : Type :=
| OpWrite (val numBits : Z)
| OpPad (fillBit : Z)
| OpFlushWholeBytes.

Definition runBitOp (w : BitWriter) (op : BitOp) : option BitWriter :=
  match op with
  | OpWrite val numBits => Some (Write w val numBits)
  | OpPad fillBit => Pad w fillBit
  | OpFlushWholeBytes => flushWholeBytes w
  end.

Fixpoint runBitOps (w : BitWriter) (ops : list BitOp) : option BitWriter :=
  match ops with
  | [] => Some w
  | op :: ops =>
      match runBitOp w op with
      | Some w => runBitOps w ops
      | None => None
      end
  end.

(** Every [0xFF] of the byte sequence is immediately followed by
    [0x00]. *)
Fixpoint ffEscaped (bytes : list Z) : Prop :=
  match bytes with
  | [] => True
  | b :: rest =>
      (b = 0xFF -> exists rest', rest = 0x00 :: rest') /\ ffEscaped rest
  end.

(** The bit counter is a [uint32]. *)
Definition typed (w : BitWriter) : Prop :=
  0 <= currentBit w < 2 ^ 32.

End BitWriter.

(** ** Error codes (the [ExitCode] carried by a [LeptonError]) *)

Inductive LeptonError : Type :=
| ExitCodeUnsupportedJpeg
| ExitCodeInvalidResetCode (next : Z)
| ExitCodeInvalidPadding
| OtherReadError.

(** ** BitReader: the JPEG entropy-segment reader *)

Module BitReader.

(** [inner] is what [readByte] will deliver: the unread part of the
    internal buffer followed by what the wrapped [io.Reader] still
    holds.  The end of the list is [io.EOF]; [Failure] is any other
    error. *)
Record BitReader : Type := mkBitReader {
  inner : list ReadEvent;
  bits : Z;
  bitsLeft : Z;
  cpos : Z;
  eof : bool;
  truncatedFF : bool
}.

Definition NewBitReader (reader : list ReadEvent) : BitReader :=
  mkBitReader reader 0 0 0 false false.

(** What one [readByte] call returns. *)
Inductive ByteRead : Type :=
| GotByte (b : Z) (rest : list ReadEvent)
| GotEOF
| GotError.

Definition readByte (input : list ReadEvent) : ByteRead :=
  match input with
  | [] => GotEOF
  | Data b :: rest => GotByte b rest
  | Failure :: _ => GotError
  end.

(** [fillRegister]: one iteration per unit of fuel; [None] when the fuel
    is used up before [bitsLeft >= bitsToRead]. *)
Fixpoint fillRegister (fuel : nat) (r : BitReader) (bitsToRead : Z)
  : option (result LeptonError BitReader) :=
  if bitsLeft r <? bitsToRead then
    match fuel with
    | O => None
    | S fuel =>
        match readByte (inner r) with
        | GotEOF =>
            fillRegister fuel
              (mkBitReader (inner r) (shl64 (bits r) 8)
                 (u32 (bitsLeft r + 8)) (cpos r) true (truncatedFF r))
              bitsToRead
        | GotError => Some (Error OtherReadError)
        | GotByte b rest =>
            if b =? 0xff then
              match readByte rest with
              | GotEOF =>
                  fillRegister fuel
                    (mkBitReader rest (Z.lor (shl64 (bits r) 8) 0xff)
                       (u32 (bitsLeft r + 8)) (cpos r) (eof r) true)
                    bitsToRead
              | GotError => Some (Error OtherReadError)
              | GotByte next rest' =>
                  if next =? 0 then
                    fillRegister fuel
                      (mkBitReader rest' (Z.lor (shl64 (bits r) 8) 0xff)
                         (u32 (bitsLeft r + 8)) (cpos r) (eof r)
                         (truncatedFF r))
                      bitsToRead
                  else Some (Error (ExitCodeInvalidResetCode next))
              end
            else
              fillRegister fuel
                (mkBitReader rest (Z.lor (shl64 (bits r) 8) b)
                   (u32 (bitsLeft r + 8)) (cpos r) (eof r) (truncatedFF r))
                bitsToRead
        end
    end
  else Some (Ok r).

(** [Read]: the fuel covers one loop iteration per 8 requested bits,
    which is what the loop needs (see [Read_total]). *)
Definition Read (r : BitReader) (bitsToRead : Z)
  : option (result LeptonError (Z * BitReader)) :=
  if bitsToRead =? 0 then Some (Ok (0, r)) else
  match
    (if bitsLeft r <? bitsToRead
     then fillRegister (Z.to_nat (bitsToRead / 8 + 1)) r bitsToRead
     else Some (Ok r))
  with
  | None => None
  | Some (Error e) => Some (Error e)
  | Some Panic => Some Panic
  | Some (Ok r) =>
      let retval :=
        u16 (Z.land (Z.shiftr (bits r) (u32 (bitsLeft r - bitsToRead)))
                    (u64 (shl64 1 bitsToRead - 1))) in
      Some (Ok (retval,
                mkBitReader (inner r) (bits r) (u32 (bitsLeft r - bitsToRead))
                            (cpos r) (eof r) (truncatedFF r)))
  end.

Definition IsEOF (r : BitReader) : bool := eof r.

(** [Peek]: the top byte of the bits held, and how many are held; the
    register is not refilled. *)
Definition Peek (r : BitReader) : Z * Z :=
  if 8 <=? bitsLeft r
  then (u8 (Z.shiftr (bits r) (u32 (bitsLeft r - 8))), bitsLeft r)
  else if 0 <? bitsLeft r
       then (u8 (shl64 (bits r) (u32 (8 - bitsLeft r))), bitsLeft r)
       else (0, 0).

Definition Advance (r : BitReader) (n : Z) : BitReader :=
  mkBitReader (inner r) (bits r) (u32 (bitsLeft r - n)) (cpos r) (eof r)
              (truncatedFF r).

(** *** The bit stream [Read] is specified against *)

(** How the spec_unstuffed byte sequence ends. *)
Inductive Ending : Type :=
| AtEOF
| BadMarker (next : Z)
| IoFailure.

(** The entropy-coded bytes with [0xFF 0x00] spec_unstuffed, up to the first
    of: end of input, an [0xFF] followed by a nonzero byte, a read
    error.  An [0xFF] that is the last byte of the input counts as
    data. *)
Fixpoint spec_unstuff (input : list ReadEvent) : list Z * Ending :=
  match input with
  | [] => ([], AtEOF)
  | Failure :: _ => ([], IoFailure)
  | Data b :: rest =>
      if b =? 0xff then
        match rest with
        | [] => ([0xff], AtEOF)
        | Failure :: _ => ([], IoFailure)
        | Data next :: rest' =>
            if next =? 0 then
              let '(bs, e) := spec_unstuff rest' in (0xff :: bs, e)
            else ([], BadMarker next)
        end
      else
        let '(bs, e) := spec_unstuff rest in (b :: bs, e)
  end.

(** The input ends, without a bad marker or a read error before it,
    with an [0xFF] that no byte follows: the last byte of
    [spec_unstuff] is that [0xFF]. *)
Fixpoint spec_lastFF (input : list ReadEvent) : bool :=
  match input with
  | [] => false
  | Failure :: _ => false
  | Data b :: rest =>
      if b =? 0xff then
        match rest with
        | [] => true
        | Failure :: _ => false
        | Data next :: rest' =>
            if next =? 0 then spec_lastFF rest' else false
        end
      else spec_lastFF rest
  end.

End BitReader.

(** ** Huffman tables and the longest EOB run they can express *)

Module Huffman.

(** [HuffmanTable]: the fields read by the functions below.  [NumCodes]
    has 17 entries (index 0 unused), [Symbols] has 256. *)
Record HuffmanTable : Type := mkHuffmanTable {
  NumCodes : list Z;
  Symbols : list Z;
  SymbolCount : Z
}.

(** jpeg_read.go, [getMaxEobRun]: loop over the first [SymbolCount]
    symbols, [k] iterations left starting at index [i]. *)
Fixpoint getMaxEobRun_loop (k : nat) (i : Z) (symbols : list Z) (maxRun : Z)
  : result LeptonError Z :=
  match k with
  | O => Ok maxRun
  | S k =>
      sym ← index symbols i;
      let maxRun :=
        if (Z.land sym 0x0F =? 0) && negb (sym =? 0xF0) then
          let runBits := Z.shiftr sym 4 in
          if runBits <? 15 then
            let run := shl16 1 runBits in
            if maxRun <? run then run else maxRun
          else maxRun
        else maxRun in
      getMaxEobRun_loop k (i + 1) symbols maxRun
  end.

Definition getMaxEobRun (acTable : HuffmanTable) : result LeptonError Z :=
  getMaxEobRun_loop (Z.to_nat (SymbolCount acTable)) 0 (Symbols acTable) 1.

(** [HuffmanEncodeTable] of the JPEG writer. *)
Record HuffmanEncodeTable : Type := mkHuffmanEncodeTable {
  codes : list Z;
  lengths : list Z;
  maxEOBRun : Z
}.

(** Inner loop of [buildEncodeTable]: the codes of one length. *)
Fixpoint assign_codes (n : nat) (bits : Z) (symbols : list Z)
    (st : list Z * list Z * Z * Z)
  : result LeptonError (list Z * list Z * Z * Z) :=
  match n with
  | O => Ok st
  | S n =>
      let '(cs, ls, code, symbolIdx) := st in
      symbol ← index symbols symbolIdx;
      assign_codes n bits symbols
        (<[Z.to_nat symbol := code]> cs, <[Z.to_nat symbol := u8 bits]> ls,
         u16 (code + 1), symbolIdx + 1)
  end.

(** Outer loop of [buildEncodeTable], [bits] from [17 - k] to 16. *)
Fixpoint assign_lengths (k : nat) (bits : Z) (t : HuffmanTable)
    (st : list Z * list Z * Z * Z)
  : result LeptonError (list Z * list Z * Z * Z) :=
  match k with
  | O => Ok st
  | S k =>
      n ← index (NumCodes t) bits;
      '(cs, ls, code, symbolIdx) ←
        assign_codes (Z.to_nat n) bits (Symbols t) st;
      assign_lengths k (bits + 1) t (cs, ls, shl16 code 1, symbolIdx)
  end.

(** Search of [buildEncodeTable] for the largest EOBn symbol present,
    [i] from [k - 1] down to 0. *)
Fixpoint maxEOBRun_loop (k : nat) (ls : list Z) : result LeptonError Z :=
  match k with
  | O => Ok 0
  | S i =>
      let symbol := u8 (Z.shiftl (Z.of_nat i) 4) in
      len ← index ls symbol;
      if 0 <? len then Ok (u16 (Z.shiftl 2 (Z.of_nat i) - 1))
      else maxEOBRun_loop i ls
  end.

Definition buildEncodeTable (decodeTable : HuffmanTable)
  : result LeptonError HuffmanEncodeTable :=
  '(cs, ls, _, _) ←
    assign_lengths 16 1 decodeTable
      (replicate 256 0, replicate 256 0, 0, 0);
  m ← maxEOBRun_loop 15 ls;
  Ok (mkHuffmanEncodeTable cs ls m).

(** jpeg_read.go, [parseDHTRead] and [BuildDerivedTable]: the table a
    DHT segment with the given code counts (lengths 1..16) and symbols
    yields. *)
Definition tableOfDHT (counts symbols : list Z) : HuffmanTable :=
  mkHuffmanTable (0 :: counts)
    (symbols ++ replicate (256 - length symbols) 0)
    (fold_right Z.add 0 counts).

End Huffman.

(** ** jpeg_position_state.go *)

Module JpegPositionState.

Record JpegPositionState : Type := mkState {
  cmp : Z;
  mcu : Z;
  csc : Z;
  sub : Z;
  dpos : Z;
  rstw : Z;
  Eobrun : Z;
  PrevEobrun : Z
}.

Definition setPrevEobrun (s : JpegPositionState) (v : Z) : JpegPositionState :=
  mkState (cmp s) (mcu s) (csc s) (sub s) (dpos s) (rstw s) (Eobrun s) v.

(** [CheckOptimalEobrun]: [Error] is the returned [UnsupportedJpeg]
    error (the state is then left as it was), [Ok] the state after a
    [nil] return. *)
Definition CheckOptimalEobrun (s : JpegPositionState)
    (isCurrentBlockEmpty : bool) (maxEobRun : Z)
  : result LeptonError JpegPositionState :=
  if isCurrentBlockEmpty
     && (0 <? PrevEobrun s) && (PrevEobrun s <? u16 (maxEobRun - 1))
  then Error ExitCodeUnsupportedJpeg
  else Ok (setPrevEobrun s (Eobrun s)).

(** The check as the scan readers call it:
    [state.CheckOptimalEobrun(eob == header.CsFrom, getMaxEobRun(acTable))]. *)
Definition checkAfterBlock (s : JpegPositionState) (eob csFrom : Z)
    (acTable : Huffman.HuffmanTable)
  : result LeptonError JpegPositionState :=
  m ← Huffman.getMaxEobRun acTable;
  CheckOptimalEobrun s (eob =? csFrom) m.

Inductive JpegDecodeStatus : Type :=
| DecodeInProgress
| RestartIntervalExpired
| ScanCompleted.

(** The fields of [ComponentInfo] the position arithmetic reads, all
    [uint32]. *)
Record ComponentInfo : Type := mkComponentInfo {
  Sfv : Z;
  Sfh : Z;
  Bcv : Z;
  Bch : Z;
  Bc : Z;
  Ncv : Z;
  Nch : Z
}.

Definition setPosition (s : JpegPositionState) (mcu' dpos' rstw' : Z)
  : JpegPositionState :=
  mkState (cmp s) mcu' (csc s) (sub s) dpos' rstw' (Eobrun s) (PrevEobrun s).

(** [nextMcuPosNonInterleaved], with [cmpInfo = jh.CmpInfo[s.cmp]],
    [sequential] for [jh.JpegType == JpegTypeSequential].  [Panic] is
    Go's integer division by zero. *)
Definition nextMcuPosNonInterleaved (s : JpegPositionState)
    (cmpInfo : ComponentInfo) (sequential : bool) (RestartInterval : Z)
  : result LeptonError (JpegDecodeStatus * JpegPositionState) :=
  let dpos := u32 (dpos s + 1) in
  dpos ←
    (if negb (Bch cmpInfo =? Nch cmpInfo) then
       if Bch cmpInfo =? 0 then Panic
       else if dpos mod Bch cmpInfo =? Nch cmpInfo
            then Ok (u32 (dpos + u32 (Bch cmpInfo - Nch cmpInfo)))
            else Ok dpos
     else Ok dpos);
  dpos ←
    (if negb (Bcv cmpInfo =? Ncv cmpInfo) then
       if Bch cmpInfo =? 0 then Panic
       else if dpos / Bch cmpInfo =? Ncv cmpInfo
            then Ok (Bc cmpInfo)
            else Ok dpos
     else Ok dpos);
  mcu ←
    (if sequential then
       let d := u32 (Sfv cmpInfo * Sfh cmpInfo) in
       if d =? 0 then Panic else Ok (dpos / d)
     else Ok (mcu s));
  if Bc cmpInfo <=? dpos then
    Ok (ScanCompleted, setPosition s mcu dpos (rstw s))
  else if 0 <? RestartInterval then
    let rstw := u32 (rstw s - 1) in
    if rstw =? 0 then Ok (RestartIntervalExpired, setPosition s mcu dpos rstw)
    else Ok (DecodeInProgress, setPosition s mcu dpos rstw)
  else Ok (DecodeInProgress, setPosition s mcu dpos (rstw s)).

(** The block after [dpos] when only the [Nch] x [Ncv] window of the
    [Bch] x [Bcv] grid is visited in raster order; [Bc] after the last
    one. *)
Definition windowNext (c : ComponentInfo) (dpos : Z) : Z :=
  let col := dpos mod Bch c in
  let row := dpos / Bch c in
  if col + 1 <? Nch c then dpos + 1
  else if row + 1 <? Ncv c then (row + 1) * Bch c
  else Bc c.

(** [dpos] names a block of the window. *)
Definition inWindow (c : ComponentInfo) (dpos : Z) : Prop :=
  0 <= dpos /\ dpos mod Bch c < Nch c /\ dpos / Bch c < Ncv c.

End JpegPositionState.

(** ** model.go tables and bit lengths *)

Definition ZigzagToTransposed : list Z :=
  [0; 8; 1; 2; 9; 16; 24; 17; 10; 3; 4; 11; 18; 25; 32; 40;
   33; 26; 19; 12; 5; 6; 13; 20; 27; 34; 41; 48; 56; 49; 42; 35;
   28; 21; 14; 7; 15; 22; 29; 36; 43; 50; 57; 58; 51; 44; 37; 30;
   23; 31; 38; 45; 52; 59; 60; 53; 46; 39; 47; 54; 61; 62; 55; 63].

Definition RasterToZigzag : list Z :=
  [0; 1; 5; 6; 14; 15; 27; 28; 2; 4; 7; 13; 16; 26; 29; 42;
   3; 8; 12; 17; 25; 30; 41; 43; 9; 11; 18; 24; 31; 40; 44; 53;
   10; 19; 23; 32; 39; 45; 52; 54; 20; 22; 33; 38; 46; 51; 55; 60;
   21; 34; 37; 47; 50; 56; 59; 61; 35; 36; 48; 49; 57; 58; 62; 63].

Definition Unzigzag49TR : list Z :=
  [9; 17; 10; 11; 18; 25; 33; 26; 19; 12; 13; 20; 27; 34; 41; 49;
   42; 35; 28; 21; 14; 15; 22; 29; 36; 43; 50; 57; 58; 51; 44; 37;
   30; 23; 31; 38; 45; 52; 59; 60; 53; 46; 39; 47; 54; 61; 62; 55;
   63].

Definition FreqMax : list Z :=
  [931; 985; 968; 1020; 968; 1020; 1020; 932; 985; 967; 1020; 969; 1020; 1020].

Definition ResidualNoiseFloor : Z := 7.

Definition leadingZeros16 (x : Z) : Z :=
  if x =? 0 then 16 else
  let n := 0 in
  let '(n, x) := if Z.land x 0xFF00 =? 0 then (n + 8, shl16 x 8) else (n, x) in
  let '(n, x) := if Z.land x 0xF000 =? 0 then (n + 4, shl16 x 4) else (n, x) in
  let '(n, x) := if Z.land x 0xC000 =? 0 then (n + 2, shl16 x 2) else (n, x) in
  if Z.land x 0x8000 =? 0 then n + 1 else n.

Definition u16BitLength (v : Z) : Z := u8 (16 - u8 (leadingZeros16 v)).

(** Array element [a[i]] of a fixed-size Go array (zero beyond the list). *)
Definition at_ (a : list Z) (i : Z) : Z := nth (Z.to_nat i) a 0.

(** ** QuantizationTables *)

Module QuantizationTables.

Record QuantizationTables : Type := mkQuantizationTables {
  QTable : list Z;
  MinNoiseThreshold : list Z;
  Divisors : list Z;
  BiasedDivisors : list Z
}.

(** First loop: [qt.QTable[ZigzagToTransposed[i]] = table[i]]. *)
Definition fillQTable (table : list Z) : list Z :=
  fold_left
    (fun q i => <[Z.to_nat (at_ ZigzagToTransposed (Z.of_nat i)) :=
                    at_ table (Z.of_nat i)]> q)
    (seq 0 64) (replicate 64 0).

(** Transposed coordinate of edge position [i]. *)
Definition coordTR (i : Z) : Z :=
  if i <? 7 then (i + 1) * 8 else i - 6.

(** Body of the second loop: the value stored in
    [qt.MinNoiseThreshold[i]]. *)
Definition minNoiseAt (qtable : list Z) (i : Z) : Z :=
  let q := at_ qtable (coordTR i) in
  if q <? 9 then
    let freqMax :=
      if negb (q =? 0) then u16 (at_ FreqMax i + q - 1) / q
      else u16 (at_ FreqMax i - 1) in
    let maxLen := u16BitLength freqMax in
    if u8 ResidualNoiseFloor <? maxLen
    then u8 (maxLen - u8 ResidualNoiseFloor)
    else 0
  else 0.

Definition fillMinNoise (qtable : list Z) : list Z :=
  fold_left
    (fun t i => <[i := minNoiseAt qtable (Z.of_nat i)]> t)
    (seq 0 14) (replicate 14 0).

(** Third loop: divisors for the IDCT. *)
Definition fillDivisors (qtable : list Z) : list Z * list Z :=
  fold_left
    (fun '(d, b) i =>
       let q := at_ qtable (Z.of_nat i) in
       if negb (q =? 0) then (<[i := q]> d, <[i := q / 2]> b) else (d, b))
    (seq 0 64) (replicate 64 0, replicate 64 0).

Definition NewQuantizationTables (table : list Z) : QuantizationTables :=
  let qtable := fillQTable table in
  let '(d, b) := fillDivisors qtable in
  mkQuantizationTables qtable (fillMinNoise qtable) d b.

Definition GetMinNoiseThreshold (qt : QuantizationTables) (zig15offset : Z) : Z :=
  if (zig15offset <? 0) || (14 <=? zig15offset) then 0
  else at_ (MinNoiseThreshold qt) zig15offset.

Definition GetQ (qt : QuantizationTables) (pos : Z) : Z := at_ (QTable qt) pos.

Definition GetDivisor (qt : QuantizationTables) (pos : Z) : Z :=
  at_ (Divisors qt) pos.

Definition GetBiasedDivisor (qt : QuantizationTables) (pos : Z) : Z :=
  at_ (BiasedDivisors qt) pos.

(** The specification's formula: [bit_length] of the rounded-up
    quotient, less the noise floor, not below zero. *)
Definition spec_bit_length (x : Z) : Z :=
  if x <=? 0 then 0 else Z.log2 x + 1.

Definition spec_ceil_div (a b : Z) : Z := - ((- a) / b).

Definition spec_minNoise (i q : Z) : Z :=
  Z.max 0 (spec_bit_length (spec_ceil_div (at_ FreqMax i) q) - 7).

(** The 14 edge positions as the specification lists them: the first
    row, columns 1 to 7, then the first column, rows 1 to 7; in raster
    order ([row * 8 + col]) and as index into a table in zigzag order
    (the order of a DQT segment and of the constructor's argument). *)
Definition spec_edgeRaster (i : Z) : Z :=
  if i <? 7 then i + 1 else 8 * (i - 6).

Definition spec_edgeZigzag : list Z :=
  [1; 5; 6; 14; 15; 27; 28; 2; 3; 9; 10; 20; 21; 35].

End QuantizationTables.

(** ** The decoder's output stage *)

Module Decoder.

(** [limitedWriter] over a [bytes.Buffer]: [inner] is what the buffer
    has received. *)
Record limitedWriter : Type := mkLimitedWriter {
  inner : list Z;
  remaining : Z;
  written : Z
}.

(** [Write]: returns the reported count and the state; the inner
    [bytes.Buffer] takes every byte it is given without error. *)
Definition Write (w : limitedWriter) (p : list Z) : Z * limitedWriter :=
  if remaining w <=? 0 then (Z.of_nat (length p), w) else
  let toWrite :=
    if remaining w <? Z.of_nat (length p)
    then take (Z.to_nat (remaining w)) p else p in
  let n := Z.of_nat (length toWrite) in
  (Z.of_nat (length p),
   mkLimitedWriter (inner w ++ toWrite) (remaining w - n) (written w + n)).

Definition SOI : list Z := [0xFF; 0xD8].

(** The writes [WriteJpeg] issues, in order: the prefix garbage when
    there is some, the SOI marker, then the writes of
    [writeBaselineJpeg] or [writeProgressiveJpeg], here [body]. *)
Definition WriteJpeg_writes (prefixGarbage : list Z) (body : list (list Z))
  : list (list Z) :=
  (if 0 <? Z.of_nat (length prefixGarbage) then [prefixGarbage] else [])
  ++ [SOI] ++ body.

Definition writeAll (w : limitedWriter) (chunks : list (list Z))
  : limitedWriter :=
  fold_left (fun w p => snd (Write w p)) chunks w.

(** Tail of [DecodeLepton]: the output wrapped in a [limitedWriter] with
    [remaining = OriginalFileSize], then [WriteJpeg]. *)
Definition DecodeLepton_output (OriginalFileSize : Z)
    (prefixGarbage : list Z) (body : list (list Z)) : limitedWriter :=
  writeAll (mkLimitedWriter [] OriginalFileSize 0)
           (WriteJpeg_writes prefixGarbage body).

End Decoder.


(** ** model.go: length / sign / residual-bits coding of a coefficient *)

Module CoefCoding.
Import Branch.

Definition MaxExponent : Z := 11.

(** Conversion to [int16]. *)
Definition s16 (x : Z) : Z := (x + 2 ^ 15) mod 2 ^ 16 - 2 ^ 15.

Definition abs16 (x : Z) : Z := if x <? 0 then u16 (s16 (- x)) else u16 x.

Inductive CoefError : Type :=
| ExitCodeCoefficientOutOfRange.

(** The three branch groups a coefficient is coded with. *)
Record CoefBranches : Type := mkCoefBranches {
  magnitudeBranches : list Branch;
  signBranch : Branch;
  bitsBranch : list Branch
}.

Definition readLengthSignCoef (r : VPXBoolReader.VPXBoolReader)
    (bs : CoefBranches)
  : result VPXError (Z * CoefBranches * VPXBoolReader.VPXBoolReader) :=
  '(length, mag, r) ← VPXBoolReader.GetUnaryEncoded r (magnitudeBranches bs);
  if negb (length =? 0) then
    '(neg, sign, r) ← VPXBoolReader.GetBit r (signBranch bs);
    let neg := negb neg in
    '(coef, bits, r) ←
      (if 1 <? length
       then '(v, bits, r) ← VPXBoolReader.GetNBits r (length - 1) (bitsBranch bs);
            Ok (s16 v, bits, r)
       else Ok (0, bitsBranch bs, r));
    let coef := Z.lor coef (s16 (Z.shiftl 1 (length - 1))) in
    let coef := if neg then s16 (- coef) else coef in
    Ok (coef, mkCoefBranches mag sign bits, r)
  else Ok (0, mkCoefBranches mag (signBranch bs) (bitsBranch bs), r).

Definition writeLengthSignCoef (w : VPXBoolWriter.VPXBoolWriter) (coef : Z)
    (bs : CoefBranches)
  : result CoefError (CoefBranches * VPXBoolWriter.VPXBoolWriter) :=
  let absCoef := abs16 coef in
  let coefBitLen := u16BitLength absCoef in
  if Z.of_nat (length (magnitudeBranches bs)) <? coefBitLen
  then Error ExitCodeCoefficientOutOfRange else
  '(mag, w) ← VPXBoolWriter.PutUnaryEncoded w coefBitLen (magnitudeBranches bs);
  '(sign, w) ←
    (if negb (coef =? 0)
     then VPXBoolWriter.PutBit w (0 <? coef) (signBranch bs)
     else Ok (signBranch bs, w));
  '(bits, w) ←
    (if 1 <? coefBitLen
     then VPXBoolWriter.PutNBits w absCoef (coefBitLen - 1) (bitsBranch bs)
     else Ok (bitsBranch bs, w));
  Ok (mkCoefBranches mag sign bits, w).

(** The branch groups of a fresh [Counts7x7] entry with the shared sign
    cell: 11 exponent cells, [coefBits = 10] residual cells. *)
Definition freshCoefBranches : CoefBranches :=
  mkCoefBranches (replicate 11 NewBranch) NewBranch (replicate 10 NewBranch).

End CoefCoding.


(** ** AlignedBlock: 64 coefficients in transposed order *)

Module AlignedBlock.

(** [type AlignedBlock struct { RawData [64]int16 }] *)
Definition AlignedBlock := list Z.

Definition NewAlignedBlock : AlignedBlock := replicate 64 0.

Definition GetDC (b : AlignedBlock) : Z := at_ b 0.

Definition GetCoefficient (b : AlignedBlock) (i : Z) : Z := at_ b i.

Definition SetCoefficient (b : AlignedBlock) (i value : Z) : AlignedBlock :=
  <[Z.to_nat i := value]> b.

Definition GetTransposedFromZigzag (b : AlignedBlock) (i : Z) : Z :=
  at_ b (at_ ZigzagToTransposed i).

Definition SetTransposedFromZigzag (b : AlignedBlock) (i value : Z)
  : AlignedBlock :=
  <[Z.to_nat (at_ ZigzagToTransposed i) := value]> b.

Definition ZigzagToTransposedBlock (a : list Z) : AlignedBlock :=
  map (at_ a)
    [0; 2; 3; 9; 10; 20; 21; 35;
     1; 4; 8; 11; 19; 22; 34; 36;
     5; 7; 12; 18; 23; 33; 37; 48;
     6; 13; 17; 24; 32; 38; 47; 49;
     14; 16; 25; 31; 39; 46; 50; 57;
     15; 26; 30; 40; 45; 51; 56; 58;
     27; 29; 41; 44; 52; 55; 59; 62;
     28; 42; 43; 53; 54; 60; 61; 63].

Definition ZigzagFromTransposed (b : AlignedBlock) : AlignedBlock :=
  map (at_ b)
    [0; 8; 1; 2; 9; 16; 24; 17;
     10; 3; 4; 11; 18; 25; 32; 40;
     33; 26; 19; 12; 5; 6; 13; 20;
     27; 34; 41; 48; 56; 49; 42; 35;
     28; 21; 14; 7; 15; 22; 29; 36;
     43; 50; 57; 58; 51; 44; 37; 30;
     23; 31; 38; 45; 52; 59; 60; 53;
     46; 39; 47; 54; 61; 62; 55; 63].

(** jpeg_read.go, [zigzagToTransposed]: the same conversion as a loop
    over the [ZigzagToTransposed] table. *)
Definition zigzagToTransposed (block : list Z) : AlignedBlock :=
  fold_left
    (fun r i => <[Z.to_nat (at_ ZigzagToTransposed (Z.of_nat i)) :=
                    at_ block (Z.of_nat i)]> r)
    (seq 0 64) (replicate 64 0).

(** The two nested loops of [Transpose] and [GetCountOfNonZeros7x7]. *)
Definition Transpose (b : AlignedBlock) : AlignedBlock :=
  fold_left
    (fun r row =>
       fold_left
         (fun r col => <[(col * 8 + row)%nat :=
                           at_ b (Z.of_nat (row * 8 + col))]> r)
         (seq 0 8) r)
    (seq 0 8) (replicate 64 0).

Definition GetCountOfNonZeros7x7 (b : AlignedBlock) : Z :=
  fold_left
    (fun count row =>
       fold_left
         (fun count col =>
            if negb (at_ b (Z.of_nat (row * 8 + col)) =? 0)
            then u8 (count + 1) else count)
         (seq 1 7) count)
    (seq 1 7) 0.

End AlignedBlock.

(** ** Huffman-level syntax of coefficients and EOB runs *)

Module JpegSyntax.
Import CoefCoding.

(** jpeg_read.go, [decodeVLI]. *)
Definition decodeVLI (size bits : Z) : Z :=
  if size =? 0 then 0
  else if bits <? shl16 1 (u8 (size - 1))
       then s16 (s16 bits - s16 (s16 (Z.shiftl 1 size) - 1))
       else s16 bits.

(** jpeg_read.go, [decodeEobrunBits]. *)
Definition decodeEobrunBits (s n : Z) : Z := u16 (n + shl16 1 s).

(** Conversion to [int32]. *)
Definition s32 (x : Z) : Z := (x + 2 ^ 31) mod 2 ^ 32 - 2 ^ 31.

(** [divPow2] of the JPEG writer. *)
Definition divPow2 (v p : Z) : Z :=
  if p =? 0 then v else
  let val := v in
  let val :=
    if val <? 0 then s32 (val + s32 (s32 (Z.shiftl 1 p) - 1)) else val in
  s16 (Z.shiftr val p).

(** The loop [for temp > 0 { category++; temp >>= 1 }] of [writeCoef],
    on an [int16] with a [uint8] counter. *)
Fixpoint category_loop (fuel : nat) (temp category : Z) : Z :=
  match fuel with
  | O => category
  | S fuel =>
      if 0 <? temp
      then category_loop fuel (Z.shiftr temp 1) (u8 (category + 1))
      else category
  end.

Definition coefCategory (coef : Z) : Z :=
  let absCoef := if coef <? 0 then s16 (- coef) else coef in
  category_loop 16 absCoef 0.

Definition coefAdditionalBits (coef category : Z) : Z :=
  if 0 <=? coef then u32 coef
  else Z.land (u32 (s16 (coef - 1))) (u32 (shl32 1 category - 1)).

Definition writeCoef (w : BitWriter.BitWriter)
    (table : Huffman.HuffmanEncodeTable) (coef zeroRunLength : Z)
  : BitWriter.BitWriter :=
  let category := coefCategory coef in
  let symbol := Z.lor (u8 (Z.shiftl zeroRunLength 4)) category in
  let w := BitWriter.Write w (at_ (Huffman.codes table) symbol)
                             (at_ (Huffman.lengths table) symbol) in
  if 0 <? category
  then BitWriter.Write w (coefAdditionalBits coef category) category
  else w.

(** [encodeEOBRun], with the AC table of the component passed in. *)
Definition eobCategory (eobRun : Z) : Z := bitLength_loop 64 eobRun 0 - 1.

Definition encodeEOBRun (w : BitWriter.BitWriter)
    (acTable : Huffman.HuffmanEncodeTable) (eobRun : Z)
  : BitWriter.BitWriter :=
  if eobRun =? 0 then w else
  let category := eobCategory eobRun in
  let symbol := u8 (Z.shiftl category 4) in
  let w := BitWriter.Write w (at_ (Huffman.codes acTable) symbol)
                             (at_ (Huffman.lengths acTable) symbol) in
  if 0 <? category
  then BitWriter.Write w (u32 (eobRun - Z.shiftl 1 category)) (u32 category)
  else w.

End JpegSyntax.


(** ** The multiplexer: framing of the coded segment *)

Module Multiplex.

(** [multiplexSingleThread]: [rest] is [data[pos:]], [out] the buffer
    written so far.  Every iteration takes at least one byte, so
    [length data] units of fuel are enough; [None] only if they ran
    out. *)
Fixpoint multiplex_loop (fuel : nat) (rest out : list Z) : option (list Z) :=
  match rest with
  | [] => Some out
  | _ :: _ =>
      match fuel with
      | O => None
      | S fuel =>
          let blockSize := Z.min (Z.of_nat (length rest)) 65536 in
          let lenMinus1 := u16 (blockSize - 1) in
          let out := out ++ [0] in
          let out := out ++ [u8 (Z.land lenMinus1 0xff)] in
          let out := out ++ [u8 (Z.shiftr lenMinus1 8)] in
          let out := out ++ take (Z.to_nat blockSize) rest in
          multiplex_loop fuel (drop (Z.to_nat blockSize) rest) out
      end
  end.

Definition multiplexSingleThread (data : list Z) : option (list Z) :=
  multiplex_loop (length data) data [].

(** [demultiplexer]: the data of every partition. *)
Definition demultiplexer := list (list Z).

(** The tail of one iteration of [newDemultiplexer]: clip the block to
    what is left, append it to its partition when that exists, and move
    on.  [rest] is [data[pos:]]. *)
Definition takeBlock (numPartitions partitionID blockLen : Z)
    (rest : list Z) (parts : demultiplexer) : list Z * demultiplexer :=
  let blockLen :=
    if Z.of_nat (length rest) <? blockLen then Z.of_nat (length rest)
    else blockLen in
  let parts :=
    if partitionID <? numPartitions
    then alter (fun p => p ++ take (Z.to_nat blockLen) rest)
               (Z.to_nat partitionID) parts
    else parts in
  (drop (Z.to_nat blockLen) rest, parts).

Fixpoint demultiplex_loop (fuel : nat) (numPartitions : Z) (rest : list Z)
    (parts : demultiplexer) : option demultiplexer :=
  match rest with
  | [] => Some parts
  | header :: rest1 =>
      match fuel with
      | O => None
      | S fuel =>
          let partitionID := Z.land header 0x0f in
          if header <? 16 then
            match rest1 with
            | b0 :: b1 :: rest2 =>
                let blockLen := Z.shiftl b1 8 + b0 + 1 in
                let '(rest', parts) :=
                  takeBlock numPartitions partitionID blockLen rest2 parts in
                demultiplex_loop fuel numPartitions rest' parts
            | _ => Some parts
            end
          else
            let flags := Z.land (Z.shiftr header 4) 3 in
            let blockLen := Z.shiftl 1024 (2 * flags) in
            let '(rest', parts) :=
              takeBlock numPartitions partitionID blockLen rest1 parts in
            demultiplex_loop fuel numPartitions rest' parts
      end
  end.

Definition newDemultiplexer (data : list Z) (numPartitions : Z)
  : option demultiplexer :=
  demultiplex_loop (length data) numPartitions data
    (replicate (Z.to_nat numPartitions) []).

Definition getPartitionData (d : demultiplexer) (partitionID : Z) : list Z :=
  if partitionID <? Z.of_nat (length d)
  then match d !! Z.to_nat partitionID with
       | Some p => p
       | None => []
       end
  else [].

End Multiplex.

(** ** block_based_image.go: the block store of a component *)

Module BlockBasedImage.
Import AlignedBlock.

Record BlockBasedImage : Type := mkImage {
  blocks : list AlignedBlock;
  blockWidth : Z;
  originalHeight : Z;
  dposOffset : list Z
}.

(** [var emptyBlock = AlignedBlock{}]. *)
Definition emptyBlock : AlignedBlock := replicate 64 0.

Definition setBlocks (img : BlockBasedImage) (bs : list AlignedBlock)
  : BlockBasedImage :=
  mkImage bs (blockWidth img) (originalHeight img) (dposOffset img).

(** [uint32(len(img.blocks))]. *)
Definition len32 (bs : list AlignedBlock) : Z := u32 (Z.of_nat (length bs)).

Definition GetBlock (img : BlockBasedImage) (dpos : Z) : AlignedBlock :=
  if len32 (blocks img) <=? dpos then emptyBlock
  else nth (Z.to_nat dpos) (blocks img) emptyBlock.

(** The loop [for uint32(len(img.blocks)) <= dpos { append }]; [None]
    when the fuel runs out. *)
Fixpoint extend_loop (fuel : nat) (bs : list AlignedBlock) (dpos : Z)
  : option (list AlignedBlock) :=
  if len32 bs <=? dpos then
    match fuel with
    | O => None
    | S fuel => extend_loop fuel (bs ++ [emptyBlock]) dpos
    end
  else Some bs.

Definition EnsureBlock (img : BlockBasedImage) (dpos : Z)
  : option (AlignedBlock * BlockBasedImage) :=
  match extend_loop (Z.to_nat (dpos + 1)) (blocks img) dpos with
  | Some bs => Some (nth (Z.to_nat dpos) bs emptyBlock, setBlocks img bs)
  | None => None
  end.

Definition SetBlockByDpos (img : BlockBasedImage) (dpos : Z)
    (block : AlignedBlock) : option BlockBasedImage :=
  match extend_loop (Z.to_nat (dpos + 1)) (blocks img) dpos with
  | Some bs => Some (setBlocks img (<[Z.to_nat dpos := block]> bs))
  | None => None
  end.

Definition GetNumBlocks (img : BlockBasedImage) : Z :=
  Z.of_nat (length (blocks img)).

End BlockBasedImage.

(** ** Thread handoffs in the Lepton header *)

Module ThreadHandoffs.
Import CoefCoding.

Record ThreadHandoff : Type := mkThreadHandoff {
  LumaYStart : Z;
  LumaYEnd : Z;
  SegmentSize : Z;
  OverhangByte : Z;
  NumOverhangBits : Z;
  LastDC : list Z
}.

Inductive HeaderError : Type :=
| ExitCodeBadLeptonFile.

(** [binary.Write(w, binary.LittleEndian, v)] for a [uint16] and a
    [uint32]. *)
Definition putUint16 (v : Z) : list Z := [u8 v; u8 (Z.shiftr v 8)].

Definition putUint32 (v : Z) : list Z :=
  [u8 v; u8 (Z.shiftr v 8); u8 (Z.shiftr v 16); u8 (Z.shiftr v 24)].

(** [binary.LittleEndian.Uint16(data[pos:])] and [Uint32]; a slice that
    is too short is a panic. *)
Definition Uint16 (data : list Z) (pos : Z) : result HeaderError Z :=
  b0 ← index data pos;
  b1 ← index data (pos + 1);
  Ok (Z.lor b0 (Z.shiftl b1 8)).

Definition Uint32 (data : list Z) (pos : Z) : result HeaderError Z :=
  b0 ← index data pos;
  b1 ← index data (pos + 1);
  b2 ← index data (pos + 2);
  b3 ← index data (pos + 3);
  Ok (Z.lor (Z.lor (Z.lor b0 (Z.shiftl b1 8)) (Z.shiftl b2 16))
            (Z.shiftl b3 24)).

(** The bytes [writeLeptonHeader] emits for one handoff; an [int16] is
    written as its [uint16] bit pattern. *)
Definition writeHandoff (h : ThreadHandoff) : list Z :=
  putUint16 (u16 (LumaYStart h))
  ++ putUint32 (SegmentSize h)
  ++ [OverhangByte h]
  ++ [NumOverhangBits h]
  ++ flat_map (fun i => putUint16 (u16 (at_ (LastDC h) i))) [0; 1; 2; 3].

Definition writeHandoffs (handoffs : list ThreadHandoff) : list Z :=
  flat_map writeHandoff handoffs.

(** First loop of [parseThreadHandoffs]: one handoff per iteration,
    [LumaYEnd] still zero. *)
Fixpoint parse_loop (n : nat) (data : list Z) (pos : Z)
  : result HeaderError (list ThreadHandoff * Z) :=
  match n with
  | O => Ok ([], pos)
  | S n =>
      lumaYStart ← Uint16 data pos;
      let pos := pos + 2 in
      segmentSize ← Uint32 data pos;
      let pos := pos + 4 in
      overhangByte ← index data pos;
      let pos := pos + 1 in
      numOverhangBits ← index data pos;
      let pos := pos + 1 in
      d0 ← Uint16 data pos;
      d1 ← Uint16 data (pos + 2);
      d2 ← Uint16 data (pos + 4);
      d3 ← Uint16 data (pos + 6);
      let pos := pos + 8 in
      '(rest, pos) ← parse_loop n data pos;
      Ok (mkThreadHandoff lumaYStart 0 segmentSize overhangByte
            numOverhangBits [s16 d0; s16 d1; s16 d2; s16 d3] :: rest, pos)
  end.

(** Second loop: [handoffs[i-1].LumaYEnd = handoffs[i].LumaYStart]. *)
Fixpoint setLumaYEnds (handoffs : list ThreadHandoff) : list ThreadHandoff :=
  match handoffs with
  | h :: (next :: _) as rest =>
      mkThreadHandoff (LumaYStart h) (LumaYStart next) (SegmentSize h)
        (OverhangByte h) (NumOverhangBits h) (LastDC h)
      :: setLumaYEnds rest
  | other => other
  end.

(** [make([]ThreadHandoff, numThreads)] panics on a negative length. *)
Definition parseThreadHandoffs (data : list Z) (numThreads : Z)
  : result HeaderError (list ThreadHandoff * Z) :=
  if Z.of_nat (length data) <? numThreads * 16
  then Error ExitCodeBadLeptonFile
  else if numThreads <? 0 then Panic
  else
    '(handoffs, pos) ← parse_loop (Z.to_nat numThreads) data 0;
    Ok (setLumaYEnds handoffs, pos).

End ThreadHandoffs.


(** ** Huffman decoding: the derived tables and [nextHuffCode] *)

Module HuffmanDecode.
Import Huffman BitReader CoefCoding JpegSyntax.

(** The derived fields of [HuffmanTable]: [FastLookup] has 256 entries,
    [MaxCode] 18, [ValPtr] and [MinCode] 17. *)
Record DerivedTable : Type := mkDerivedTable {
  FastLookup : list Z;
  MaxCode : list Z;
  ValPtr : list Z;
  MinCode : list Z
}.

(** An array write [a[i] = v]; out of range is a run-time panic. *)
Definition store (a : list Z) (i v : Z) : result LeptonError (list Z) :=
  if (0 <=? i) && (i <? Z.of_nat (length a))
  then Ok (<[Z.to_nat i := v]> a)
  else Panic.

(** Innermost loop of the fast table: [numEntries - k <= j < numEntries]. *)
Fixpoint fast_entries (k : nat) (j baseIdx v : Z) (fast : list Z)
  : result LeptonError (list Z) :=
  match k with
  | O => Ok fast
  | S k =>
      fast ← store fast (baseIdx + j) v;
      fast_entries k (j + 1) baseIdx v fast
  end.

(** The codes of one length in the fast table. *)
Fixpoint fast_codes (n : nat) (bits : Z) (symbols : list Z)
    (st : list Z * Z * Z) : result LeptonError (list Z * Z * Z) :=
  match n with
  | O => Ok st
  | S n =>
      let '(fast, code, symbolIdx) := st in
      let shift := 8 - bits in
      let baseIdx := Z.shiftl code shift in
      let numEntries := Z.shiftl 1 shift in
      symbol ← index symbols symbolIdx;
      let v := Z.lor (s16 symbol) (s16 (Z.shiftl bits 8)) in
      fast ← fast_entries (Z.to_nat numEntries) 0 baseIdx v fast;
      fast_codes n bits symbols (fast, code + 1, symbolIdx + 1)
  end.

(** The lengths 1..8 of the fast table, [bits] from [9 - k] to 8. *)
Fixpoint fast_lengths (k : nat) (bits : Z) (t : HuffmanTable)
    (st : list Z * Z * Z) : result LeptonError (list Z * Z * Z) :=
  match k with
  | O => Ok st
  | S k =>
      n ← index (NumCodes t) bits;
      '(fast, code, symbolIdx) ←
        fast_codes (Z.to_nat n) bits (Symbols t) st;
      fast_lengths k (bits + 1) t (fast, Z.shiftl code 1, symbolIdx)
  end.

(** The loop over the lengths 1..16 that fills [MinCode], [ValPtr] and
    [MaxCode], [bits] from [17 - k] to 16.  The state is the three
    arrays, [code] and [symbolIdx]. *)
Fixpoint code_ranges (k : nat) (bits : Z) (t : HuffmanTable)
    (st : list Z * list Z * list Z * Z * Z)
  : list Z * list Z * list Z * Z * Z :=
  match k with
  | O => st
  | S k =>
      let '(minCode, valPtr, maxCode, code, symbolIdx) := st in
      let n := at_ (NumCodes t) bits in
      let minCode := <[Z.to_nat bits := s32 code]> minCode in
      let valPtr := <[Z.to_nat bits := s32 (s32 symbolIdx - s32 code)]> valPtr in
      let '(maxCode, symbolIdx) :=
        if 0 <? n
        then (<[Z.to_nat bits := s32 (s32 (s32 code + s32 n) - 1)]> maxCode,
              symbolIdx + n)
        else (<[Z.to_nat bits := - 1]> maxCode, symbolIdx) in
      code_ranges k (bits + 1) t
        (minCode, valPtr, maxCode, Z.shiftl (code + n) 1, symbolIdx)
  end.

(** [BuildDerivedTable]; the result's first component is [SymbolCount]. *)
Definition BuildDerivedTable (t : HuffmanTable)
  : result LeptonError (Z * DerivedTable) :=
  let symbolCount :=
    fold_left (fun acc i => acc + at_ (NumCodes t) (Z.of_nat i)) (seq 1 16) 0 in
  '(fast, _, _) ← fast_lengths 8 1 t (replicate 256 (- 1), 0, 0);
  let '(minCode, valPtr, maxCode, _, _) :=
    code_ranges 16 1 t (replicate 17 0, replicate 17 0, replicate 18 0, 0, 0) in
  let maxCode := <[17%nat := 0x7FFFFFFF]> maxCode in
  Ok (symbolCount, mkDerivedTable fast maxCode valPtr minCode).

(** The bit-by-bit path of [nextHuffCode], [bits] from [17 - k] to 16. *)
Fixpoint slow_path (k : nat) (bits code : Z) (r : BitReader)
    (t : HuffmanTable) (d : DerivedTable)
  : option (result LeptonError (Z * BitReader)) :=
  match k with
  | O => Some (Error ExitCodeUnsupportedJpeg)
  | S k =>
      match Read r 1 with
      | None => None
      | Some (Error e) => Some (Error e)
      | Some Panic => Some Panic
      | Some (Ok (bit, r)) =>
          let code := Z.lor (Z.shiftl code 1) bit in
          if code <=? at_ (MaxCode d) bits then
            let idx := s32 (at_ (ValPtr d) bits + s32 code) in
            match index (E:=LeptonError) (Symbols t) idx with
            | Ok symbol => Some (Ok (symbol, r))
            | Error e => Some (Error e)
            | Panic => Some Panic
            end
          else slow_path k (bits + 1) code r t d
      end
  end.

Definition nextHuffCode (r : BitReader) (t : HuffmanTable) (d : DerivedTable)
  : option (result LeptonError (Z * BitReader)) :=
  let '(peek, peekLen) := Peek r in
  let lookup := at_ (FastLookup d) peek in
  if (8 <=? peekLen) && (0 <=? lookup) then
    let codeLen := u32 (Z.shiftr lookup 8) in
    Some (Ok (u8 (Z.land lookup 0xFF), Advance r codeLen))
  else slow_path 16 1 0 r t d.

End HuffmanDecode.

(** ** The decoder's entry point: Lepton header, JPEG header, output *)

(** How a run of the decoder ends when it does not deliver a result. *)
Module DecodeRun.

Inductive DecodeError : Type :=
| FailedToRead
| FailedToDecompress
| BadLeptonFile
| VersionUnsupported.

(** [GoError e]: the Go function returns the error [e].  [NotModelled]:
    the run takes a path this model does not cover (a JPEG header with
    frame, table, restart-interval or scan segments, the scan decoder,
    the scan writers for blocks, the progressive writer), or a loop of
    the model has used up its fuel.  A panic at run time is [Panic]. *)
Inductive Stop : Type :=
| GoError (e : DecodeError)
| NotModelled.

Definition fail {A : Type} (e : DecodeError) : result Stop A :=
  Error (GoError e).

Definition notModelled {A : Type} : result Stop A := Error NotModelled.

(** An error of the thread handoff parser, as the decoder passes it on. *)
Definition liftHeader {A : Type}
    (r : result ThreadHandoffs.HeaderError A) : result Stop A :=
  match r with
  | Ok a => Ok a
  | Error ThreadHandoffs.ExitCodeBadLeptonFile => fail BadLeptonFile
  | Panic => Panic
  end.

Definition len {A : Type} (data : list A) : Z := Z.of_nat (length data).

(** The slice [data[from:to]] for [0 <= from <= to <= len(data)]. *)
Definition slice (data : list Z) (from to : Z) : list Z :=
  take (Z.to_nat (to - from)) (drop (Z.to_nat from) data).

End DecodeRun.

(** model.go, [ParseJpegHeader], for headers in which no segment has to
    be interpreted. *)
Module JpegHeaderParse.
Import DecodeRun.

(** [JpegHeader]: the fields the code modelled below reads.  [Bcv0] is
    [CmpInfo[0].Bcv]. *)
Record JpegHeader : Type := mkJpegHeader {
  Cmpc : Z;
  Mcuh : Z;
  Mcuv : Z;
  RestartInterval : Z;
  ScanComponentOrder : list Z;
  Bcv0 : Z
}.

(** [NewJpegHeader]: zero values, and [NewComponentInfo] for every
    component. *)
Definition NewJpegHeader : JpegHeader :=
  mkJpegHeader 0 0 0 0 [] 0xffffffff.

Definition MarkerSOI : Z := 0xD8.
Definition MarkerSOS : Z := 0xDA.
Definition MarkerDQT : Z := 0xDB.
Definition MarkerDHT : Z := 0xC4.
Definition MarkerDRI : Z := 0xDD.
Definition MarkerSOF0 : Z := 0xC0.
Definition MarkerSOF1 : Z := 0xC1.
Definition MarkerSOF2 : Z := 0xC2.
Definition MarkerRST0 : Z := 0xD0.

(** The segments [ParseJpegHeader] interprets; a header that contains
    one is outside this model. *)
Definition interpreted (marker : Z) : bool :=
  (marker =? MarkerSOF0) || (marker =? MarkerSOF1) || (marker =? MarkerSOF2)
  || (marker =? MarkerDQT) || (marker =? MarkerDHT) || (marker =? MarkerDRI)
  || (marker =? MarkerSOS).

(** [binary.BigEndian.Uint16(data[pos:])], for [pos + 2 <= len(data)]. *)
Definition BigEndianUint16 (data : list Z) (pos : Z) : Z :=
  Z.lor (Z.shiftl (at_ data pos) 8) (at_ data (pos + 1)).

(** The marker loop; it returns the final [pos].  Every iteration
    moves [pos] forward, so [len(data)] units of fuel are enough. *)
Fixpoint ParseJpegHeader_loop (fuel : nat) (data : list Z) (pos : Z)
  : result Stop Z :=
  if pos <? len data then
    match fuel with
    | O => notModelled
    | S fuel =>
        if negb (at_ data pos =? 0xFF) then
          ParseJpegHeader_loop fuel data (pos + 1)
        else if len data <=? pos + 1 then Ok pos
        else
          let marker := at_ data (pos + 1) in
          let pos := pos + 2 in
          if marker =? MarkerSOI then ParseJpegHeader_loop fuel data pos
          else if interpreted marker then notModelled
          else if pos + 2 <=? len data then
            let length := BigEndianUint16 data pos in
            ParseJpegHeader_loop fuel data (pos + length)
          else ParseJpegHeader_loop fuel data pos
    end
  else Ok pos.

(** [ParseJpegHeader]: the header (still [NewJpegHeader], as nothing
    was interpreted) and the position reached. *)
Definition ParseJpegHeader (data : list Z)
  : result Stop (JpegHeader * Z) :=
  pos ← ParseJpegHeader_loop (length data) data 0;
  Ok (NewJpegHeader, pos).

End JpegHeaderParse.

(** model.go, [ReadLeptonHeader] and [parseDecompressedHeader]. *)
Module LeptonHeaderParse.
Import DecodeRun ThreadHandoffs.

Inductive JpegType : Type :=
| JpegTypeUnknown
| JpegTypeSequential
| JpegTypeProgressive.

(** [ReconstructionInfo]; [PadBit] is a pointer in Go, [None] is nil.
    [TruncatedEOI] is never set by the code modelled here and left
    out. *)
Record ReconstructionInfo : Type := mkReconstructionInfo {
  PadBit : option Z;
  RestartCount : Z;
  RestartCounts : list Z;
  RestartCountsSet : bool;
  RestartErrors : list Z;
  GarbageData : list Z;
  PrefixGarbage : list Z;
  EarlyEofEncountered : bool;
  MaxCmp : Z;
  MaxBpos : Z;
  MaxSah : Z;
  MaxDpos : list Z
}.

Record LeptonHeader : Type := mkLeptonHeader {
  Version : Z;
  JpegType_ : JpegType;
  ThreadCount : Z;
  GitRevision : Z;
  EncoderVersion : Z;
  Use16BitDCEstimate : bool;
  Use16BitAdvPredict : bool;
  OriginalFileSize : Z;
  RawJpegHeader : list Z;
  RawJpegHeaderReadIndex : Z;
  JpegHeader : option JpegHeaderParse.JpegHeader;
  Handoffs : list ThreadHandoff;
  RecoveryInfo : ReconstructionInfo
}.

(** [NewLeptonHeader]. *)
Definition NewLeptonHeader : LeptonHeader :=
  mkLeptonHeader 0 JpegTypeUnknown 0 0 0 true true 0 [] 0 None []
    (mkReconstructionInfo None 0 [] false [] [] [] false 0 0 0 [0; 0; 0; 0]).

Definition EOI : list Z := [0xFF; 0xD9].

(** The section markers, as bytes: [HDR], [P0D], [CRS], [FRS], [HH],
    [EEE], [PGR], [GRB]; and the completion marker [CMP]. *)
Definition LeptonHeaderMarker : list Z := [0x48; 0x44; 0x52].
Definition LeptonHeaderPadMarker : list Z := [0x50; 0x30; 0x44].
Definition LeptonHeaderJpgRestartsMarker : list Z := [0x43; 0x52; 0x53].
Definition LeptonHeaderJpgRestartErrorsMarker : list Z := [0x46; 0x52; 0x53].
Definition LeptonHeaderLumaSplitMarker : list Z := [0x48; 0x48].
Definition LeptonHeaderEarlyEofMarker : list Z := [0x45; 0x45; 0x45].
Definition LeptonHeaderPrefixGarbageMarker : list Z := [0x50; 0x47; 0x52].
Definition LeptonHeaderGarbageMarker : list Z := [0x47; 0x52; 0x42].
Definition LeptonHeaderCompletionMarker : list Z := [0x43; 0x4D; 0x50].

(** [bytes.Equal] on byte slices. *)
Fixpoint bytesEqual (a b : list Z) : bool :=
  match a, b with
  | [], [] => true
  | x :: a, y :: b => (x =? y) && bytesEqual a b
  | _, _ => false
  end.

Definition setRecoveryInfo (h : LeptonHeader) (ri : ReconstructionInfo)
  : LeptonHeader :=
  mkLeptonHeader (Version h) (JpegType_ h) (ThreadCount h) (GitRevision h)
    (EncoderVersion h) (Use16BitDCEstimate h) (Use16BitAdvPredict h)
    (OriginalFileSize h) (RawJpegHeader h) (RawJpegHeaderReadIndex h)
    (JpegHeader h) (Handoffs h) ri.

Definition setHandoffs (h : LeptonHeader) (hs : list ThreadHandoff)
  : LeptonHeader :=
  mkLeptonHeader (Version h) (JpegType_ h) (ThreadCount h) (GitRevision h)
    (EncoderVersion h) (Use16BitDCEstimate h) (Use16BitAdvPredict h)
    (OriginalFileSize h) (RawJpegHeader h) (RawJpegHeaderReadIndex h)
    (JpegHeader h) hs (RecoveryInfo h).

Definition setJpegHeader (h : LeptonHeader) (raw : list Z) (readIndex : Z)
    (jh : JpegHeaderParse.JpegHeader) : LeptonHeader :=
  mkLeptonHeader (Version h) (JpegType_ h) (ThreadCount h) (GitRevision h)
    (EncoderVersion h) (Use16BitDCEstimate h) (Use16BitAdvPredict h)
    (OriginalFileSize h) raw readIndex (Some jh) (Handoffs h)
    (RecoveryInfo h).

(** A section made of a [uint32] size and that many bytes (GRB, PGR,
    and the data of HDR): the bytes and the position behind them. *)
Definition sizedSection (data : list Z) (pos : Z)
  : result Stop (list Z * Z) :=
  if len data <? pos + 4 then fail BadLeptonFile else
  size ← liftHeader (Uint32 data pos);
  let pos := pos + 4 in
  if len data <? pos + size then fail BadLeptonFile else
  Ok (slice data pos (pos + size), pos + size).

(** The loop of the CRS section: [n] values are still to be read. *)
Fixpoint readRestartCounts (n : nat) (data : list Z) (pos : Z)
  : result Stop (list Z * Z) :=
  match n with
  | O => Ok ([], pos)
  | S n =>
      if len data <? pos + 4 then fail BadLeptonFile else
      v ← liftHeader (Uint32 data pos);
      '(rest, pos) ← readRestartCounts n data (pos + 4);
      Ok (v :: rest, pos)
  end.

(** The section loop of [parseDecompressedHeader].  Every iteration
    moves [pos] forward by three bytes or more, so [len(data)] units of
    fuel are enough. *)
Fixpoint parseSections (fuel : nat) (data : list Z) (pos : Z)
    (h : LeptonHeader) : result Stop LeptonHeader :=
  if negb (pos <? len data) then Ok h else
  if len data <? pos + 3 then Ok h else
  match fuel with
  | O => notModelled
  | S fuel =>
      let marker := slice data pos (pos + 3) in
      let pos := pos + 3 in
      let ri := RecoveryInfo h in
      if bytesEqual marker LeptonHeaderMarker then
        '(raw, pos) ← sizedSection data pos;
        '(jh, readIndex) ← JpegHeaderParse.ParseJpegHeader raw;
        parseSections fuel data pos (setJpegHeader h raw readIndex jh)
      else if bytesEqual (take 2 marker) LeptonHeaderLumaSplitMarker then
        let numThreads := at_ marker 2 in
        '(handoffs, n) ←
          liftHeader (parseThreadHandoffs (drop (Z.to_nat pos) data) numThreads);
        parseSections fuel data (pos + n)
          (setHandoffs h (Handoffs h ++ handoffs))
      else if bytesEqual marker LeptonHeaderPadMarker then
        if len data <=? pos then fail BadLeptonFile else
        let padBit := at_ data pos in
        parseSections fuel data (pos + 1)
          (setRecoveryInfo h
             (mkReconstructionInfo (Some padBit) (RestartCount ri)
                (RestartCounts ri) (RestartCountsSet ri) (RestartErrors ri)
                (GarbageData ri) (PrefixGarbage ri) (EarlyEofEncountered ri)
                (MaxCmp ri) (MaxBpos ri) (MaxSah ri) (MaxDpos ri)))
      else if bytesEqual marker LeptonHeaderGarbageMarker then
        '(garbage, pos) ← sizedSection data pos;
        parseSections fuel data pos
          (setRecoveryInfo h
             (mkReconstructionInfo (PadBit ri) (RestartCount ri)
                (RestartCounts ri) (RestartCountsSet ri) (RestartErrors ri)
                garbage (PrefixGarbage ri) (EarlyEofEncountered ri)
                (MaxCmp ri) (MaxBpos ri) (MaxSah ri) (MaxDpos ri)))
      else if bytesEqual marker LeptonHeaderPrefixGarbageMarker then
        '(garbage, pos) ← sizedSection data pos;
        parseSections fuel data pos
          (setRecoveryInfo h
             (mkReconstructionInfo (PadBit ri) (RestartCount ri)
                (RestartCounts ri) (RestartCountsSet ri) (RestartErrors ri)
                (GarbageData ri) garbage (EarlyEofEncountered ri)
                (MaxCmp ri) (MaxBpos ri) (MaxSah ri) (MaxDpos ri)))
      else if bytesEqual marker LeptonHeaderJpgRestartsMarker then
        if len data <? pos + 4 then fail BadLeptonFile else
        count ← liftHeader (Uint32 data pos);
        '(counts, pos) ← readRestartCounts (Z.to_nat count) data (pos + 4);
        parseSections fuel data pos
          (setRecoveryInfo h
             (mkReconstructionInfo (PadBit ri) count counts true
                (RestartErrors ri) (GarbageData ri) (PrefixGarbage ri)
                (EarlyEofEncountered ri)
                (MaxCmp ri) (MaxBpos ri) (MaxSah ri) (MaxDpos ri)))
      else if bytesEqual marker LeptonHeaderJpgRestartErrorsMarker then
        '(errors, pos) ← sizedSection data pos;
        parseSections fuel data pos
          (setRecoveryInfo h
             (mkReconstructionInfo (PadBit ri) (RestartCount ri)
                (RestartCounts ri) (RestartCountsSet ri) errors
                (GarbageData ri) (PrefixGarbage ri) (EarlyEofEncountered ri)
                (MaxCmp ri) (MaxBpos ri) (MaxSah ri) (MaxDpos ri)))
      else if bytesEqual marker LeptonHeaderEarlyEofMarker then
        if len data <? pos + 28 then fail BadLeptonFile else
        maxCmp ← liftHeader (Uint32 data pos);
        maxBpos ← liftHeader (Uint32 data (pos + 4));
        maxSah ← liftHeader (Uint32 data (pos + 8));
        d0 ← liftHeader (Uint32 data (pos + 12));
        d1 ← liftHeader (Uint32 data (pos + 16));
        d2 ← liftHeader (Uint32 data (pos + 20));
        d3 ← liftHeader (Uint32 data (pos + 24));
        parseSections fuel data (pos + 28)
          (setRecoveryInfo h
             (mkReconstructionInfo (PadBit ri) (RestartCount ri)
                (RestartCounts ri) (RestartCountsSet ri) (RestartErrors ri)
                (GarbageData ri) (PrefixGarbage ri) true
                maxCmp maxBpos (u8 maxSah) [d0; d1; d2; d3]))
      else fail BadLeptonFile
  end.

(** [parseDecompressedHeader]: the sections, then the default for the
    garbage data. *)
Definition parseDecompressedHeader (h : LeptonHeader) (data : list Z)
  : result Stop LeptonHeader :=
  h ← parseSections (length data) data 0 h;
  let ri := RecoveryInfo h in
  if len (GarbageData ri) =? 0 then
    Ok (setRecoveryInfo h
          (mkReconstructionInfo (PadBit ri) (RestartCount ri)
             (RestartCounts ri) (RestartCountsSet ri) (RestartErrors ri)
             EOI (PrefixGarbage ri) (EarlyEofEncountered ri)
             (MaxCmp ri) (MaxBpos ri) (MaxSah ri) (MaxDpos ri)))
  else Ok h.

(** The last handoff gets the block height of component 0 as its
    [LumaYEnd]. *)
Definition setLastLumaYEnd (hs : list ThreadHandoff) (maxLuma : Z)
  : list ThreadHandoff :=
  match reverse hs with
  | [] => hs
  | h :: before =>
      reverse before
      ++ [mkThreadHandoff (LumaYStart h) maxLuma (SegmentSize h)
            (OverhangByte h) (NumOverhangBits h) (LastDC h)]
  end.

(** [ReadLeptonHeader].  [input] is what the reader delivers, [inflate]
    stands for [zlib.NewReader] followed by [io.ReadAll] (Go's
    [compress/zlib], which is not part of the repository).  The result
    is the header and the input that is left. *)
Definition ReadLeptonHeader (inflate : list Z -> result Stop (list Z))
    (input : list Z) : result Stop (LeptonHeader * list Z) :=
  if len input <? 28 then fail FailedToRead else
  let fixedHeader := take 28 input in
  let input := drop 28 input in
  if negb (at_ fixedHeader 0 =? 0xcf) || negb (at_ fixedHeader 1 =? 0x84)
  then fail BadLeptonFile else
  let version := at_ fixedHeader 2 in
  if negb (version =? 1) then fail VersionUnsupported else
  jpegType ←
    (if at_ fixedHeader 3 =? 0x5A then Ok JpegTypeSequential
     else if at_ fixedHeader 3 =? 0x58 then Ok JpegTypeProgressive
     else fail BadLeptonFile);
  let threadCount := at_ fixedHeader 4 in
  let ms := (at_ fixedHeader 8 =? 0x4D) && (at_ fixedHeader 9 =? 0x53) in
  let flags := at_ fixedHeader 14 in
  let use16 := ms && negb (Z.land flags 0x80 =? 0) in
  let use16BitDCEstimate :=
    if use16 then negb (Z.land flags 0x01 =? 0) else true in
  let use16BitAdvPredict :=
    if use16 then negb (Z.land flags 0x02 =? 0) else true in
  let encoderVersion := if ms then at_ fixedHeader 15 else 0 in
  gitRevision ←
    liftHeader (Uint32 fixedHeader (if ms then 16 else 8));
  originalFileSize ← liftHeader (Uint32 fixedHeader 20);
  compressedHeaderSize ← liftHeader (Uint32 fixedHeader 24);
  if len input <? compressedHeaderSize then fail FailedToRead else
  let compressedHeader := take (Z.to_nat compressedHeaderSize) input in
  let input := drop (Z.to_nat compressedHeaderSize) input in
  decompressedHeader ← inflate compressedHeader;
  header ←
    parseDecompressedHeader
      (mkLeptonHeader version jpegType threadCount gitRevision encoderVersion
         use16BitDCEstimate use16BitAdvPredict originalFileSize
         [] 0 None [] (RecoveryInfo NewLeptonHeader))
      decompressedHeader;
  let header :=
    match JpegHeader header with
    | Some jh =>
        if 0 <? len (Handoffs header)
        then setHandoffs header
               (setLastLumaYEnd (Handoffs header) (JpegHeaderParse.Bcv0 jh))
        else header
    | None => header
    end in
  Ok (header, input).

End LeptonHeaderParse.

(** Go's [compress/zlib] on streams made of stored blocks (RFC 1950;
    RFC 1951, section 3.2.4): a two-byte header, blocks of a length,
    its complement and that many literal bytes, and the Adler-32
    checksum of the data.  Everything else is outside this model. *)
Module ZlibStored.
Import DecodeRun.

Definition adler32 (data : list Z) : Z :=
  let '(a, b) :=
    fold_left (fun '(a, b) x =>
                 let a := (a + x) mod 65521 in (a, (b + a) mod 65521))
              data (1, 0) in
  Z.lor (Z.shiftl b 16) a.

(** The blocks, [fuel] of them at most (a block takes five bytes or
    more); the data and what follows the final block. *)
Fixpoint storedBlocks (fuel : nat) (input : list Z)
  : result Stop (list Z * list Z) :=
  match fuel with
  | O => notModelled
  | S fuel =>
      match input with
      | hdr :: l0 :: l1 :: n0 :: n1 :: rest =>
          if negb (Z.land (Z.shiftr hdr 1) 3 =? 0) then notModelled else
          let n := Z.lor l0 (Z.shiftl l1 8) in
          let nn := Z.lor n0 (Z.shiftl n1 8) in
          if negb (nn =? Z.lxor n 0xFFFF) then fail FailedToDecompress else
          if len rest <? n then fail FailedToDecompress else
          let data := take (Z.to_nat n) rest in
          let rest := drop (Z.to_nat n) rest in
          if Z.land hdr 1 =? 1 then Ok (data, rest)
          else
            '(more, rest) ← storedBlocks fuel rest;
            Ok (data ++ more, rest)
      | [] => fail FailedToDecompress
      | hdr :: _ =>
          if negb (Z.land (Z.shiftr hdr 1) 3 =? 0) then notModelled
          else fail FailedToDecompress
      end
  end.

Definition inflate (input : list Z) : result Stop (list Z) :=
  match input with
  | cmf :: flg :: rest =>
      if negb (Z.land cmf 0x0f =? 8) || (7 <? Z.shiftr cmf 4)
         || negb ((Z.shiftl cmf 8 + flg) mod 31 =? 0)
      then fail FailedToDecompress
      else if negb (Z.land flg 0x20 =? 0) then fail FailedToDecompress
      else
        '(data, rest) ← storedBlocks (S (length rest)) rest;
        match rest with
        | c3 :: c2 :: c1 :: c0 :: _ =>
            if Z.lor (Z.lor (Z.lor (Z.shiftl c3 24) (Z.shiftl c2 16))
                            (Z.shiftl c1 8)) c0
               =? adler32 data
            then Ok data
            else fail FailedToDecompress
        | _ => fail FailedToDecompress
        end
  | _ => fail FailedToDecompress
  end.

End ZlibStored.

(** part_001: [DecodeLepton] with [NewJpegWriter], [WriteJpeg] and
    [writeBaselineJpeg], for streams without coded blocks. *)
Module LeptonDecode.
Import DecodeRun JpegHeaderParse LeptonHeaderParse Decoder.

(** [writeScanData] for a frame without MCUs: the MCU loops are not
    entered, the bit writer is padded and flushed, and [writeLimited]
    returns at once as there are no bytes. *)
Definition writeScanData (h : LeptonHeader) (jh : JpegHeaderParse.JpegHeader)
  : result Stop (list (list Z)) :=
  if negb ((Mcuv jh =? 0) || (Mcuh jh =? 0)) then notModelled else
  let padBit :=
    match PadBit (RecoveryInfo h) with
    | Some b => b
    | None => 0xFF
    end in
  match BitWriter.Pad BitWriter.NewBitWriter padBit with
  | None => notModelled
  | Some w =>
      match BitWriter.DetachBuffer w with
      | None => notModelled
      | Some (data, _) => if len data =? 0 then Ok [] else notModelled
      end
  end.

(** The trailing restart markers [writeBaselineJpeg] adds when
    [RestartErrors] is not empty. *)
Definition restartErrorMarkers (h : LeptonHeader) (jh : JpegHeaderParse.JpegHeader)
  : result Stop (list (list Z)) :=
  if 0 <? len (RestartErrors (RecoveryInfo h)) then
    cumulativeResetMarkers ←
      (if negb (RestartInterval jh =? 0) then
         let mcuc := u32 (Mcuh jh * Mcuv jh) in
         Ok (u8 (u32 (mcuc - 1) / RestartInterval jh))
       else Ok 0);
    Ok (map (fun i =>
               [0xFF;
                u8 (MarkerRST0
                    + Z.land (u8 (cumulativeResetMarkers + u8 (Z.of_nat i))) 7)])
            (seq 0 (Z.to_nat (at_ (RestartErrors (RecoveryInfo h)) 0))))
  else Ok [].

Definition allZeros (data : list Z) : bool := forallb (fun b => b =? 0) data.

(** The writes of [writeBaselineJpeg], in order.  A slice of the raw
    header beyond its length (possible up to its capacity) is outside
    the model; so are the scan writers for a single-component scan and
    for several thread handoffs. *)
Definition writeBaselineJpeg (h : LeptonHeader) (jh : JpegHeaderParse.JpegHeader)
  : result Stop (list (list Z)) :=
  let raw := RawJpegHeader h in
  let readIndex := RawJpegHeaderReadIndex h in
  if len raw <? readIndex then notModelled else
  let headerToWrite := slice raw 0 readIndex in
  scan ←
    (if len (ScanComponentOrder jh) =? 1 then notModelled
     else if negb (EarlyEofEncountered (RecoveryInfo h))
             && (1 <? len (Handoffs h))
          then notModelled
          else writeScanData h jh);
  rst ← restartErrorMarkers h jh;
  let remainingHeader :=
    if readIndex <? len raw then [slice raw readIndex (len raw)] else [] in
  let garbage := GarbageData (RecoveryInfo h) in
  let garbageWrites :=
    if 0 <? len garbage then
      if EarlyEofEncountered (RecoveryInfo h) && allZeros garbage then []
      else [garbage]
    else [] in
  Ok ([headerToWrite] ++ scan ++ rst ++ remainingHeader ++ garbageWrites).

(** The writes of [WriteJpeg]: see [Decoder.WriteJpeg_writes]. *)
Definition WriteJpeg (h : LeptonHeader) (jh : JpegHeaderParse.JpegHeader)
  : result Stop (list (list Z)) :=
  body ←
    (match JpegType_ h with
     | JpegTypeProgressive => notModelled
     | _ => writeBaselineJpeg h jh
     end);
  Ok (WriteJpeg_writes (PrefixGarbage (RecoveryInfo h)) body).

(** [DecodeLepton]: the bytes the output has received when the function
    returns nil.  A nil [JpegHeader] (no HDR section) is dereferenced.
    With components or thread handoffs the block images and the scan
    decoder come into play, which are outside the model. *)
Definition DecodeLepton (inflate : list Z -> result Stop (list Z))
    (input : list Z) : result Stop (list Z) :=
  '(header, input) ← ReadLeptonHeader inflate input;
  match JpegHeader header with
  | None => Panic
  | Some jh =>
      if negb (Cmpc jh =? 0) then notModelled else
      if len input <? 3 then fail FailedToRead else
      let completionMarker := take 3 input in
      let input := drop 3 input in
      if negb (bytesEqual completionMarker LeptonHeaderCompletionMarker)
      then fail BadLeptonFile else
      let remainingData := input in
      if len remainingData <? 4 then fail BadLeptonFile else
      let multiplexedData :=
        slice remainingData 0 (len remainingData - 4) in
      match Multiplex.newDemultiplexer multiplexedData
              (len (Handoffs header)) with
      | None => notModelled
      | Some demuxer =>
          if 0 <? len (Handoffs header) then notModelled else
          writes ← WriteJpeg header jh;
          Ok (inner (writeAll
                       (mkLimitedWriter [] (OriginalFileSize header) 0)
                       writes))
      end
  end.

End LeptonDecode.

(** ** Predicates and checkers used in the statements *)

(** The integers [lo], [lo + 1], ..., [lo + n - 1]. *)
Definition zrange (lo : Z) (n : nat) : list Z :=
  map (fun k => lo + Z.of_nat k) (seq 0 n).

Module BranchInv.
Import Branch.

Definition inRangeb (b : Branch) : bool :=
  (1 <=? falseCount b) && (falseCount b <=? 255)
  && (1 <=? trueCount b) && (trueCount b <=? 255).

(** Both counters of the cell lie in 1..255. *)
Definition inRange (b : Branch) : Prop :=
  1 <= falseCount b <= 255 /\ 1 <= trueCount b <= 255.

(** One observation of either kind keeps the counters in range, and the
    probability is the untruncated quotient, in 1..255. *)
Definition step_check (b : Branch) : bool :=
  inRangeb (RecordAndUpdateBit b false)
  && inRangeb (RecordAndUpdateBit b true)
  && (1 <=? GetProbability b) && (GetProbability b <=? 255)
  && (GetProbability b
      =? Z.shiftl (falseCount b) 8 / (falseCount b + trueCount b)).

End BranchInv.

Module ReaderInv.
Import VPXBoolReader.

(** The range register is a multiple of [2^56] whose top byte lies in
    128..255. *)
Definition rangeOk (rg : Z) : Prop :=
  exists R, 128 <= R <= 255 /\ rg = R * 2 ^ 56.

Definition rangeOkb (rg : Z) : bool :=
  (rg mod 2 ^ 56 =? 0) && (128 <=? rg / 2 ^ 56) && (rg / 2 ^ 56 <=? 255).

(** Renormalisation as [get] and [GetUnaryEncoded] perform it. *)
Definition renorm (rg : Z) : Z := shl64 rg (leadingZeros64 rg).

(** For the range with top byte [R] and the probability [p]: the split
    lies between [2^56] and [range - 2^56], and both possible next
    ranges are well formed again. *)
Definition get_check (R p : Z) : bool :=
  let rg := R * 2 ^ 56 in
  let split := mulProb rg p in
  (2 ^ 56 <=? split) && (split <=? rg - 2 ^ 56)
  && rangeOkb (renorm (u64 (rg - split))) && rangeOkb (renorm split).

(** The four decoding calls, and their effect on the reader. *)
Inductive ReaderCall : Type :=
| CallGetBit (branch : Branch.Branch)
| CallGetGrid (branches : list Branch.Branch)
| CallGetUnaryEncoded (branches : list Branch.Branch)
| CallGetNBits (n : Z) (branches : list Branch.Branch).

Definition runCall (r : VPXBoolReader) (c : ReaderCall)
  : result VPXError VPXBoolReader :=
  match c with
  | CallGetBit b => '(_, _, r') ← GetBit r b; Ok r'
  | CallGetGrid bs => '(_, _, r') ← GetGrid r bs; Ok r'
  | CallGetUnaryEncoded bs => '(_, _, r') ← GetUnaryEncoded r bs; Ok r'
  | CallGetNBits n bs => '(_, _, r') ← GetNBits r n bs; Ok r'
  end.

Fixpoint runCalls (r : VPXBoolReader) (cs : list ReaderCall)
  : result VPXError VPXBoolReader :=
  match cs with
  | [] => Ok r
  | c :: cs => r' ← runCall r c; runCalls r' cs
  end.

End ReaderInv.

Module BitWriterInv.
Import BitWriter.

(** What [appendFFEncoded] adds to the buffer. *)
Definition ffEncoded (b : Z) : list Z :=
  if b =? 0xFF then [b; 0x00] else [b].

(** [emits w w']: [w'] holds the buffer of [w] followed by bytes in
    which every [0xFF] is stuffed. *)
Definition emits (w w' : BitWriter) : Prop :=
  exists emitted,
    dataBuffer w' = dataBuffer w ++ emitted /\ ffEscaped emitted.

End BitWriterInv.

Module QuantInv.
Import QuantizationTables.

(** The value [minNoiseAt] stores, as a function of the edge position
    and of the quantization value found there. *)
Definition minNoiseOf (i q : Z) : Z :=
  if q <? 9 then
    let freqMax :=
      if negb (q =? 0) then u16 (at_ FreqMax i + q - 1) / q
      else u16 (at_ FreqMax i - 1) in
    let maxLen := u16BitLength freqMax in
    if u8 ResidualNoiseFloor <? maxLen
    then u8 (maxLen - u8 ResidualNoiseFloor)
    else 0
  else 0.

Definition small_q_check (i q : Z) : bool :=
  minNoiseOf i q =? spec_minNoise i q.

Definition freqMax_check (i : Z) : bool :=
  (1 <=? at_ FreqMax i) && (at_ FreqMax i <=? 1020).

End QuantInv.

Module EobExample.
Import Huffman JpegPositionState.

(** An AC table as a DHT segment defines it: three codes of length 2
    for the symbols EOB0 ([0x00]), EOB1 ([0x10]) and run 0 / size 1
    ([0x01]). *)
Definition acTable : HuffmanTable :=
  tableOfDHT [0; 3; 0; 0; 0; 0; 0; 0; 0; 0; 0; 0; 0; 0; 0; 0]
             [0x00; 0x10; 0x01].

(** The state before the check of an empty block that follows an EOB
    run of two blocks ([PrevEobrun] holds the run length less one). *)
Definition afterRunOfTwo : JpegPositionState :=
  mkState 0 0 0 0 2 0 0 1.

End EobExample.

Module BitReaderInv.
Import BitReader.

(** Register and counter have their Go types and every input event
    carries a byte. *)
Definition isByte (ev : ReadEvent) : Prop :=
  match ev with
  | Data b => 0 <= b < 256
  | Failure => True
  end.

Definition wf (r : BitReader) : Prop :=
  0 <= bits r < 2 ^ 64 /\ 0 <= bitsLeft r <= 64 /\ Forall isByte (inner r).

(** Bit [j] (counted from 0, most significant bit of the first byte
    first) of a byte sequence; zero beyond its end. *)
Definition byteStream (bs : list Z) (j : Z) : bool :=
  Z.testbit (at_ bs (j / 8)) (7 - j mod 8).

(** The bit stream ahead of the reader: the [bitsLeft] bits held in the
    register, then the unstuffed input bytes, then zeros. *)
Definition spec_stream (r : BitReader) (k : Z) : bool :=
  if k <? bitsLeft r then Z.testbit (bits r) (bitsLeft r - 1 - k)
  else byteStream (fst (spec_unstuff (inner r))) (k - bitsLeft r).

(** The first [n] bits of a stream, most significant first, as an
    unsigned integer. *)
Fixpoint spec_bits_value (f : Z -> bool) (n : nat) : Z :=
  match n with
  | O => 0
  | S n => 2 * spec_bits_value f n + Z.b2z (f (Z.of_nat n))
  end.

(** Number of stream bits available before the input ends or goes
    wrong. *)
Definition avail (r : BitReader) : Z :=
  bitsLeft r + 8 * Z.of_nat (length (fst (spec_unstuff (inner r)))).

Definition ending (r : BitReader) : Ending := snd (spec_unstuff (inner r)).

(** Reading [n] bits takes in an [0xFF] that is the last byte of the
    input: the input ends that way, and the bits before that byte
    ([avail r - 8] of them) are fewer than [n]. *)
Definition fetchesLastFF (r : BitReader) (n : Z) : bool :=
  spec_lastFF (inner r) && (avail r - 8 <? n).

End BitReaderInv.

Module BitReaderPost.
Import BitReader BitReaderInv.

(** What [fillRegister] achieves when asked for [n] bits from [r]. *)
Definition fill_post (r : BitReader) (n : Z)
    (res : option (result LeptonError BitReader)) : Prop :=
  match res with
  | Some (Ok r1) =>
      n <= bitsLeft r1 <= Z.max (bitsLeft r) (n + 7)
      /\ wf r1
      /\ (forall k, 0 <= k -> spec_stream r1 k = spec_stream r k)
      /\ eof r1 = (eof r || (avail r <? n))
      /\ ending r1 = ending r
      /\ (avail r < n -> ending r = AtEOF)
      /\ truncatedFF r1 = (truncatedFF r || fetchesLastFF r n)
  | Some (Error (ExitCodeInvalidResetCode x)) =>
      avail r < n /\ ending r = BadMarker x /\ x <> 0
  | Some (Error OtherReadError) =>
      avail r < n /\ ending r = IoFailure
  | _ => False
  end.

(** What [Read] achieves when asked for [n] bits from [r]. *)
Definition read_post (r : BitReader) (n : Z)
    (res : option (result LeptonError (Z * BitReader))) : Prop :=
  match res with
  | Some (Ok (v, r')) =>
      v = spec_bits_value (spec_stream r) (Z.to_nat n)
      /\ (forall j, 0 <= j -> spec_stream r' j = spec_stream r (n + j))
      /\ wf r'
      /\ eof r' = (eof r || (avail r <? n))
      /\ ending r' = ending r
      /\ (avail r < n -> ending r = AtEOF)
      /\ truncatedFF r' = (truncatedFF r || fetchesLastFF r n)
  | Some (Error (ExitCodeInvalidResetCode x)) =>
      avail r < n /\ ending r = BadMarker x /\ x <> 0
  | Some (Error OtherReadError) =>
      avail r < n /\ ending r = IoFailure
  | _ => False
  end.

End BitReaderPost.

(** ** Further predicates and checkers *)

Module BranchRule.
Import Branch BranchInv.

(** The byte swap [RecordAndUpdateBit] applies around a [true]
    observation. *)
Definition swapBytes (b : Branch) : Branch :=
  u16 (Z.lor (Z.shiftr b 8) (shl16 b 8)).

(** Counter of the observed side and of the other side after one
    observation, from their values [own] and [other] before it. *)
Definition ownAfter (own other : Z) : Z :=
  if own <? 255 then own + 1 else if other =? 1 then 255 else 129.

Definition otherAfter (own other : Z) : Z :=
  if own <? 255 then other else (other + 1) / 2.

End BranchRule.

Module WriterInv.
Import VPXBoolWriter.

(** The encoder's range register holds a value in 128..255. *)
Definition rangeOk (rg : Z) : Prop := 128 <= rg <= 255.

(** Range after [put] for the range [rg], the probability [p] and the
    bit written. *)
Definition nextRange (rg p : Z) (bit : bool) : Z :=
  let split := u32 (1 + Z.shiftr (u32 (u32 (rg - 1) * p)) 8) in
  let tmpRange := if bit then u32 (rg - split) else split in
  shl32 tmpRange (leadingZeros8 (u8 tmpRange)).

Definition put_check (rg p : Z) : bool :=
  let ok r := (128 <=? r) && (r <=? 255) in
  ok (nextRange rg p false) && ok (nextRange rg p true).

(** The four encoding calls, and their effect on the writer. *)
Inductive WriterCall : Type :=
| CallPutBit (bit : bool) (branch : Branch.Branch)
| CallPutGrid (v : Z) (branches : list Branch.Branch)
| CallPutNBits (bits numBits : Z) (branches : list Branch.Branch)
| CallPutUnaryEncoded (v : Z) (branches : list Branch.Branch).

Definition runCall (w : VPXBoolWriter) (c : WriterCall)
  : result VPXError VPXBoolWriter :=
  match c with
  | CallPutBit bit b => '(_, w') ← PutBit w bit b; Ok w'
  | CallPutGrid v bs => '(_, w') ← PutGrid w v bs; Ok w'
  | CallPutNBits bits n bs => '(_, w') ← PutNBits w bits n bs; Ok w'
  | CallPutUnaryEncoded v bs => '(_, w') ← PutUnaryEncoded w v bs; Ok w'
  end.

Fixpoint runCalls (w : VPXBoolWriter) (cs : list WriterCall)
  : result VPXError VPXBoolWriter :=
  match cs with
  | [] => Ok w
  | c :: cs => w' ← runCall w c; runCalls w' cs
  end.

End WriterInv.

Module CoefRoundtrip.
Import CoefCoding.

Inductive AnyError : Type :=
| WriteFailed (e : CoefError)
| FinishFailed
| ReadFailed (e : VPXError).

Definition liftW {A} (r : result CoefError A) : result AnyError A :=
  match r with
  | Ok a => Ok a
  | Error e => Error (WriteFailed e)
  | Panic => Panic
  end.

Definition liftR {A} (r : result VPXError A) : result AnyError A :=
  match r with
  | Ok a => Ok a
  | Error e => Error (ReadFailed e)
  | Panic => Panic
  end.

(** The bytes a fresh encoder produces for the coefficients [coefs],
    coded one after the other with the same, initially fresh, branches. *)
Fixpoint writeCoefs (w : VPXBoolWriter.VPXBoolWriter) (bs : CoefBranches)
    (coefs : list Z) : result CoefError VPXBoolWriter.VPXBoolWriter :=
  match coefs with
  | [] => Ok w
  | c :: coefs =>
      '(bs, w) ← writeLengthSignCoef w c bs;
      writeCoefs w bs coefs
  end.

Definition encodeCoefs (coefs : list Z) : result CoefError (list Z) :=
  w ← VPXBoolWriter.NewVPXBoolWriter [];
  w ← writeCoefs w freshCoefBranches coefs;
  w ← VPXBoolWriter.Finish w;
  Ok (VPXBoolWriter.writer w).

Fixpoint readCoefs (n : nat) (r : VPXBoolReader.VPXBoolReader)
    (bs : CoefBranches) : result VPXError (list Z) :=
  match n with
  | O => Ok []
  | S n =>
      '(c, bs, r) ← readLengthSignCoef r bs;
      cs ← readCoefs n r bs;
      Ok (c :: cs)
  end.

Definition decodeCoefs (n : nat) (data : list Z) : result VPXError (list Z) :=
  r ← VPXBoolReader.NewVPXBoolReader (bytesReader data);
  readCoefs n r freshCoefBranches.

Definition coef_roundtrip (coefs : list Z) : result AnyError (list Z) :=
  data ← liftW (encodeCoefs coefs);
  liftR (decodeCoefs (length coefs) data).

Definition coef_roundtrip_ok (c : Z) : bool :=
  match coef_roundtrip [c] with
  | Ok [c'] => c' =? c
  | _ => false
  end.

Definition bitLength_check (x : Z) : bool :=
  u16BitLength x =? (if x =? 0 then 0 else Z.log2 x + 1).

End CoefRoundtrip.


Module QuantRange.
Import QuantizationTables QuantInv.

(** State of the third loop after [k] iterations: the first [k] entries
    are filled in, the others are still zero. *)
Definition divisorsUpTo (qtable : list Z) (k : nat) (r : list Z * list Z) :=
  length (fst r) = 64%nat /\ length (snd r) = 64%nat
  /\ forall n : nat,
       (nth n (fst r) 0 = if Nat.ltb n k then nth n qtable 0 else 0)
       /\ (nth n (snd r) 0 = if Nat.ltb n k then nth n qtable 0 / 2 else 0).

Definition threshold_check (i q : Z) : bool :=
  (0 <=? minNoiseOf i q) && (minNoiseOf i q <=? 3)
  && (if q =? 0 then minNoiseOf i q =? 3 else true).

End QuantRange.

Module BitRoundtrip.
Import BitWriter BitReader BitWriterInv BitReaderInv.

(** A run of [Write(val, numBits)] calls. *)
Definition writeBits (w : BitWriter) (items : list (Z * Z)) : BitWriter :=
  fold_left (fun w it => Write w (fst it) (snd it)) items w.

(** What the scan writers do with a finished segment: [Pad(padBit)],
    then [DetachBuffer()]. *)
Definition encodeBits (items : list (Z * Z)) (fillBit : Z)
  : option (list Z) :=
  match Pad (writeBits NewBitWriter items) fillBit with
  | Some w => option_map fst (DetachBuffer w)
  | None => None
  end.

(** A run of [Read(n)] calls; the first failure ends it. *)
Fixpoint readBits (r : BitReader) (ns : list Z)
  : option (result LeptonError (list Z * BitReader)) :=
  match ns with
  | [] => Some (Ok ([], r))
  | n :: ns =>
      match Read r n with
      | Some (Ok (v, r)) =>
          match readBits r ns with
          | Some (Ok (vs, r)) => Some (Ok (v :: vs, r))
          | other => other
          end
      | Some (Error e) => Some (Error e)
      | Some Panic => Some Panic
      | None => None
      end
  end.

(** A value together with a width of at most 16 bits that holds it. *)
Definition validItem (it : Z * Z) : Prop :=
  0 <= snd it <= 16 /\ 0 <= fst it < 2 ^ snd it.

(** Bit [k] of the items written one after the other, each most
    significant bit first. *)
Fixpoint itemsBit (items : list (Z * Z)) (k : Z) : bool :=
  match items with
  | [] => false
  | it :: rest =>
      if k <? snd it then Z.testbit (fst it) (snd it - 1 - k)
      else itemsBit rest (k - snd it)
  end.

Definition totalBits (items : list (Z * Z)) : Z :=
  fold_right (fun it acc => snd it + acc) 0 items.

(** Byte stuffing of a whole sequence. *)
Definition stuff (U : list Z) : list Z := flat_map ffEncoded U.

(** The eight bytes of the register, most significant first. *)
Definition bytes8 (fill : Z) : list Z :=
  map (fun i => u8 (Z.shiftr fill (56 - i * 8))) [0; 1; 2; 3; 4; 5; 6; 7].

(** The bits written so far: those of the bytes [U] already flushed,
    then the used top of the register. *)
Definition wbit (w : BitWriter) (U : list Z) (k : Z) : bool :=
  if k <? 8 * Z.of_nat (length U) then byteStream U k
  else Z.testbit (BitWriter.fillRegister w) (63 - (k - 8 * Z.of_nat (length U))).

Definition written (w : BitWriter) (U : list Z) : Z :=
  8 * Z.of_nat (length U) + 64 - currentBit w.

(** The buffer is the stuffed form of the bytes [U], and the unused low
    part of the register is clear. *)
Definition winv (w : BitWriter) (U : list Z) : Prop :=
  dataBuffer w = stuff U
  /\ Forall (fun b => 0 <= b < 256) U
  /\ 0 <= currentBit w <= 64
  /\ 0 <= BitWriter.fillRegister w < 2 ^ 64
  /\ forall i, 0 <= i < currentBit w -> Z.testbit (BitWriter.fillRegister w) i = false.

End BitRoundtrip.

Module HandoffFormat.
Import ThreadHandoffs.

(** The fields have their Go types. *)
Definition typedHandoff (h : ThreadHandoff) : Prop :=
  0 <= LumaYStart h < 2 ^ 32
  /\ 0 <= SegmentSize h < 2 ^ 32
  /\ 0 <= OverhangByte h < 256
  /\ 0 <= NumOverhangBits h < 256
  /\ length (LastDC h) = 4%nat
  /\ Forall (fun d => - 32768 <= d <= 32767) (LastDC h).

(** What the file keeps of a handoff: [LumaYStart] as a [uint16], no
    [LumaYEnd]. *)
Definition stored (h : ThreadHandoff) : ThreadHandoff :=
  mkThreadHandoff (u16 (LumaYStart h)) 0 (SegmentSize h) (OverhangByte h)
    (NumOverhangBits h) (LastDC h).

End HandoffFormat.

Module BlockCount.
Import AlignedBlock.

(** 1 for a nonzero coefficient, 0 for a zero one. *)
Definition ind (x : Z) : Z := if x =? 0 then 0 else 1.

(** The nonzero coefficients of the 7x7 interior, added up row by row. *)
Definition interiorSum (b : AlignedBlock) : Z :=
  fold_right
    (fun row acc =>
       fold_right
         (fun col acc => ind (at_ b (Z.of_nat (row * 8 + col))) + acc)
         0 (seq 1 7) + acc)
    0 (seq 1 7).

End BlockCount.

Module TableChecks.

(** A transposed position outside the first row and the first column. *)
Definition interior (p : Z) : bool :=
  negb (p / 8 =? 0) && negb (p mod 8 =? 0).

End TableChecks.

Module HuffmanCode.
Import Huffman HuffmanDecode.

(** Number of codes of length [b]. *)
Definition numCodes (t : HuffmanTable) (b : nat) : Z :=
  at_ (NumCodes t) (Z.of_nat b).

(** One past the last code of length [b] in the canonical assignment:
    the codes of length [b] are [2 * endCode (b - 1)] up to
    [endCode b - 1]. *)
Fixpoint endCode (t : HuffmanTable) (b : nat) : Z :=
  match b with
  | O => 0
  | S b' => 2 * endCode t b' + numCodes t b
  end.

(** Number of symbols with a code of length at most [b]. *)
Fixpoint symbolsUpTo (t : HuffmanTable) (b : nat) : Z :=
  match b with
  | O => 0
  | S b' => symbolsUpTo t b' + numCodes t b
  end.

(** A table as a DHT segment can define it: 16 byte counts whose codes
    fit (Kraft's inequality), and 256 symbol bytes. *)
Definition validTable (t : HuffmanTable) : Prop :=
  length (NumCodes t) = 17%nat
  /\ length (Symbols t) = 256%nat
  /\ (forall b, (1 <= b <= 16)%nat -> 0 <= numCodes t b <= 255)
  /\ endCode t 16 <= 2 ^ 16
  /\ symbolsUpTo t 16 <= 256
  /\ Forall (fun s => 0 <= s < 256) (Symbols t).

(** Index in [Symbols] and code of the [o]-th symbol of length [L]. *)
Definition symbolIndex (t : HuffmanTable) (L : nat) (o : Z) : Z :=
  symbolsUpTo t (L - 1) + o.

Definition codeOf (t : HuffmanTable) (L : nat) (o : Z) : Z :=
  2 * endCode t (L - 1) + o.

(** The stream ahead of the reader begins with the [L] bits of [c]. *)
Definition beginsWith (r : BitReader.BitReader) (c : Z) (L : nat) : Prop :=
  forall j, 0 <= j < Z.of_nat L ->
    BitReaderInv.spec_stream r j = Z.testbit c (Z.of_nat L - 1 - j).

(** State of the code range loop after the lengths [1 .. b]. *)
Definition rangesUpTo (t : HuffmanTable) (b : nat)
    (st : list Z * list Z * list Z * Z * Z) : Prop :=
  let '(minCode, valPtr, maxCode, code, symbolIdx) := st in
  length valPtr = 17%nat /\ length maxCode = 18%nat
  /\ code = 2 * endCode t b /\ symbolIdx = symbolsUpTo t b
  /\ forall i, (1 <= i <= b)%nat ->
       at_ maxCode (Z.of_nat i)
       = (if 0 <? numCodes t i then endCode t i - 1 else - 1)
       /\ at_ valPtr (Z.of_nat i)
          = symbolsUpTo t (i - 1) - 2 * endCode t (i - 1).

End HuffmanCode.

Module DecoderExample.
Import DecodeRun LeptonHeaderParse.

(** The size field of a Lepton stream: bytes 20 to 23 of the fixed
    header, little-endian. *)
Definition storedFileSize (input : list Z) : Z :=
  Z.lor (Z.lor (Z.lor (at_ input 20) (Z.shiftl (at_ input 21) 8))
               (Z.shiftl (at_ input 22) 16))
        (Z.shiftl (at_ input 23) 24).

Definition isByte (b : Z) : Prop := 0 <= b < 256.

(** The decompressed header of the example: an HDR section with a JPEG
    header that is one comment segment ([FF FE], length 4, ["AB"]), the
    pad bit 0, no thread handoffs, and the EOI marker as garbage data. *)
Definition exampleHeader : list Z :=
  [0x48; 0x44; 0x52; 6; 0; 0; 0; 0xFF; 0xFE; 0x00; 0x04; 0x41; 0x42;
   0x50; 0x30; 0x44; 0;
   0x48; 0x48; 0;
   0x47; 0x52; 0x42; 2; 0; 0; 0; 0xFF; 0xD9].

(** A Lepton stream: the fixed header (magic number, version 1, type
    [Z], no threads, the [MS] block, [OriginalFileSize = 100], 40 bytes
    of compressed header), the header above as a zlib stream of one
    stored block with its Adler-32 checksum, the completion marker
    [CMP], and four footer bytes. *)
Definition exampleStream : list Z :=
  [0xCF; 0x84; 1; 0x5A; 0; 0; 0; 0; 0x4D; 0x53; 29; 0; 0; 0; 0x83; 1;
   0; 0; 0; 0; 100; 0; 0; 0; 40; 0; 0; 0]
  ++ [0x78; 0x01; 0x01; 0x1D; 0x00; 0xE2; 0xFF]
  ++ exampleHeader
  ++ [0x68; 0xB7; 0x07; 0x72]
  ++ [0x43; 0x4D; 0x50]
  ++ [0; 0; 0; 0].

End DecoderExample.

(** * Verification *)

(** Arithmetic on symbolic machine words is left folded by [simpl]. *)
#[local] Arguments Z.pow : simpl never.
#[local] Arguments Z.modulo : simpl never.
#[local] Arguments Z.div : simpl never.
#[local] Arguments Z.shiftl : simpl never.
#[local] Arguments Z.shiftr : simpl never.
#[local] Arguments Z.land : simpl never.
#[local] Arguments Z.lor : simpl never.
#[local] Arguments Z.of_nat : simpl never.
#[local] Arguments Z.to_nat : simpl never.
#[local] Arguments Z.mul : simpl never.
#[local] Arguments Z.add : simpl never.
#[local] Arguments Z.sub : simpl never.

(** ** Exhaustive checks over an integer range *)

Lemma zrange_forallb (P : Z -> bool) lo n :
  forallb P (zrange lo n) = true ->
  forall z, lo <= z < lo + Z.of_nat n -> P z = true.
Proof.
  intros Hall z Hz.
  rewrite forallb_forall in Hall.
  apply Hall. unfold zrange.
  apply in_map_iff. exists (Z.to_nat (z - lo)). split; [lia|].
  apply in_seq. lia.
Qed.


(** ** Branch *)

Section BranchFacts.
Import Branch BranchInv.

Lemma inRangeb_spec b : inRangeb b = true <-> inRange b.
Proof. unfold inRangeb, inRange. rewrite !andb_true_iff, !Z.leb_le. tauto. Qed.

Lemma inRange_u16 b : inRange b -> 0 <= b < 65536.
Proof.
  unfold inRange, falseCount. rewrite Z.shiftr_div_pow2 by lia.
  change (2 ^ 8) with 256. intros [H _].
  pose proof (Z.div_mod b 256). pose proof (Z.mod_pos_bound b 256). lia.
Qed.

Lemma inRange_split b :
  inRange b -> b = falseCount b * 256 + trueCount b.
Proof.
  intros H. pose proof (inRange_u16 b H).
  unfold falseCount, trueCount.
  rewrite Z.shiftr_div_pow2 by lia.
  change 0xff with (Z.ones 8). rewrite Z.land_ones by lia.
  change (2 ^ 8) with 256.
  pose proof (Z.div_mod b 256). lia.
Qed.

Lemma step_check_all :
  forallb (fun f => forallb (fun t => step_check (f * 256 + t)) (zrange 1 255))
          (zrange 1 255) = true.
Proof. vm_cast_no_check (eq_refl true). Qed.

Lemma step_checked b : inRange b -> step_check b = true.
Proof.
  intros H. rewrite (inRange_split b H). destruct H as [Hf Ht].
  assert (Hn : Z.of_nat 255 = 255) by reflexivity.
  apply (zrange_forallb _ 1 255
           (zrange_forallb _ 1 255 step_check_all (falseCount b)
                           ltac:(rewrite Hn; lia))).
  rewrite Hn; lia.
Qed.

Lemma RecordAndUpdateBit_inRange b bit :
  inRange b -> inRange (RecordAndUpdateBit b bit).
Proof.
  intros H. pose proof (step_checked b H) as Hc.
  unfold step_check in Hc.
  rewrite !andb_true_iff in Hc.
  destruct Hc as [[[[Hf Ht] _] _] _].
  destruct bit; apply inRangeb_spec; assumption.
Qed.

Lemma GetProbability_inRange b :
  inRange b ->
  1 <= GetProbability b <= 255
  /\ GetProbability b
     = Z.shiftl (falseCount b) 8 / (falseCount b + trueCount b).
Proof.
  intros H. pose proof (step_checked b H) as Hc.
  unfold step_check in Hc.
  rewrite !andb_true_iff, !Z.leb_le, Z.eqb_eq in Hc.
  destruct Hc as [[[_ H1] H2] H3]. auto.
Qed.

Lemma RecordAll_inRange bits : forall b,
  inRange b -> inRange (RecordAll b bits).
Proof.
  unfold RecordAll.
  induction bits as [|bit bits IH]; intros b H; simpl; [exact H|].
  apply IH, RecordAndUpdateBit_inRange, H.
Qed.

Lemma NewBranch_inRange : inRange NewBranch.
Proof. apply inRangeb_spec. reflexivity. Qed.

(** C2: the five canonical update vectors for a [false] observation and
    their byte-swapped counterparts for a [true] observation. *)
Theorem RecordAndUpdateBit_canonical_vectors :
  RecordAndUpdateBit 0x0101 false = 0x0201
  /\ RecordAndUpdateBit 0x80ff false = 0x81ff
  /\ RecordAndUpdateBit 0xff01 false = 0xff01
  /\ RecordAndUpdateBit 0xff02 false = 0x8101
  /\ RecordAndUpdateBit 0xffff false = 0x8180
  /\ RecordAndUpdateBit 0x0101 true = 0x0102
  /\ RecordAndUpdateBit 0xff80 true = 0xff81
  /\ RecordAndUpdateBit 0x01ff true = 0x01ff
  /\ RecordAndUpdateBit 0x02ff true = 0x0181
  /\ RecordAndUpdateBit 0xffff true = 0x8081.
Proof. repeat split; vm_compute; reflexivity. Qed.

(** C9: from a fresh cell, after any finite sequence of observations,
    both counters lie in 1..255, the probability lies in 1..255, and it
    is the untruncated quotient [(false << 8) / (false + true)] (the
    [uint8] conversion in the table never wraps). *)
Theorem Branch_counters_stay_in_range (bits : list bool) :
  let b := RecordAll NewBranch bits in
  1 <= falseCount b <= 255
  /\ 1 <= trueCount b <= 255
  /\ 1 <= GetProbability b <= 255
  /\ GetProbability b
     = Z.shiftl (falseCount b) 8 / (falseCount b + trueCount b)
  /\ Z.shiftl (falseCount b) 8 / (falseCount b + trueCount b) < 256.
Proof.
  intros b.
  assert (H : inRange b) by apply RecordAll_inRange, NewBranch_inRange.
  destruct (GetProbability_inRange b H) as [Hp Heq].
  destruct H as [Hf Ht].
  repeat split; try tauto; try apply Hp. rewrite <- Heq. lia.
Qed.

End BranchFacts.

(** ** VPX boolean coder *)

Section VPXFacts.
Import Branch VPXBoolReader ReaderInv.

Lemma GetProbability_u8 b : 0 <= GetProbability b <= 255.
Proof.
  unfold GetProbability, probLookup.
  destruct (_ && _); [|lia].
  unfold u8. pose proof (Z.mod_pos_bound (Z.shiftl (Z.shiftr b 8) 8 /
    (Z.shiftr b 8 + Z.land b 255)) (2 ^ 8)). lia.
Qed.

Lemma rangeOkb_spec rg : rangeOkb rg = true -> rangeOk rg.
Proof.
  unfold rangeOkb, rangeOk.
  rewrite !andb_true_iff, Z.eqb_eq, !Z.leb_le. intros [[Hm Hlo] Hhi].
  exists (rg / 2 ^ 56). split; [lia|].
  pose proof (Z.div_mod rg (2 ^ 56)). lia.
Qed.

Lemma get_check_all :
  forallb (fun R => forallb (fun p => get_check R p) (zrange 0 256))
          (zrange 128 128) = true.
Proof. vm_cast_no_check (eq_refl true). Qed.

Lemma get_checked rg p :
  rangeOk rg -> 0 <= p <= 255 ->
  2 ^ 56 <= mulProb rg p <= rg - 2 ^ 56
  /\ rangeOk (renorm (u64 (rg - mulProb rg p)))
  /\ rangeOk (renorm (mulProb rg p)).
Proof.
  intros [R [HR ->]] Hp.
  assert (H128 : Z.of_nat 128 = 128) by reflexivity.
  assert (H256 : Z.of_nat 256 = 256) by reflexivity.
  pose proof (zrange_forallb _ 0 256
    (zrange_forallb _ 128 128 get_check_all R ltac:(rewrite H128; lia))
    p ltac:(rewrite H256; lia)) as Hc.
  unfold get_check in Hc.
  rewrite !andb_true_iff, !Z.leb_le in Hc.
  destruct Hc as [[[H1 H2] H3] H4].
  auto using rangeOkb_spec.
Qed.

Lemma get_rangeOk branch v rg :
  rangeOk rg ->
  let '(_, _, _, rg') := get branch v rg in rangeOk rg'.
Proof.
  intros H. unfold get.
  destruct (get_checked rg (GetProbability branch) H (GetProbability_u8 _))
    as (_ & Hs & Hz).
  destruct (_ <=? v); assumption.
Qed.

Lemma GetBit_rangeOk r branch bit b' r' :
  rangeOk (rang r) -> GetBit r branch = Ok (bit, b', r') -> rangeOk (rang r').
Proof.
  intros H. unfold GetBit.
  destruct (if _ =? 0 then _ else _) as [[v up]| |]; simpl; try discriminate.
  pose proof (get_rangeOk branch v (rang r) H) as Hg.
  destruct (get branch v (rang r)) as [[[bit0 b0] v0] rg0].
  intros [= <- <- <-]. exact Hg.
Qed.

Lemma GetGrid_loop_rangeOk i : forall branches d v rg d' bs' v' rg',
  rangeOk rg ->
  GetGrid_loop i branches d v rg = Ok (d', bs', v', rg') -> rangeOk rg'.
Proof.
  induction i as [|i IH]; intros branches d v rg d' bs' v' rg' H; simpl.
  - intros [= <- <- <- <-]. exact H.
  - destruct (index branches d) as [b| |]; simpl; try discriminate.
    pose proof (get_rangeOk b v rg H) as Hg.
    destruct (get b v rg) as [[[bit0 b0] v0] rg0].
    apply IH, Hg.
Qed.

Lemma GetGrid_rangeOk r branches val bs' r' :
  rangeOk (rang r) -> GetGrid r branches = Ok (val, bs', r') ->
  rangeOk (rang r').
Proof.
  intros H. unfold GetGrid.
  destruct (_ || _); [discriminate|].
  destruct (vpxReaderFill _ _) as [[v up]| |]; simpl; try discriminate.
  destruct (GetGrid_loop _ _ _ _ _) as [[[[d bs] v1] rg1]| |] eqn:Hl;
    simpl; try discriminate.
  intros [= <- <- <-]. simpl.
  eapply GetGrid_loop_rangeOk; eauto.
Qed.

Lemma GetUnaryEncoded_loop_rangeOk n : forall val branches up v rg val' bs' r',
  rangeOk rg ->
  GetUnaryEncoded_loop n val branches up v rg = Ok (val', bs', r') ->
  rangeOk (rang r').
Proof.
  induction n as [|n IH]; intros val branches up v rg val' bs' r' H; simpl.
  - intros [= <- <- <-]. exact H.
  - destruct (if _ || _ then _ else _) as [[v1 up1]| |]; simpl;
      try discriminate.
    destruct (index branches val) as [b| |]; simpl; try discriminate.
    destruct (get_checked rg (GetProbability b) H (GetProbability_u8 _))
      as (_ & Hs & Hz).
    destruct (_ <=? v1).
    + apply IH, Hs.
    + intros [= <- <- <-]. exact Hz.
Qed.

Lemma GetNBits_loop_rangeOk k : forall branches coef up v rg val' bs' r',
  rangeOk rg ->
  GetNBits_loop k branches coef up v rg = Ok (val', bs', r') ->
  rangeOk (rang r').
Proof.
  induction k as [|k IH]; intros branches coef up v rg val' bs' r' H; simpl.
  - intros [= <- <- <-]. exact H.
  - destruct (if _ =? 0 then _ else _) as [[v1 up1]| |]; simpl;
      try discriminate.
    destruct (index branches (Z.of_nat k)) as [b| |]; simpl; try discriminate.
    pose proof (get_rangeOk b v1 rg H) as Hg.
    destruct (get b v1 rg) as [[[bit0 b0] v0] rg0].
    apply IH, Hg.
Qed.

Lemma runCall_rangeOk r c r' :
  rangeOk (rang r) -> runCall r c = Ok r' -> rangeOk (rang r').
Proof.
  intros H. destruct c as [b|bs|bs|n bs]; simpl.
  - destruct (GetBit r b) as [[[bit b'] r1]| |] eqn:E; simpl; try discriminate.
    intros [= <-]. eapply GetBit_rangeOk; eauto.
  - destruct (GetGrid r bs) as [[[val bs'] r1]| |] eqn:E; simpl;
      try discriminate.
    intros [= <-]. eapply GetGrid_rangeOk; eauto.
  - destruct (GetUnaryEncoded r bs) as [[[val bs'] r1]| |] eqn:E; simpl;
      try discriminate.
    intros [= <-]. unfold GetUnaryEncoded in E.
    eapply GetUnaryEncoded_loop_rangeOk; eauto.
  - destruct (GetNBits r n bs) as [[[val bs'] r1]| |] eqn:E; simpl;
      try discriminate.
    intros [= <-]. unfold GetNBits in E.
    destruct (_ <? n); [discriminate|].
    eapply GetNBits_loop_rangeOk; eauto.
Qed.

Lemma NewVPXBoolReader_rangeOk up r :
  NewVPXBoolReader up = Ok r -> rangeOk (rang r).
Proof.
  unfold NewVPXBoolReader.
  destruct (GetBit _ _) as [[[bit b'] r1]| |] eqn:E; simpl; try discriminate.
  destruct bit; [discriminate|]. intros [= <-].
  eapply GetBit_rangeOk; [|exact E]. simpl.
  exists 255. split; [lia|reflexivity].
Qed.

Lemma runCalls_rangeOk cs : forall r r',
  rangeOk (rang r) -> runCalls r cs = Ok r' -> rangeOk (rang r').
Proof.
  induction cs as [|c cs IH]; intros r r' H; simpl.
  - intros [= <-]. exact H.
  - destruct (runCall r c) as [r1| |] eqn:E; simpl; try discriminate.
    apply IH. eapply runCall_rangeOk; eauto.
Qed.

(** C10: the range register of a constructed reader is a multiple of
    [2^56] with top byte in 128..255 after any sequence of successful
    [GetBit], [GetGrid], [GetUnaryEncoded] and [GetNBits] calls; each
    such call preserves the property; and for a probability in 1..255
    the split of [mulProb] lies between [2^56] and [range - 2^56]. *)
Theorem VPXBoolReader_range_invariant :
  (forall up r calls r',
      NewVPXBoolReader up = Ok r -> runCalls r calls = Ok r' ->
      rangeOk (rang r'))
  /\ (forall r call r',
         rangeOk (rang r) -> runCall r call = Ok r' -> rangeOk (rang r'))
  /\ (forall rg p,
         rangeOk rg -> 1 <= p <= 255 ->
         2 ^ 56 <= mulProb rg p <= rg - 2 ^ 56).
Proof.
  split; [|split].
  - intros up r calls r' Hnew Hrun.
    eapply runCalls_rangeOk; [|exact Hrun].
    eapply NewVPXBoolReader_rangeOk, Hnew.
  - intros r call r'. apply runCall_rangeOk.
  - intros rg p H Hp. apply get_checked; [exact H|lia].
Qed.

Lemma VPXBoolReader_range_invariant_witness :
  exists r',
    (r ← NewVPXBoolReader (bytesReader [56; 0]);
     runCalls r [CallGetGrid (freshBranches 16); CallGetBit NewBranch])
    = Ok r'
    /\ rangeOk (rang r')
    /\ 2 ^ 56 <= mulProb (255 * 2 ^ 56) 128 <= 255 * 2 ^ 56 - 2 ^ 56.
Proof.
  destruct VPXBoolReader_range_invariant as (Hall & Hstep & Hsplit).
  destruct (NewVPXBoolReader (bytesReader [56; 0])) as [r| |] eqn:Hnew;
    [|vm_compute in Hnew; discriminate..].
  destruct (runCalls r [CallGetGrid (freshBranches 16); CallGetBit NewBranch])
    as [r'| |] eqn:Hrun.
  - exists r'. split; [exact Hrun|]. split.
    + exact (Hall _ _ _ _ Hnew Hrun).
    + apply Hsplit; [exists 255; split; [lia|reflexivity]|lia].
  - exfalso. vm_compute in Hnew. injection Hnew as <-.
    vm_compute in Hrun. discriminate.
  - exfalso. vm_compute in Hnew. injection Hnew as <-.
    vm_compute in Hrun. discriminate.
Defined.

(** C3: a value below 16 written with [PutGrid] over 16 fresh cells by a
    fresh writer and flushed with [Finish] is read back by a fresh
    reader with [GetGrid] over 16 fresh cells. *)
Theorem grid_roundtrip_16 (val : Z) :
  0 <= val < 16 -> grid_roundtrip val = Ok val.
Proof.
  intros H.
  assert (Hc : val = 0 \/ val = 1 \/ val = 2 \/ val = 3 \/ val = 4 \/ val = 5
               \/ val = 6 \/ val = 7 \/ val = 8 \/ val = 9 \/ val = 10
               \/ val = 11 \/ val = 12 \/ val = 13 \/ val = 14 \/ val = 15)
    by lia.
  repeat (destruct Hc as [-> | Hc]; [vm_compute; reflexivity|]).
  subst val. vm_compute. reflexivity.
Qed.

Lemma grid_roundtrip_16_witness :
  grid_roundtrip 0 = Ok 0 /\ grid_roundtrip 1 = Ok 1
  /\ grid_roundtrip 7 = Ok 7 /\ grid_roundtrip 15 = Ok 15.
Proof.
  split; [|split; [|split]]; apply grid_roundtrip_16; lia.
Defined.

End VPXFacts.

(** ** BitWriter: byte stuffing *)

Section BitWriterFacts.
Import BitWriter BitWriterInv.

Lemma ffEscaped_app a b : ffEscaped a -> ffEscaped b -> ffEscaped (a ++ b).
Proof.
  induction a as [|x a IH]; simpl; [auto|].
  intros [Hx Ha] Hb. split; [|auto].
  intros Hff. destruct (Hx Hff) as [r ->]. simpl. eauto.
Qed.

Lemma appendFFEncoded_app buf b : appendFFEncoded buf b = buf ++ ffEncoded b.
Proof. unfold appendFFEncoded, ffEncoded. destruct (b =? 255); reflexivity. Qed.

Lemma ffEncoded_escaped b : ffEscaped (ffEncoded b).
Proof.
  unfold ffEncoded. destruct (b =? 255) eqn:E; cbn [ffEscaped].
  - repeat split; eauto; intros; discriminate.
  - apply Z.eqb_neq in E. repeat split. intros; contradiction.
Qed.

Lemma emits_same w w' : dataBuffer w' = dataBuffer w -> emits w w'.
Proof. intros H. exists []. rewrite app_nil_r. simpl. auto. Qed.

Lemma emits_refl w : emits w w.
Proof. apply emits_same. reflexivity. Qed.

Lemma emits_trans w1 w2 w3 : emits w1 w2 -> emits w2 w3 -> emits w1 w3.
Proof.
  intros (e1 & H1 & He1) (e2 & H2 & He2). exists (e1 ++ e2).
  rewrite H2, H1, app_assoc. auto using ffEscaped_app.
Qed.

Lemma writeFFEncoded_loop_emits k : forall i fill buf,
  exists emitted,
    writeFFEncoded_loop k i fill buf = buf ++ emitted /\ ffEscaped emitted.
Proof.
  induction k as [|k IH]; intros i fill buf; simpl.
  - exists []. rewrite app_nil_r. simpl. auto.
  - rewrite appendFFEncoded_app.
    destruct (IH (i + 1) fill
                (buf ++ ffEncoded (u8 (Z.shiftr fill (56 - i * 8)))))
      as (e & -> & He).
    eexists. rewrite <- app_assoc. split; [reflexivity|].
    auto using ffEscaped_app, ffEncoded_escaped.
Qed.

Lemma Write_emits w val numBits : emits w (Write w val numBits).
Proof.
  unfold Write.
  destruct (numBits =? 0); [apply emits_refl|].
  destruct (numBits <=? currentBit w); [apply emits_same; reflexivity|].
  unfold emits, writeFFEncoded. cbn [dataBuffer].
  apply writeFFEncoded_loop_emits.
Qed.

Lemma Write_typed w val numBits : typed w -> typed (Write w val numBits).
Proof.
  unfold typed, Write. intros H.
  destruct (numBits =? 0); [exact H|].
  destruct (numBits <=? currentBit w); cbn [currentBit]; unfold u32;
    apply Z.mod_pos_bound; lia.
Qed.

Lemma flushWholeBytes_loop_total fuel : forall w,
  typed w -> 64 - 8 * Z.of_nat fuel <= currentBit w ->
  exists w', flushWholeBytes_loop fuel w = Some w'
             /\ emits w w' /\ typed w' /\ 56 < currentBit w'.
Proof.
  induction fuel as [|fuel IH]; intros w Ht Hf.
  - cbn [flushWholeBytes_loop]. destruct (currentBit w <=? 56) eqn:E.
    + apply Z.leb_le in E. lia.
    + apply Z.leb_gt in E. exists w. auto using emits_refl.
  - cbn [flushWholeBytes_loop]. destruct (currentBit w <=? 56) eqn:E.
    + apply Z.leb_le in E. unfold typed in Ht.
      assert (Hu : u32 (currentBit w + 8) = currentBit w + 8)
        by (unfold u32; apply Z.mod_small; lia).
      set (w1 := mkBitWriter
                   (appendFFEncoded (dataBuffer w)
                      (u8 (Z.shiftr (fillRegister w) 56)))
                   (shl64 (fillRegister w) 8) (u32 (currentBit w + 8))).
      assert (Ht1 : typed w1)
        by (unfold typed, w1; cbn [currentBit]; rewrite Hu; lia).
      assert (Hf1 : 64 - 8 * Z.of_nat fuel <= currentBit w1)
        by (unfold w1; cbn [currentBit]; rewrite Hu; lia).
      destruct (IH w1 Ht1 Hf1) as (w' & Hw' & Hem & Ht' & Hc').
      exists w'. split; [exact Hw'|]. split; [|auto].
      eapply emits_trans; [|exact Hem].
      exists (ffEncoded (u8 (Z.shiftr (fillRegister w) 56))).
      unfold w1. cbn [dataBuffer].
      rewrite appendFFEncoded_app. auto using ffEncoded_escaped.
    + apply Z.leb_gt in E. exists w. auto using emits_refl.
Qed.

Lemma flushWholeBytes_total w :
  typed w ->
  exists w', flushWholeBytes w = Some w' /\ emits w w' /\ typed w'.
Proof.
  intros Ht.
  assert (Hf : 64 - 8 * Z.of_nat 8 <= currentBit w).
  { unfold typed in Ht. change (Z.of_nat 8) with 8. lia. }
  destruct (flushWholeBytes_loop_total 8 w Ht Hf) as (w' & H & He & Ht' & _).
  exists w'. auto.
Qed.

Lemma land7 x : Z.land x 7 = x mod 8.
Proof. change 7 with (Z.ones 3). rewrite Z.land_ones by lia. reflexivity. Qed.

Lemma Write_one_bit w bit :
  typed w -> currentBit w mod 8 <> 0 ->
  currentBit (Write w bit 1) = currentBit w - 1.
Proof.
  unfold typed, Write. intros Ht Hm.
  change (1 =? 0) with false. cbv iota.
  destruct (1 <=? currentBit w) eqn:E1; cbn [currentBit].
  - apply Z.leb_le in E1. unfold u32. apply Z.mod_small. lia.
  - apply Z.leb_gt in E1. assert (H0 : currentBit w = 0) by lia.
    rewrite H0 in Hm. exfalso. apply Hm. reflexivity.
Qed.

Lemma Pad_loop_total fuel : forall fillBit offset w,
  typed w -> currentBit w mod 8 <= Z.of_nat fuel ->
  exists w', Pad_loop fuel fillBit offset w = Some w'
             /\ emits w w' /\ typed w'.
Proof.
  induction fuel as [|fuel IH]; intros fillBit offset w Ht Hf;
    cbn [Pad_loop]; rewrite land7;
    destruct (currentBit w mod 8 =? 0) eqn:E; cbn [negb];
    try (exists w; solve [auto using emits_refl]).
  - apply Z.eqb_neq in E. pose proof (Z.mod_pos_bound (currentBit w) 8).
    change (Z.of_nat 0) with 0 in Hf. lia.
  - apply Z.eqb_neq in E.
    set (bit := if negb (Z.land fillBit (u8 offset) =? 0) then 1 else 0).
    pose proof (Write_one_bit w bit Ht E) as Hcb.
    assert (Hm : currentBit (Write w bit 1) mod 8 <= Z.of_nat fuel).
    { rewrite Hcb.
      pose proof (Z.mod_pos_bound (currentBit w) 8).
      pose proof (Z.mod_pos_bound (currentBit w - 1) 8).
      pose proof (Z.div_mod (currentBit w) 8).
      pose proof (Z.div_mod (currentBit w - 1) 8). lia. }
    destruct (IH fillBit (shl32 offset 1) (Write w bit 1)
                (Write_typed w bit 1 Ht) Hm)
      as (w' & Hw' & Hem & Ht').
    exists w'. split; [exact Hw'|]. split; [|auto].
    eapply emits_trans; [apply Write_emits|exact Hem].
Qed.

Lemma Pad_total w fillBit :
  typed w -> exists w', Pad w fillBit = Some w' /\ emits w w' /\ typed w'.
Proof.
  intros Ht. unfold Pad.
  assert (Hm : currentBit w mod 8 <= Z.of_nat 7).
  { pose proof (Z.mod_pos_bound (currentBit w) 8).
    change (Z.of_nat 7) with 7. lia. }
  destruct (Pad_loop_total 7 fillBit 1 w Ht Hm) as (w1 & -> & He1 & Ht1).
  destruct (flushWholeBytes_total w1 Ht1) as (w2 & -> & He2 & Ht2).
  exists w2. eauto using emits_trans.
Qed.

Lemma runBitOp_total w op :
  typed w -> exists w', runBitOp w op = Some w' /\ emits w w' /\ typed w'.
Proof.
  intros Ht. destruct op as [val numBits|fillBit|]; cbn [runBitOp].
  - eexists. eauto using Write_emits, Write_typed.
  - apply Pad_total, Ht.
  - apply flushWholeBytes_total, Ht.
Qed.

(** C7: whatever the writer has in its buffer, any sequence of [Write],
    [Pad] and [flushWholeBytes] calls runs to completion and only
    appends bytes in which every [0xFF] is immediately followed by
    [0x00]; a [0xFF] without the stuffed byte can therefore only have
    been put there by [WriteByte] or [WriteByteUnescaped]. *)
Theorem BitWriter_bit_path_escaped (w : BitWriter) (ops : list BitOp) :
  typed w ->
  exists w' emitted,
    runBitOps w ops = Some w'
    /\ dataBuffer w' = dataBuffer w ++ emitted
    /\ ffEscaped emitted.
Proof.
  revert w. induction ops as [|op ops IH]; intros w Ht; cbn [runBitOps].
  - exists w, []. rewrite app_nil_r. cbn [ffEscaped]. auto.
  - destruct (runBitOp_total w op Ht) as (w1 & -> & (e1 & H1 & He1) & Ht1).
    destruct (IH w1 Ht1) as (w' & e2 & Hrun & H2 & He2).
    exists w', (e1 ++ e2). rewrite Hrun, H2, H1, app_assoc.
    auto using ffEscaped_app.
Qed.

Lemma BitWriter_bit_path_escaped_witness :
  exists w' emitted,
    runBitOps NewBitWriter
      [OpWrite 0xFF 8; OpWrite 0x1 4; OpPad 0xFF; OpFlushWholeBytes]
    = Some w'
    /\ dataBuffer w' = dataBuffer NewBitWriter ++ emitted
    /\ ffEscaped emitted.
Proof.
  apply (BitWriter_bit_path_escaped NewBitWriter).
  unfold typed, NewBitWriter. cbn [currentBit]. lia.
Defined.

(** The unescaped API does put a bare [0xFF] into the buffer. *)
Lemma WriteByte_not_escaped :
  ~ ffEscaped (dataBuffer (WriteByte NewBitWriter 0xFF))
  /\ ~ ffEscaped (dataBuffer (WriteByteUnescaped NewBitWriter 0xFF)).
Proof.
  split; cbn; intros [H _]; destruct (H eq_refl) as [r Hr]; discriminate.
Qed.

Example TestBitWriter :
  match runBitOps NewBitWriter
          [OpWrite 0x1 4; OpWrite 0x2 4; OpWrite 0x3 4; OpWrite 0x4 4;
           OpPad 0xFF] with
  | Some w => option_map fst (DetachBuffer w) = Some [0x12; 0x34]
  | None => False
  end.
Proof. vm_compute. reflexivity. Qed.

End BitWriterFacts.

(** ** BitReader: reading the entropy-coded segment *)

Section BitReaderFacts.
Import BitReader BitReaderInv BitReaderPost.

Lemma testbit_byte_high b i : 0 <= b < 256 -> 8 <= i -> Z.testbit b i = false.
Proof.
  intros Hb Hi. destruct (Z.eq_dec b 0) as [->|Hn].
  - apply Z.testbit_0_l.
  - apply Z.bits_above_log2; [lia|].
    assert (Z.log2 b < 8) by (apply Z.log2_lt_pow2; [lia|change (2 ^ 8) with 256; lia]).
    lia.
Qed.

Lemma testbit_shl64_8 x i :
  0 <= i < 64 ->
  Z.testbit (shl64 x 8) i = if i <? 8 then false else Z.testbit x (i - 8).
Proof.
  intros Hi. unfold shl64, u64.
  rewrite Z.mod_pow2_bits_low by lia.
  rewrite Z.shiftl_spec by lia.
  destruct (i <? 8) eqn:E; [|reflexivity].
  apply Z.ltb_lt in E. apply Z.testbit_neg_r. lia.
Qed.

Lemma at_nil i : at_ [] i = 0.
Proof. unfold at_. destruct (Z.to_nat i); reflexivity. Qed.

Lemma at_cons b bs i : 0 <= i -> at_ (b :: bs) (i + 1) = at_ bs i.
Proof.
  intros Hi. unfold at_.
  replace (Z.to_nat (i + 1)) with (S (Z.to_nat i)) by lia. reflexivity.
Qed.

Lemma byteStream_nil j : byteStream [] j = false.
Proof. unfold byteStream. rewrite at_nil. apply Z.testbit_0_l. Qed.

Lemma byteStream_cons b bs j :
  0 <= j ->
  byteStream (b :: bs) j
  = if j <? 8 then Z.testbit b (7 - j) else byteStream bs (j - 8).
Proof.
  intros Hj. unfold byteStream.
  destruct (j <? 8) eqn:E.
  - apply Z.ltb_lt in E.
    rewrite Z.div_small, Z.mod_small by lia. reflexivity.
  - apply Z.ltb_ge in E.
    replace j with ((j - 8) + 1 * 8) at 1 2 by lia.
    rewrite Z.div_add, Z.mod_add by lia.
    rewrite at_cons by (apply Z.div_pos; lia). reflexivity.
Qed.

(** Shifting one more byte into the register leaves the stream ahead
    unchanged. *)
Lemma stream_push r r' b :
  0 <= bitsLeft r <= 56 -> 0 <= b < 256 ->
  bits r' = Z.lor (shl64 (bits r) 8) b ->
  bitsLeft r' = bitsLeft r + 8 ->
  (forall j, 0 <= j ->
     byteStream (fst (spec_unstuff (inner r))) j
     = if j <? 8 then Z.testbit b (7 - j)
       else byteStream (fst (spec_unstuff (inner r'))) (j - 8)) ->
  forall k, 0 <= k -> spec_stream r' k = spec_stream r k.
Proof.
  intros Hl Hb Hbits Hleft Hbs k Hk. unfold spec_stream.
  rewrite Hbits, Hleft.
  destruct (k <? bitsLeft r) eqn:E1.
  - apply Z.ltb_lt in E1.
    destruct (k <? bitsLeft r + 8) eqn:E2; [|apply Z.ltb_ge in E2; lia].
    rewrite Z.lor_spec, testbit_shl64_8 by lia.
    rewrite (testbit_byte_high b) by lia.
    destruct (bitsLeft r + 8 - 1 - k <? 8) eqn:E3;
      [apply Z.ltb_lt in E3; lia|].
    rewrite orb_false_r. f_equal. lia.
  - apply Z.ltb_ge in E1. rewrite Hbs by lia.
    destruct (k <? bitsLeft r + 8) eqn:E2.
    + apply Z.ltb_lt in E2.
      rewrite Z.lor_spec, testbit_shl64_8 by lia.
      destruct (bitsLeft r + 8 - 1 - k <? 8) eqn:E3;
        [|apply Z.ltb_ge in E3; lia].
      destruct (k - bitsLeft r <? 8) eqn:E4;
        [|apply Z.ltb_ge in E4; lia].
      cbn [orb]. f_equal. lia.
    + apply Z.ltb_ge in E2.
      destruct (k - bitsLeft r <? 8) eqn:E4;
        [apply Z.ltb_lt in E4; lia|].
      f_equal. lia.
Qed.

(** An input that ends in a lone [0xFF] has at least that byte. *)
Lemma lastFF_length input :
  spec_lastFF input = true ->
  (1 <= length (fst (spec_unstuff input)))%nat.
Proof.
  induction input as [input IH] using (induction_ltof1 _ (@length _)).
  unfold ltof in IH.
  destruct input as [|[b|] rest]; cbn [spec_lastFF spec_unstuff];
    try discriminate.
  destruct (b =? 255).
  - destruct rest as [|[next|] rest']; try discriminate.
    + intros _. cbn. lia.
    + destruct (next =? 0); [|discriminate]. intros H.
      destruct (spec_unstuff rest'). cbn [fst length]. lia.
  - intros H. destruct (spec_unstuff rest). cbn [fst length]. lia.
Qed.

(** With [n] bits in the register no byte is fetched. *)
Lemma fetchesLastFF_done r n :
  n <= bitsLeft r -> fetchesLastFF r n = false.
Proof.
  intros Hn. unfold fetchesLastFF.
  destruct (spec_lastFF (inner r)) eqn:E; [|reflexivity].
  apply lastFF_length in E. cbn [andb]. apply Z.ltb_ge.
  unfold avail. lia.
Qed.

Lemma fill_post_done r n :
  wf r -> n <= bitsLeft r -> fill_post r n (Some (Ok r)).
Proof.
  intros Hwf Hn. unfold fill_post.
  assert (Hge : n <= avail r) by (unfold avail; lia).
  assert (Ha : (avail r <? n) = false) by (apply Z.ltb_ge; lia).
  rewrite Ha, fetchesLastFF_done, !orb_false_r by exact Hn.
  repeat split; try lia; try apply Hwf.
Qed.

(** One loop iteration that took the reader from [r] to [r'] carries
    the result of the remaining iterations back to [r]. *)
Lemma fill_post_step r r' n res :
  bitsLeft r < n -> bitsLeft r' = bitsLeft r + 8 ->
  (forall k, 0 <= k -> spec_stream r' k = spec_stream r k) ->
  ending r' = ending r ->
  avail r <= avail r' ->
  (avail r < n -> avail r' < n \/ ending r = AtEOF) ->
  (eof r' || (avail r' <? n)) = (eof r || (avail r <? n)) ->
  (truncatedFF r' || fetchesLastFF r' n)
  = (truncatedFF r || fetchesLastFF r n) ->
  fill_post r' n res -> fill_post r n res.
Proof.
  intros Hlt Hbl Hst Hend Hav Hat Heof Htr. unfold fill_post.
  destruct res as [[r1|[| x | |]|]|]; try tauto.
  - intros (Hb & Hwf & Hs & He & Hen & Hae & Ht).
    repeat split; try lia; try apply Hwf.
    + intros k Hk. rewrite Hs by exact Hk. apply Hst, Hk.
    + congruence.
    + congruence.
    + intros Hr. destruct (Hat Hr) as [H|H]; [|exact H].
      rewrite <- Hend. apply Hae, H.
    + congruence.
  - intros (Ha & He & Hx). repeat split; try lia; congruence.
  - intros (Ha & He). repeat split; try lia; congruence.
Qed.

Lemma u32_small x : 0 <= x < 2 ^ 32 -> u32 x = x.
Proof. intros H. unfold u32. apply Z.mod_small, H. Qed.

Lemma shl64_range x n : 0 <= shl64 x n < 2 ^ 64.
Proof. unfold shl64, u64. apply Z.mod_pos_bound. lia. Qed.

Lemma lor_byte_range x b :
  0 <= x < 2 ^ 64 -> 0 <= b < 256 -> 0 <= Z.lor x b < 2 ^ 64.
Proof.
  intros Hx Hb. split; [apply Z.lor_nonneg; lia|].
  destruct (Z.eq_dec (Z.lor x b) 0) as [->|Hn]; [lia|].
  assert (H0 : 0 <= Z.lor x b) by (apply Z.lor_nonneg; lia).
  apply Z.log2_lt_pow2; [lia|].
  rewrite Z.log2_lor by lia.
  apply Z.max_lub_lt.
  - destruct (Z.eq_dec x 0) as [->|Hx0]; [simpl; lia|].
    apply Z.log2_lt_pow2; lia.
  - destruct (Z.eq_dec b 0) as [->|Hb0]; [simpl; lia|].
    apply Z.log2_lt_pow2; [lia|]. change (2 ^ 64) with 18446744073709551616. lia.
Qed.

Lemma unstuff_plain b rest :
  (b =? 255) = false ->
  spec_unstuff (Data b :: rest)
  = (b :: fst (spec_unstuff rest), snd (spec_unstuff rest)).
Proof.
  intros Hb. cbn [spec_unstuff]. rewrite Hb.
  destruct (spec_unstuff rest). reflexivity.
Qed.

Lemma unstuff_escaped rest :
  spec_unstuff (Data 255 :: Data 0 :: rest)
  = (255 :: fst (spec_unstuff rest), snd (spec_unstuff rest)).
Proof.
  cbn [spec_unstuff]. change (255 =? 255) with true.
  change (0 =? 0) with true. cbv iota.
  destruct (spec_unstuff rest). reflexivity.
Qed.

Lemma unstuff_truncated : spec_unstuff [Data 255] = ([255], AtEOF).
Proof. reflexivity. Qed.

Lemma unstuff_bad next rest :
  (next =? 0) = false ->
  spec_unstuff (Data 255 :: Data next :: rest) = ([], BadMarker next).
Proof.
  intros Hn. cbn [spec_unstuff]. change (255 =? 255) with true.
  cbv iota. rewrite Hn. reflexivity.
Qed.

(** The effect of consuming the unstuffed byte [b]: the reader [r'] has
    it in the register and the rest of the bytes ahead. *)
Lemma consume_byte r r' n b res :
  wf r -> bitsLeft r < n -> n <= 57 -> 0 <= b < 256 ->
  bits r' = Z.lor (shl64 (bits r) 8) b ->
  bitsLeft r' = bitsLeft r + 8 ->
  eof r' = eof r ->
  fst (spec_unstuff (inner r)) = b :: fst (spec_unstuff (inner r')) ->
  snd (spec_unstuff (inner r)) = snd (spec_unstuff (inner r')) ->
  (truncatedFF r' = truncatedFF r
   /\ spec_lastFF (inner r') = spec_lastFF (inner r))
  \/ (truncatedFF r' = true /\ spec_lastFF (inner r) = true
      /\ inner r' = []) ->
  fill_post r' n res -> fill_post r n res.
Proof.
  intros (Hbits & Hbl & Hin) Hlt Hn Hb Hb' Hbl' Heof Hfst Hsnd Htr.
  assert (Hav : avail r' = avail r).
  { unfold avail. rewrite Hfst, Hbl'. cbn [length]. lia. }
  apply fill_post_step; try assumption.
  - apply (stream_push r r' b); try assumption; try lia.
    intros j Hj. rewrite Hfst. apply byteStream_cons, Hj.
  - unfold ending. congruence.
  - lia.
  - lia.
  - rewrite Hav, Heof. reflexivity.
  - unfold fetchesLastFF. rewrite Hav.
    destruct Htr as [[Ht Hl]|(Ht & Hl & Hnil)].
    + rewrite Ht, Hl. reflexivity.
    + (* the lone 0xFF has just been consumed *)
      rewrite Ht, Hl. cbn [orb andb].
      assert (Hone : (avail r - 8 <? n) = true).
      { apply Z.ltb_lt. unfold avail. rewrite Hfst, Hnil.
        cbn [spec_unstuff fst length]. lia. }
      rewrite Hone, orb_true_r. reflexivity.
Qed.

Lemma wf_mk i b l c e t :
  0 <= b < 2 ^ 64 -> 0 <= l <= 64 -> Forall isByte i ->
  wf (mkBitReader i b l c e t).
Proof. intros. repeat split; cbn [bits bitsLeft inner]; tauto || lia. Qed.

Lemma fillRegister_spec fuel : forall r n,
  wf r -> n <= 57 -> n - bitsLeft r <= 8 * Z.of_nat fuel ->
  fill_post r n (fillRegister fuel r n).
Proof.
  induction fuel as [|fuel IH]; intros r n Hwf Hn Hfuel;
    cbn [fillRegister];
    destruct (bitsLeft r <? n) eqn:Elt;
    try (apply Z.ltb_ge in Elt; apply fill_post_done; assumption);
    apply Z.ltb_lt in Elt.
  - change (Z.of_nat 0) with 0 in Hfuel. lia.
  - pose proof Hwf as (Hbits & Hbl & Hin).
    assert (Hu : u32 (bitsLeft r + 8) = bitsLeft r + 8)
      by (apply u32_small; lia).
    assert (Hfuel' : forall r', bitsLeft r' = bitsLeft r + 8 ->
              n - bitsLeft r' <= 8 * Z.of_nat fuel) by (intros; lia).
    rewrite Hu.
    destruct (inner r) as [|[b|] rest] eqn:Einner; cbn [readByte].
    + (* end of input: zero bits, EOF flag *)
      set (r' := mkBitReader [] (shl64 (bits r) 8) (bitsLeft r + 8)
                              (cpos r) true (truncatedFF r)).
      assert (Hwf' : wf r')
        by (apply wf_mk; [apply shl64_range|lia|constructor]).
      assert (Hav : avail r = bitsLeft r)
        by (unfold avail; rewrite Einner; cbn; lia).
      assert (Hav' : avail r' = bitsLeft r + 8) by (unfold avail; cbn; lia).
      apply (fill_post_step r r'); try assumption; try reflexivity.
      * apply (stream_push r r' 0); try lia.
        -- cbn [bits r']. rewrite Z.lor_0_r. reflexivity.
        -- reflexivity.
        -- intros j Hj. cbn [inner r']. rewrite Einner.
           cbn [spec_unstuff fst]. rewrite !byteStream_nil.
           rewrite Z.testbit_0_l. destruct (j <? 8); reflexivity.
      * unfold ending. cbn [inner r']. rewrite Einner. reflexivity.
      * lia.
      * intros _. right. unfold ending. rewrite Einner. reflexivity.
      * cbn [eof r']. rewrite Hav.
        assert (Ht : (bitsLeft r <? n) = true) by (apply Z.ltb_lt; lia).
        rewrite Ht, orb_true_r. reflexivity.
      * unfold fetchesLastFF. cbn [truncatedFF inner r'].
        rewrite Einner. reflexivity.
      * apply IH; [exact Hwf'|exact Hn|apply Hfuel'; reflexivity].
    + assert (Hb : 0 <= b < 256) by (inversion Hin; assumption).
      assert (Hrest : Forall isByte rest) by (inversion Hin; assumption).
      destruct (b =? 255) eqn:Eb.
      * apply Z.eqb_eq in Eb. subst b.
        destruct rest as [|[next|] rest'] eqn:Erest; cbn [readByte].
        -- (* 0xFF is the last byte *)
           set (r' := mkBitReader [] (Z.lor (shl64 (bits r) 8) 255)
                        (bitsLeft r + 8) (cpos r) (eof r) true).
           apply (consume_byte r r' n 255); try assumption;
             try reflexivity; try lia.
           ++ rewrite Einner. reflexivity.
           ++ rewrite Einner. reflexivity.
           ++ right. rewrite Einner. repeat split; reflexivity.
           ++ apply IH; [|exact Hn|apply Hfuel'; reflexivity].
              apply wf_mk;
                [apply lor_byte_range; [apply shl64_range|lia]
                |lia|constructor].
        -- assert (Hnx : 0 <= next < 256)
             by (inversion Hrest; assumption).
           assert (Hrest' : Forall isByte rest')
             by (inversion Hrest; assumption).
           destruct (next =? 0) eqn:En.
           ++ apply Z.eqb_eq in En. subst next.
              set (r' := mkBitReader rest' (Z.lor (shl64 (bits r) 8) 255)
                           (bitsLeft r + 8) (cpos r) (eof r) (truncatedFF r)).
              apply (consume_byte r r' n 255); try assumption;
                try reflexivity; try lia.
              ** rewrite Einner, unstuff_escaped. reflexivity.
              ** rewrite Einner, unstuff_escaped. reflexivity.
              ** left. rewrite Einner. split; reflexivity.
              ** apply IH; [|exact Hn|apply Hfuel'; reflexivity].
                 apply wf_mk;
                   [apply lor_byte_range; [apply shl64_range|lia]
                   |lia|exact Hrest'].
           ++ unfold fill_post, avail, ending.
              rewrite Einner, (unstuff_bad next rest' En).
              cbn [fst snd length]. apply Z.eqb_neq in En.
              repeat split; try lia; assumption.
        -- unfold fill_post, avail, ending. rewrite Einner.
           cbn [spec_unstuff fst snd length].
           change (255 =? 255) with true. cbn [fst snd length].
           split; [lia|reflexivity].
      * set (r' := mkBitReader rest (Z.lor (shl64 (bits r) 8) b)
                     (bitsLeft r + 8) (cpos r) (eof r) (truncatedFF r)).
        apply (consume_byte r r' n b); try assumption;
          try reflexivity; try lia.
        -- rewrite Einner, (unstuff_plain b rest Eb). reflexivity.
        -- rewrite Einner, (unstuff_plain b rest Eb). reflexivity.
        -- left. rewrite Einner. cbn [spec_lastFF truncatedFF inner r'].
           rewrite Eb. split; reflexivity.
        -- apply IH; [|exact Hn|apply Hfuel'; reflexivity].
           apply wf_mk;
             [apply lor_byte_range; [apply shl64_range|lia]
             |lia|exact Hrest].
    + unfold fill_post, avail, ending. rewrite Einner.
      cbn [spec_unstuff fst snd length]. split; [lia|reflexivity].
Qed.

Lemma bits_value_ext f g n :
  (forall k, 0 <= k < Z.of_nat n -> f k = g k) ->
  spec_bits_value f n = spec_bits_value g n.
Proof.
  induction n as [|n IH]; intros H; cbn [spec_bits_value]; [reflexivity|].
  rewrite IH by (intros k Hk; apply H; lia).
  rewrite H by lia. reflexivity.
Qed.

(** The top [n] of the low [L] bits of [x], read most significant
    first. *)
Lemma bits_value_register x L n :
  0 <= x -> Z.of_nat n <= L ->
  spec_bits_value (fun k => Z.testbit x (L - 1 - k)) n
  = (x / 2 ^ (L - Z.of_nat n)) mod 2 ^ Z.of_nat n.
Proof.
  intros Hx. induction n as [|n IH]; intros HL; cbn [spec_bits_value].
  - change (Z.of_nat 0) with 0. rewrite Z.pow_0_r, Z.mod_1_r. reflexivity.
  - rewrite IH by lia.
    set (y := x / 2 ^ (L - Z.of_nat (S n))).
    assert (Hy : x / 2 ^ (L - Z.of_nat n) = y / 2).
    { unfold y. replace (L - Z.of_nat n) with (L - Z.of_nat (S n) + 1) by lia.
      rewrite Z.pow_add_r by lia. rewrite Z.pow_1_r.
      rewrite Z.div_div by (try apply Z.pow_pos_nonneg; lia). reflexivity. }
    assert (Hb : Z.b2z (Z.testbit x (L - 1 - Z.of_nat n)) = y mod 2).
    { unfold y. rewrite <- Z.shiftr_div_pow2 by lia.
      rewrite <- Z.bit0_mod. rewrite Z.shiftr_spec by lia.
      do 2 f_equal. lia. }
    rewrite Hy, Hb.
    replace (Z.of_nat (S n)) with (1 + Z.of_nat n) by lia.
    rewrite Z.pow_add_r by lia. rewrite Z.pow_1_r.
    rewrite Z.rem_mul_r by (try apply Z.pow_nonzero; try apply Z.pow_pos_nonneg; lia).
    lia.
Qed.

Lemma pow2_le_16 n : 0 <= n <= 16 -> 0 < 2 ^ n <= 2 ^ 16.
Proof.
  intros H. split; [apply Z.pow_pos_nonneg; lia|].
  apply Z.pow_le_mono_r; lia.
Qed.

(** The value [Read] extracts from a register holding at least [n]
    bits. *)
Lemma retval_value x L n :
  0 <= x -> 0 <= n <= 16 -> n <= L <= 64 ->
  u16 (Z.land (Z.shiftr x (u32 (L - n))) (u64 (shl64 1 n - 1)))
  = (x / 2 ^ (L - n)) mod 2 ^ n.
Proof.
  intros Hx Hn HL. pose proof (pow2_le_16 n Hn) as Hp.
  rewrite u32_small by lia.
  assert (H1 : shl64 1 n = 2 ^ n).
  { unfold shl64, u64. rewrite Z.shiftl_1_l.
    apply Z.mod_small. change (2 ^ 16) with 65536 in Hp.
    change (2 ^ 64) with 18446744073709551616. lia. }
  rewrite H1.
  assert (H2 : u64 (2 ^ n - 1) = Z.ones n).
  { rewrite Z.ones_equiv. unfold u64. apply Z.mod_small.
    change (2 ^ 16) with 65536 in Hp.
    change (2 ^ 64) with 18446744073709551616. lia. }
  rewrite H2, Z.land_ones, Z.shiftr_div_pow2 by lia.
  unfold u16. apply Z.mod_small.
  pose proof (Z.mod_pos_bound (x / 2 ^ (L - n)) (2 ^ n)). lia.
Qed.

Lemma Read_spec r n : wf r -> 0 <= n <= 16 -> read_post r n (Read r n).
Proof.
  intros Hwf Hn. unfold Read.
  destruct (n =? 0) eqn:E0.
  - apply Z.eqb_eq in E0. subst n. unfold read_post.
    change (Z.to_nat 0) with 0%nat. cbn [spec_bits_value].
    assert (Hge : 0 <= avail r)
      by (unfold avail; destruct Hwf as (_ & Hbl & _); lia).
    assert (Ha : (avail r <? 0) = false) by (apply Z.ltb_ge; lia).
    rewrite Ha, fetchesLastFF_done, !orb_false_r
      by (destruct Hwf as (_ & Hbl & _); lia).
    repeat split; try apply Hwf; try lia.
  - apply Z.eqb_neq in E0.
    assert (Hfill : fill_post r n
              (if bitsLeft r <? n
               then fillRegister (Z.to_nat (n / 8 + 1)) r n
               else Some (Ok r))).
    { destruct (bitsLeft r <? n) eqn:Elt.
      - apply fillRegister_spec; [exact Hwf|lia|].
        destruct Hwf as (_ & Hbl & _).
        pose proof (Z.div_mod n 8). pose proof (Z.mod_pos_bound n 8).
        assert (0 <= n / 8) by (apply Z.div_pos; lia). lia.
      - apply Z.ltb_ge in Elt. apply fill_post_done; assumption. }
    destruct (if bitsLeft r <? n then _ else _)
      as [[r1|[| x | |]|]|]; cbn [fill_post] in Hfill; try tauto;
      try exact Hfill.
    destruct Hfill
      as (Hb & (Hbits1 & Hbl1 & Hin1) & Hs & He & Hen & Hae & Ht).
    assert (HL : n <= bitsLeft r1 <= 64) by lia.
    unfold read_post. repeat split.
    + rewrite retval_value by lia.
      rewrite <- (Z2Nat.id n) at 1 2 by lia.
      rewrite <- bits_value_register by lia.
      apply bits_value_ext. intros k Hk.
      rewrite <- Hs by lia. unfold spec_stream.
      destruct (k <? bitsLeft r1) eqn:Ek; [reflexivity|].
      apply Z.ltb_ge in Ek. lia.
    + intros j Hj. rewrite <- Hs by lia. unfold spec_stream.
      cbn [bits bitsLeft inner]. rewrite u32_small by lia.
      destruct (j <? bitsLeft r1 - n) eqn:E1;
        destruct (n + j <? bitsLeft r1) eqn:E2;
        rewrite ?Z.ltb_lt, ?Z.ltb_ge in *; try lia; f_equal; lia.
    + cbn [bits]. lia.
    + cbn [bits]. lia.
    + cbn [bitsLeft]. rewrite u32_small by lia. lia.
    + cbn [bitsLeft]. rewrite u32_small by lia. lia.
    + exact Hin1.
    + exact He.
    + exact Hen.
    + exact Hae.
    + exact Ht.
Qed.

(** C4 as the code has it: for [n] up to 16 (the result is a
    [uint16]), [Read] returns the next [n] bits of the unstuffed stream,
    most significant first, zero-extended after the end of the input,
    and leaves the rest of the stream ahead; it fails with
    [InvalidResetCode] exactly when the bytes it has to fetch run into
    an [0xFF] followed by a nonzero byte; and it sets the EOF flag
    exactly when it had to supply zero bits past the end of the input.
    An [0xFF] that is the last byte of the input counts as data (it is
    part of [spec_unstuff], hence of [avail]) and sets [truncatedFF]
    instead, exactly when the read has to fetch it.  A flag once set
    stays set, and a reader whose input ends cleanly never fails. *)
Theorem BitReader_Read_next_bits (r : BitReader) (n : Z) :
  wf r -> 0 <= n <= 16 ->
  ((exists v r',
       Read r n = Some (Ok (v, r'))
       /\ v = spec_bits_value (spec_stream r) (Z.to_nat n)
       /\ (forall j, 0 <= j -> spec_stream r' j = spec_stream r (n + j))
       /\ wf r'
       /\ (n <= avail r \/ ending r = AtEOF)
       /\ eof r' = (eof r || (avail r <? n))
       /\ truncatedFF r'
          = (truncatedFF r || (spec_lastFF (inner r) && (avail r - 8 <? n)))
       /\ ending r' = ending r)
   \/ (exists x,
          Read r n = Some (Error (ExitCodeInvalidResetCode x))
          /\ x <> 0 /\ avail r < n /\ ending r = BadMarker x)
   \/ (Read r n = Some (Error OtherReadError)
       /\ avail r < n /\ ending r = IoFailure))
  /\ (forall x,
        Read r n = Some (Error (ExitCodeInvalidResetCode x))
        <-> avail r < n /\ ending r = BadMarker x).
Proof.
  intros Hwf Hn. pose proof (Read_spec r n Hwf Hn) as Hp.
  assert (Hcases :
    (exists v r',
        Read r n = Some (Ok (v, r'))
        /\ v = spec_bits_value (spec_stream r) (Z.to_nat n)
        /\ (forall j, 0 <= j -> spec_stream r' j = spec_stream r (n + j))
        /\ wf r'
        /\ (n <= avail r \/ ending r = AtEOF)
        /\ eof r' = (eof r || (avail r <? n))
        /\ truncatedFF r'
           = (truncatedFF r || (spec_lastFF (inner r) && (avail r - 8 <? n)))
        /\ ending r' = ending r)
    \/ (exists x,
           Read r n = Some (Error (ExitCodeInvalidResetCode x))
           /\ x <> 0 /\ avail r < n /\ ending r = BadMarker x)
    \/ (Read r n = Some (Error OtherReadError)
        /\ avail r < n /\ ending r = IoFailure)).
  { unfold read_post in Hp.
    destruct (Read r n) as [[[v r']|[| x | |]|]|]; try contradiction.
    - left. exists v, r'.
      destruct Hp as (Hv & Hs & Hw & He & Hen & Hae & Ht).
      repeat split; try assumption; try apply Hw.
      destruct (Z.lt_ge_cases (avail r) n); [right; auto|left; lia].
    - right. left. exists x. tauto.
    - right. right. tauto. }
  split; [exact Hcases|].
  intros x. split.
  - intros Hr.
    destruct Hcases as [(v & r' & H & _)|[(y & H & _ & Ha & He)|(H & _)]];
      rewrite Hr in H; try discriminate.
    injection H as <-. auto.
  - intros (Ha & He).
    destruct Hcases as [(v & r' & _ & _ & _ & _ & [H|H] & _)
                       |[(y & H & _ & _ & Hy)|(_ & _ & H)]].
    + lia.
    + rewrite He in H. discriminate.
    + rewrite He in Hy. injection Hy as <-. exact H.
    + rewrite He in H. discriminate.
Qed.

Lemma BitReader_Read_next_bits_witness :
  let r := NewBitReader (bytesReader [0xA5; 0xFF]) in
  ((exists v r',
       Read r 12 = Some (Ok (v, r'))
       /\ v = spec_bits_value (spec_stream r) (Z.to_nat 12)
       /\ (forall j, 0 <= j -> spec_stream r' j = spec_stream r (12 + j))
       /\ wf r'
       /\ (12 <= avail r \/ ending r = AtEOF)
       /\ eof r' = (eof r || (avail r <? 12))
       /\ truncatedFF r'
          = (truncatedFF r || (spec_lastFF (inner r) && (avail r - 8 <? 12)))
       /\ ending r' = ending r)
   \/ (exists x,
          Read r 12 = Some (Error (ExitCodeInvalidResetCode x))
          /\ x <> 0 /\ avail r < 12 /\ ending r = BadMarker x)
   \/ (Read r 12 = Some (Error OtherReadError)
       /\ avail r < 12 /\ ending r = IoFailure))
  /\ (forall x,
        Read r 12 = Some (Error (ExitCodeInvalidResetCode x))
        <-> avail r < 12 /\ ending r = BadMarker x).
Proof.
  apply (BitReader_Read_next_bits
           (NewBitReader (bytesReader [0xA5; 0xFF])) 12).
  - unfold wf, NewBitReader, bytesReader. cbn [bits bitsLeft inner map].
    repeat split; try lia.
    repeat constructor; cbn [isByte]; lia.
  - lia.
Defined.

(** C4 as stated fails in two places.  (a) The input is the single byte
    [0xFF]: the first [Read(4)] meets the end of the input behind it,
    yet returns the one-bits [0xF] and leaves the EOF flag clear
    ([truncatedFF] is set instead); the following [Read(4)], after the
    end of the input, again returns [0xF] and again leaves the flag
    clear.  (b) [Read(17)] over seventeen one-bits returns [0xFFFF], not
    the 17-bit number [0x1FFFF]. *)
Lemma BitReader_Read_not_as_stated :
  (let r0 := NewBitReader (bytesReader [0xFF]) in
   let r1 := mkBitReader [] 0xFF 4 0 false true in
   let r2 := mkBitReader [] 0xFF 0 0 false true in
   Read r0 4 = Some (Ok (0xF, r1))
   /\ inner r1 = [] /\ eof r1 = false
   /\ Read r1 4 = Some (Ok (0xF, r2))
   /\ eof r2 = false)
  /\ (let r := NewBitReader (bytesReader [0xFF; 0; 0xFF; 0; 0xFF; 0]) in
      spec_bits_value (spec_stream r) 17 = 0x1FFFF
      /\ match Read r 17 with
         | Some (Ok (v, _)) => v = 0xFFFF
         | _ => False
         end).
Proof. vm_compute. repeat split; reflexivity. Qed.

End BitReaderFacts.

(** ** Optimal EOB runs *)

Section EobFacts.
Import Huffman JpegPositionState EobExample.

(** What [CheckOptimalEobrun] does for a given [maxEobRun] of at least
    one: it rejects exactly an empty block after a previous run counter
    in [1 .. maxEobRun - 2]. *)
Lemma CheckOptimalEobrun_characterised s empty m :
  1 <= m < 2 ^ 16 ->
  (CheckOptimalEobrun s empty m = Error ExitCodeUnsupportedJpeg
   <-> empty = true /\ 0 < PrevEobrun s /\ PrevEobrun s + 1 < m)
  /\ (CheckOptimalEobrun s empty m <> Error ExitCodeUnsupportedJpeg ->
      CheckOptimalEobrun s empty m = Ok (setPrevEobrun s (Eobrun s))).
Proof.
  intros Hm. unfold CheckOptimalEobrun.
  assert (Hu : u16 (m - 1) = m - 1) by (unfold u16; apply Z.mod_small; lia).
  rewrite Hu.
  destruct empty; cbn [andb];
    destruct (0 <? PrevEobrun s) eqn:E1; cbn [andb];
    try destruct (PrevEobrun s <? m - 1) eqn:E2;
    rewrite ?Z.ltb_lt, ?Z.ltb_ge in *;
    (split; [split; [intros H; try discriminate; repeat split; lia
                    |intros (H1 & H2 & H3); try discriminate; try lia;
                     try reflexivity]
            |intros H; try reflexivity; try contradiction]).
Qed.

(** C5: on the table with the symbols EOB0 and EOB1, the scan reader
    takes 2 as the longest EOB run while the scan writer's table gives
    3, so an empty block after a run of two (which had room left) is
    accepted instead of rejected. *)
Theorem CheckOptimalEobrun_accepts_extendable_run :
  getMaxEobRun acTable = Ok 2
  /\ (e ← buildEncodeTable acTable; Ok (maxEOBRun e)) = Ok 3
  /\ checkAfterBlock afterRunOfTwo 1 1 acTable
     = Ok (setPrevEobrun afterRunOfTwo 0).
Proof. repeat split; vm_compute; reflexivity. Qed.

End EobFacts.

(** ** Quantization tables: the edge noise floor *)

Section QuantFacts.
Import QuantizationTables QuantInv.

Lemma edge_position_cases i :
  0 <= i < 14 ->
  i = 0 \/ i = 1 \/ i = 2 \/ i = 3 \/ i = 4 \/ i = 5 \/ i = 6 \/ i = 7
  \/ i = 8 \/ i = 9 \/ i = 10 \/ i = 11 \/ i = 12 \/ i = 13.
Proof. lia. Qed.

(** The second loop stores [minNoiseAt qtable i] at index [i]. *)
Lemma fillMinNoise_at qtable i :
  0 <= i < 14 -> at_ (fillMinNoise qtable) i = minNoiseAt qtable i.
Proof.
  intros H. apply edge_position_cases in H.
  repeat (destruct H as [-> | H]; [reflexivity|]).
  subst i. reflexivity.
Qed.

Lemma minNoiseAt_Of qtable i :
  minNoiseAt qtable i = minNoiseOf i (at_ qtable (coordTR i)).
Proof. reflexivity. Qed.

Lemma MinNoiseThreshold_New table :
  MinNoiseThreshold (NewQuantizationTables table)
  = fillMinNoise (QTable (NewQuantizationTables table)).
Proof.
  unfold NewQuantizationTables.
  destruct (fillDivisors (fillQTable table)). reflexivity.
Qed.

Lemma small_q_check_all :
  forallb (fun i => forallb (small_q_check i) (zrange 1 8)) (zrange 0 14)
  = true.
Proof. vm_cast_no_check (eq_refl true). Qed.

Lemma freqMax_check_all : forallb freqMax_check (zrange 0 14) = true.
Proof. vm_cast_no_check (eq_refl true). Qed.

Lemma FreqMax_bound i : 0 <= i < 14 -> 1 <= at_ FreqMax i <= 1020.
Proof.
  intros H.
  pose proof (zrange_forallb _ 0 14 freqMax_check_all i) as Hc.
  change (Z.of_nat 14) with 14 in Hc. specialize (Hc ltac:(lia)).
  unfold freqMax_check in Hc.
  rewrite andb_true_iff, !Z.leb_le in Hc. exact Hc.
Qed.

(** From 9 on the rounded-up quotient is below 128, so its bit length
    does not exceed the noise floor. *)
Lemma spec_minNoise_large_q i q :
  0 <= i < 14 -> 9 <= q -> spec_minNoise i q = 0.
Proof.
  intros Hi Hq. pose proof (FreqMax_bound i Hi) as HF.
  unfold spec_minNoise, spec_ceil_div, spec_bit_length.
  set (F := at_ FreqMax i) in *.
  assert (Hlo : - 114 <= - F / q)
    by (apply Z.div_le_lower_bound; lia).
  assert (Hhi : - F / q < 0)
    by (apply Z.div_lt_upper_bound; lia).
  destruct (- (- F / q) <=? 0) eqn:E; [lia|].
  apply Z.leb_gt in E.
  assert (Hl : Z.log2 (- (- F / q)) < 7)
    by (apply Z.log2_lt_pow2; [lia|change (2 ^ 7) with 128; lia]).
  lia.
Qed.

Lemma minNoiseOf_spec i q :
  0 <= i < 14 -> 1 <= q -> minNoiseOf i q = spec_minNoise i q.
Proof.
  intros Hi Hq. destruct (Z.lt_ge_cases q 9) as [Hs|Hl].
  - pose proof (zrange_forallb _ 1 8
      (zrange_forallb _ 0 14 small_q_check_all i
         ltac:(change (Z.of_nat 14) with 14; lia))
      q ltac:(change (Z.of_nat 8) with 8; lia)) as Hc.
    unfold small_q_check in Hc. apply Z.eqb_eq in Hc. exact Hc.
  - rewrite spec_minNoise_large_q by lia.
    unfold minNoiseOf.
    destruct (q <? 9) eqn:E; [apply Z.ltb_lt in E; lia|reflexivity].
Qed.

(** The entry [NewQuantizationTables] reads for edge position [i] is
    the argument's entry at the zigzag index of that position. *)
Lemma edge_quantization_value (table : list Z) (i : Z) :
  0 <= i < 14 ->
  at_ (fillQTable table) (coordTR i) = at_ table (at_ spec_edgeZigzag i).
Proof.
  intros H. apply edge_position_cases in H.
  repeat (destruct H as [-> | H]; [reflexivity|]).
  subst i. reflexivity.
Qed.

Lemma edge_zigzag_raster (i : Z) :
  0 <= i < 14 ->
  at_ spec_edgeZigzag i = at_ RasterToZigzag (spec_edgeRaster i).
Proof.
  intros H. apply edge_position_cases in H.
  repeat (destruct H as [-> | H]; [reflexivity|]).
  subst i. reflexivity.
Qed.

Lemma QTable_New table :
  QTable (NewQuantizationTables table) = fillQTable table.
Proof.
  unfold NewQuantizationTables.
  destruct (fillDivisors (fillQTable table)). reflexivity.
Qed.

(** C6: for every quantization table (in zigzag order, as a DQT segment
    gives it) and every edge position [i] in 0..13, let [q] be the
    table's entry at that position, that is at the zigzag index of
    raster position [i + 1] for the first-row positions and
    [8 * (i - 6)] for the first-column positions.  With [q >= 1] the
    stored min-noise threshold is
    [max(0, bit_length(ceil(FREQ_MAX[i]/q)) - 7)]; it is 0 whenever
    [q >= 9]. *)
Theorem MinNoiseThreshold_formula (table : list Z) (i : Z) :
  let qt := NewQuantizationTables table in
  let q := at_ table (at_ spec_edgeZigzag i) in
  0 <= i < 14 -> 1 <= q ->
  at_ spec_edgeZigzag i = at_ RasterToZigzag (spec_edgeRaster i)
  /\ GetMinNoiseThreshold qt i = spec_minNoise i q
  /\ (9 <= q -> GetMinNoiseThreshold qt i = 0).
Proof.
  intros qt q Hi Hq.
  assert (Hg : GetMinNoiseThreshold qt i = minNoiseOf i q).
  { unfold GetMinNoiseThreshold.
    destruct (i <? 0) eqn:E1; [apply Z.ltb_lt in E1; lia|].
    destruct (14 <=? i) eqn:E2; [apply Z.leb_le in E2; lia|].
    cbn [orb]. unfold qt. rewrite MinNoiseThreshold_New.
    rewrite fillMinNoise_at by exact Hi.
    rewrite minNoiseAt_Of, QTable_New, edge_quantization_value by exact Hi.
    reflexivity. }
  rewrite Hg, minNoiseOf_spec by assumption.
  split; [apply edge_zigzag_raster; exact Hi|].
  split; [reflexivity|]. intros H9. apply spec_minNoise_large_q; assumption.
Qed.

Lemma MinNoiseThreshold_formula_witness :
  let table := map (fun k => Z.of_nat k mod 8 + 1) (seq 0 64) in
  let qt := NewQuantizationTables table in
  at_ table (at_ spec_edgeZigzag 3) = 7
  /\ at_ spec_edgeZigzag 3 = at_ RasterToZigzag (spec_edgeRaster 3)
  /\ GetMinNoiseThreshold qt 3 = spec_minNoise 3 7
  /\ (9 <= 7 -> GetMinNoiseThreshold qt 3 = 0).
Proof.
  split; [reflexivity|].
  apply (MinNoiseThreshold_formula
           (map (fun k => Z.of_nat k mod 8 + 1) (seq 0 64)) 3).
  - lia.
  - vm_compute. discriminate.
Defined.

End QuantFacts.

(** ** The decoder's size-limited output *)

Section DecoderFacts.
Import ThreadHandoffs DecodeRun JpegHeaderParse LeptonHeaderParse LeptonDecode.
Import Decoder DecoderExample.

(** One [Write] appends the part of the chunk that still fits. *)
Lemma Write_spec w p :
  0 <= remaining w ->
  let w' := snd (Write w p) in
  let k := Z.to_nat (remaining w) in
  inner w' = inner w ++ take k p
  /\ remaining w' = remaining w - Z.of_nat (length (take k p))
  /\ written w' = written w + Z.of_nat (length (take k p))
  /\ fst (Write w p) = Z.of_nat (length p).
Proof.
  intros Hr. unfold Write.
  destruct (remaining w <=? 0) eqn:E0.
  - apply Z.leb_le in E0. assert (H0 : remaining w = 0) by lia.
    rewrite H0. cbn [fst snd]. change (Z.to_nat 0) with 0%nat.
    rewrite take_0, app_nil_r. cbn [length]. rewrite H0.
    repeat split; lia.
  - apply Z.leb_gt in E0. cbn [fst snd inner remaining written].
    assert (Ht : (if remaining w <? Z.of_nat (length p)
                  then take (Z.to_nat (remaining w)) p else p)
                 = take (Z.to_nat (remaining w)) p).
    { destruct (remaining w <? Z.of_nat (length p)) eqn:E1; [reflexivity|].
      apply Z.ltb_ge in E1. symmetry. apply take_ge. lia. }
    rewrite Ht. repeat split; reflexivity.
Qed.

Lemma writeAll_spec chunks : forall w,
  0 <= remaining w ->
  let w' := writeAll w chunks in
  let out := take (Z.to_nat (remaining w)) (concat chunks) in
  inner w' = inner w ++ out
  /\ remaining w' = remaining w - Z.of_nat (length out)
  /\ written w' = written w + Z.of_nat (length out).
Proof.
  induction chunks as [|p chunks IH]; intros w Hr.
  - cbn [writeAll fold_left concat]. rewrite take_nil, app_nil_r.
    cbn [length]. repeat split; lia.
  - unfold writeAll. cbn [fold_left concat].
    fold (writeAll (snd (Write w p)) chunks).
    destruct (Write_spec w p Hr) as (Hi & Hrem & Hw & _).
    set (w1 := snd (Write w p)) in *.
    set (k := Z.to_nat (remaining w)) in *.
    assert (Hlen : length (take k p) = Nat.min k (length p))
      by apply length_take.
    assert (Hr1 : 0 <= remaining w1) by lia.
    destruct (IH w1 Hr1) as (Hi' & Hrem' & Hw').
    assert (Hk : Z.to_nat (remaining w1) = (k - length p)%nat) by lia.
    rewrite Hk in *.
    rewrite take_app.
    rewrite Hi', Hrem', Hw', Hi, Hrem, Hw, length_app, <- app_assoc.
    repeat split; lia.
Qed.

(** The limiting writer passes on the first [size] bytes of what it is
    given, whatever the writes are. *)
Lemma limited_output (size : Z) (writes : list (list Z)) :
  0 <= size ->
  let w := writeAll (mkLimitedWriter [] size 0) writes in
  inner w = take (Z.to_nat size) (concat writes)
  /\ written w = Z.of_nat (length (inner w))
  /\ written w = Z.min size (Z.of_nat (length (concat writes))).
Proof.
  intros Hs w.
  destruct (writeAll_spec writes (mkLimitedWriter [] size 0))
    as (Hi & _ & Hw); [cbn [remaining]; lia|].
  cbn [inner remaining written] in Hi, Hw. fold w in Hi, Hw.
  rewrite app_nil_l in Hi.
  assert (Hl : length (take (Z.to_nat size) (concat writes))
               = Nat.min (Z.to_nat size) (length (concat writes)))
    by apply length_take.
  rewrite Hi, Hw. repeat split; lia.
Qed.

(** The setters of the header parser leave the size field alone. *)
Lemma parseSections_size fuel : forall data pos h h',
  parseSections fuel data pos h = Ok h' ->
  OriginalFileSize h' = OriginalFileSize h.
Proof.
  induction fuel as [|fuel IH]; intros data pos h h'; cbn [parseSections].
  - destruct (negb (pos <? len data)); [intros [= <-]; reflexivity|].
    destruct (len data <? pos + 3); [intros [= <-]; reflexivity|].
    discriminate.
  - destruct (negb (pos <? len data)); [intros [= <-]; reflexivity|].
    destruct (len data <? pos + 3); [intros [= <-]; reflexivity|].
    repeat match goal with
           | |- (if ?c then _ else _) = _ -> _ => destruct c
           | |- mbind _ ?m = _ -> _ =>
               destruct m as [[? ?]| |]; cbn [mbind result_bind]
           | |- mbind _ ?m = _ -> _ =>
               destruct m as [?| |]; cbn [mbind result_bind]
           | |- fail _ = Ok _ -> _ => discriminate
           | |- Error _ = Ok _ -> _ => discriminate
           | |- Panic = Ok _ -> _ => discriminate
           | |- parseSections fuel _ _ _ = Ok _ -> _ =>
               let H := fresh in intros H; apply IH in H; exact H
           end.
Qed.

Lemma parseDecompressedHeader_size h data h' :
  parseDecompressedHeader h data = Ok h' ->
  OriginalFileSize h' = OriginalFileSize h.
Proof.
  unfold parseDecompressedHeader.
  destruct (parseSections (length data) data 0 h) as [h1| |] eqn:E;
    cbn [mbind result_bind]; try discriminate.
  apply parseSections_size in E.
  destruct (len (GarbageData (RecoveryInfo h1)) =? 0);
    intros [= <-]; exact E.
Qed.

Lemma Uint32_take28 (input : list Z) (v : Z) :
  Uint32 (take 28 input) 20 = Ok v -> v = storedFileSize input.
Proof.
  unfold Uint32, index, storedFileSize, at_.
  change (Z.to_nat 20) with 20%nat. change (Z.to_nat (20 + 1)) with 21%nat.
  change (Z.to_nat (20 + 2)) with 22%nat.
  change (Z.to_nat (20 + 3)) with 23%nat.
  change (Z.to_nat 21) with 21%nat. change (Z.to_nat 22) with 22%nat.
  change (Z.to_nat 23) with 23%nat.
  change (20 <? 0) with false. change (20 + 1 <? 0) with false.
  change (20 + 2 <? 0) with false. change (20 + 3 <? 0) with false.
  cbv iota.
  rewrite !lookup_take_lt by lia.
  destruct (input !! 20%nat) as [b0|] eqn:E0; cbn [mbind result_bind];
    [|discriminate].
  destruct (input !! 21%nat) as [b1|] eqn:E1; cbn [mbind result_bind];
    [|discriminate].
  destruct (input !! 22%nat) as [b2|] eqn:E2; cbn [mbind result_bind];
    [|discriminate].
  destruct (input !! 23%nat) as [b3|] eqn:E3; cbn [mbind result_bind];
    [|discriminate].
  intros [= <-].
  rewrite (nth_lookup_Some _ _ 0 _ E0), (nth_lookup_Some _ _ 0 _ E1),
    (nth_lookup_Some _ _ 0 _ E2), (nth_lookup_Some _ _ 0 _ E3).
  reflexivity.
Qed.

(** The header's [OriginalFileSize] is the size field of the stream. *)
Lemma ReadLeptonHeader_size inflate input header rest :
  ReadLeptonHeader inflate input = Ok (header, rest) ->
  OriginalFileSize header = storedFileSize input.
Proof.
  unfold ReadLeptonHeader.
  destruct (len input <? 28); [discriminate|].
  destruct (negb (at_ (take 28 input) 0 =? 207)
            || negb (at_ (take 28 input) 1 =? 132)); [discriminate|].
  destruct (negb (at_ (take 28 input) 2 =? 1)); [discriminate|].
  match goal with
  | |- mbind _ ?m = _ -> _ =>
      destruct m as [jt| |]; cbn [mbind result_bind]; try discriminate
  end.
  match goal with
  | |- mbind _ ?m = _ -> _ =>
      destruct m as [git| |]; cbn [mbind result_bind]; try discriminate
  end.
  destruct (Uint32 (take 28 input) 20) as [size| |] eqn:Esize;
    cbn [liftHeader mbind result_bind]; try discriminate;
    [|destruct e; discriminate].
  apply Uint32_take28 in Esize.
  match goal with
  | |- mbind _ ?m = _ -> _ =>
      destruct m as [csize| |]; cbn [mbind result_bind]; try discriminate
  end.
  destruct (len (drop 28 input) <? csize); [discriminate|].
  match goal with
  | |- mbind _ ?m = _ -> _ =>
      destruct m as [dec| |]; cbn [mbind result_bind]; try discriminate
  end.
  match goal with
  | |- mbind _ ?m = _ -> _ =>
      destruct m as [h1| |] eqn:Eh; cbn [mbind result_bind];
        try discriminate
  end.
  apply parseDecompressedHeader_size in Eh.
  cbn [OriginalFileSize] in Eh.
  intros [= <- _].
  destruct (JpegHeader h1) as [jh|]; [|congruence].
  destruct (0 <? len (Handoffs h1)); [|congruence].
  cbn [setHandoffs OriginalFileSize]. congruence.
Qed.

Lemma storedFileSize_nonneg input :
  Forall isByte input -> 0 <= storedFileSize input.
Proof.
  intros Hb. unfold storedFileSize.
  assert (Hat : forall i, 0 <= at_ input i).
  { intros i. unfold at_.
    destruct (nth_lookup_or_length input (Z.to_nat i) 0) as [Hl|Hl].
    - rewrite Forall_lookup in Hb. apply (Hb _ _ Hl).
    - rewrite nth_overflow by lia. lia. }
  repeat (apply Z.lor_nonneg; split);
    try (apply Z.shiftl_nonneg); apply Hat.
Qed.

(** The demultiplexer's loop ends: every iteration takes the header
    byte off the data that is left. *)
Lemma demultiplex_loop_total fuel : forall numPartitions rest parts,
  (length rest <= fuel)%nat ->
  exists d, Multiplex.demultiplex_loop fuel numPartitions rest parts = Some d.
Proof.
  induction fuel as [|fuel IH]; intros numPartitions rest parts Hlen.
  - destruct rest; [|cbn in Hlen; lia]. exists parts. reflexivity.
  - destruct rest as [|header rest1]; [exists parts; reflexivity|].
    cbn [Multiplex.demultiplex_loop]. cbn [length] in Hlen.
    destruct (header <? 16).
    + destruct rest1 as [|b0 [|b1 rest2]]; try (eexists; reflexivity).
      unfold Multiplex.takeBlock. apply IH.
      rewrite length_drop. cbn [length] in Hlen. lia.
    + unfold Multiplex.takeBlock. apply IH. rewrite length_drop. lia.
Qed.

(** C8 as the code has it.  Whatever [WriteJpeg] writes, the limiting
    writer passes on its first [size] bytes: never more than [size],
    exactly [size] when the writes hold at least that many, all of them
    otherwise.  And [DecodeLepton] returns nil exactly when the header
    is read, has a JPEG header (here: one without components), the
    completion marker and at least four more bytes follow (here: for no
    thread handoffs), and [WriteJpeg] succeeds; no condition compares a
    length with the size field.  The output is then the first
    [OriginalFileSize] bytes of the writes of [WriteJpeg], where
    [OriginalFileSize] is the size field of the stream: its length is
    the smaller of the two lengths, and when the writes hold fewer
    bytes than [OriginalFileSize] the output is all of them. *)
Theorem DecodeLepton_output_truncated
    (size : Z) (prefixGarbage : list Z) (body : list (list Z)) :
  0 <= size < 2 ^ 32 ->
  (let w := DecodeLepton_output size prefixGarbage body in
   let generated := concat (WriteJpeg_writes prefixGarbage body) in
   inner w = take (Z.to_nat size) generated
   /\ written w = Z.of_nat (length (inner w))
   /\ written w = Z.min size (Z.of_nat (length generated))
   /\ written w <= size
   /\ (size <= Z.of_nat (length generated) -> written w = size))
  /\ (forall (inflate : list Z -> result Stop (list Z))
             (input out : list Z),
        Forall isByte input ->
        (DecodeLepton inflate input = Ok out
         <-> exists header rest jh writes,
               ReadLeptonHeader inflate input = Ok (header, rest)
               /\ JpegHeader header = Some jh
               /\ Cmpc jh = 0
               /\ Handoffs header = []
               /\ bytesEqual (take 3 rest) LeptonHeaderCompletionMarker = true
               /\ 7 <= len rest
               /\ WriteJpeg header jh = Ok writes
               /\ OriginalFileSize header = storedFileSize input
               /\ out = take (Z.to_nat (storedFileSize input)) (concat writes)
               /\ len out
                  = Z.min (storedFileSize input) (len (concat writes))
               /\ (len (concat writes) < storedFileSize input ->
                   out = concat writes))).
Proof.
  intros Hs. split.
  - intros w generated.
    destruct (limited_output size (WriteJpeg_writes prefixGarbage body)
                ltac:(lia)) as (Hi & Hw & Hm).
    fold (DecodeLepton_output size prefixGarbage body) in Hi, Hw, Hm.
    fold w in Hi, Hw, Hm. fold generated in Hi, Hm.
    repeat split; try assumption; lia.
  - intros inflate input out Hbytes.
    pose proof (storedFileSize_nonneg input Hbytes) as Hnn.
    split.
    + unfold DecodeLepton.
      destruct (ReadLeptonHeader inflate input) as [[header rest]| |] eqn:Eh;
        cbn [mbind result_bind]; try discriminate.
      pose proof (ReadLeptonHeader_size _ _ _ _ Eh) as Hsize.
      destruct (JpegHeader header) as [jh|] eqn:Ej; [|discriminate].
      destruct (Z.eqb_spec (Cmpc jh) 0) as [Ec|Ec]; cbn [negb];
        [|discriminate].
      destruct (Z.ltb_spec (len rest) 3) as [E3|E3]; [discriminate|].
      destruct (bytesEqual (take 3 rest) LeptonHeaderCompletionMarker)
        eqn:Em; cbn [negb]; [|discriminate].
      destruct (Z.ltb_spec (len (drop 3 rest)) 4) as [E4|E4];
        [discriminate|].
      destruct (Multiplex.newDemultiplexer _ _) as [demuxer|];
        [|discriminate].
      destruct (Z.ltb_spec 0 (len (Handoffs header))) as [En|En];
        [discriminate|].
      destruct (WriteJpeg header jh) as [writes| |] eqn:Ew;
        cbn [mbind result_bind]; try discriminate.
      intros [= <-].
      destruct (limited_output (OriginalFileSize header) writes
                  ltac:(lia)) as (Hi & Hw & Hm).
      exists header, rest, jh, writes.
      rewrite <- Hsize.
      split; [first [exact Eh|reflexivity]|].
      split; [first [exact Ej|reflexivity]|].
      split; [exact Ec|].
      split; [destruct (Handoffs header); [reflexivity|];
              unfold len in En; cbn [length] in En; lia|].
      split; [exact Em|].
      split; [unfold len in *; rewrite length_drop in E4; lia|].
      split; [first [exact Ew|reflexivity]|].
      split; [reflexivity|]. split; [exact Hi|].
      split; [unfold len; lia|].
      intros Hshort. rewrite Hi. apply take_ge. unfold len in Hshort. lia.
    + intros (header & rest & jh & writes & Eh & Ej & Ec & En & Em & E7
              & Ew & Hsize & Hout & _).
      unfold DecodeLepton. rewrite Eh. cbn [mbind result_bind].
      rewrite Ej, Ec. change (negb (0 =? 0)) with false. cbv iota.
      destruct (Z.ltb_spec (len rest) 3) as [E3|E3]; [lia|].
      rewrite Em. cbn [negb].
      destruct (Z.ltb_spec (len (drop 3 rest)) 4) as [E4|E4];
        [unfold len in *; rewrite length_drop in E4; lia|].
      rewrite En.
      unfold Multiplex.newDemultiplexer.
      destruct (demultiplex_loop_total
                  (length (slice (drop 3 rest) 0 (len (drop 3 rest) - 4)))
                  (len (@nil ThreadHandoff))
                  (slice (drop 3 rest) 0 (len (drop 3 rest) - 4))
                  (replicate (Z.to_nat (len (@nil ThreadHandoff))) [])
                  (le_n _)) as (d & ->).
      change (0 <? len (@nil ThreadHandoff)) with false. cbv iota.
      rewrite Ew. cbn [mbind result_bind].
      destruct (limited_output (OriginalFileSize header) writes
                  ltac:(lia)) as (Hi & _).
      rewrite Hi, Hsize, Hout. reflexivity.
Qed.

Lemma DecodeLepton_output_truncated_witness :
  (let w := DecodeLepton_output 3 [] [[0xFF; 0xD9]] in
   let generated := concat (WriteJpeg_writes [] [[0xFF; 0xD9]]) in
   inner w = take (Z.to_nat 3) generated
   /\ written w = Z.of_nat (length (inner w))
   /\ written w = Z.min 3 (Z.of_nat (length generated))
   /\ written w <= 3
   /\ (3 <= Z.of_nat (length generated) -> written w = 3))
  /\ (exists header rest jh writes,
        ReadLeptonHeader ZlibStored.inflate exampleStream = Ok (header, rest)
        /\ JpegHeader header = Some jh
        /\ Cmpc jh = 0
        /\ Handoffs header = []
        /\ bytesEqual (take 3 rest) LeptonHeaderCompletionMarker = true
        /\ 7 <= len rest
        /\ WriteJpeg header jh = Ok writes
        /\ OriginalFileSize header = storedFileSize exampleStream
        /\ [0xFF; 0xD8; 0xFF; 0xFE; 0x00; 0x04; 0x41; 0x42; 0xFF; 0xD9]
           = take (Z.to_nat (storedFileSize exampleStream)) (concat writes)
        /\ len [0xFF; 0xD8; 0xFF; 0xFE; 0x00; 0x04; 0x41; 0x42; 0xFF; 0xD9]
           = Z.min (storedFileSize exampleStream) (len (concat writes))
        /\ (len (concat writes) < storedFileSize exampleStream ->
            [0xFF; 0xD8; 0xFF; 0xFE; 0x00; 0x04; 0x41; 0x42; 0xFF; 0xD9]
            = concat writes)).
Proof.
  destruct (DecodeLepton_output_truncated 3 [] [[0xFF; 0xD9]] ltac:(lia))
    as [Hlimit Hrun].
  split; [exact Hlimit|].
  apply (Hrun ZlibStored.inflate exampleStream).
  - repeat constructor; unfold isByte; lia.
  - vm_compute. reflexivity.
Defined.

(** C8 as stated fails.  The stream [exampleStream] has 100 in its size
    field; its header inflates to [exampleHeader], whose JPEG header is
    a single comment segment.  [DecodeLepton] accepts the stream (it
    returns nil) after writing the ten bytes SOI, comment segment, EOI:
    fewer than [OriginalFileSize]. *)
Lemma DecodeLepton_output_can_fall_short :
  storedFileSize exampleStream = 100
  /\ Forall isByte exampleStream
  /\ ZlibStored.inflate (slice exampleStream 28 68) = Ok exampleHeader
  /\ DecodeLepton ZlibStored.inflate exampleStream
     = Ok [0xFF; 0xD8; 0xFF; 0xFE; 0x00; 0x04; 0x41; 0x42; 0xFF; 0xD9]
  /\ len [0xFF; 0xD8; 0xFF; 0xFE; 0x00; 0x04; 0x41; 0x42; 0xFF; 0xD9]
     < storedFileSize exampleStream.
Proof.
  split; [reflexivity|].
  split; [repeat constructor; unfold isByte; lia|].
  split; [vm_compute; reflexivity|].
  split; [vm_compute; reflexivity|].
  vm_compute. reflexivity.
Qed.

End DecoderFacts.

(** ** Branch: the update rule for every cell *)

Section BranchRuleFacts.
Import Branch BranchInv BranchRule.

Lemma u16_split b :
  0 <= b < 65536 ->
  b = (b / 256) * 256 + b mod 256 /\ 0 <= b / 256 < 256 /\ 0 <= b mod 256 < 256.
Proof.
  intros H. pose proof (Z.div_mod b 256). pose proof (Z.mod_pos_bound b 256).
  assert (0 <= b / 256) by (apply Z.div_pos; lia).
  assert (b / 256 < 256) by (apply Z.div_lt_upper_bound; lia).
  lia.
Qed.

(** Two bytes put side by side: the high byte shifted by 8 has no bit
    in common with the low byte. *)
Lemma lor_bytes a c :
  0 <= a < 256 -> 0 <= c -> Z.lor a (c * 256) = c * 256 + a.
Proof.
  intros Ha Hc.
  assert (Hz : Z.land a (c * 256) = 0).
  { apply Z.bits_inj'. intros i Hi.
    rewrite Z.land_spec, Z.bits_0.
    destruct (Z.lt_ge_cases i 8) as [Hlo|Hhi].
    - change 256 with (2 ^ 8). rewrite Z.mul_pow2_bits_low by lia.
      apply andb_false_r.
    - rewrite (testbit_byte_high a i) by lia. reflexivity. }
  pose proof (Z.add_lor_land a (c * 256)) as H. lia.
Qed.

Lemma high_byte a c : 0 <= c < 256 -> Z.shiftr (a * 256 + c) 8 = a.
Proof.
  intros Hc. rewrite Z.shiftr_div_pow2 by lia. change (2 ^ 8) with 256.
  symmetry. apply (Z.div_unique _ _ a c); [left; exact Hc|lia].
Qed.

Lemma low_byte a c : 0 <= c < 256 -> Z.land (a * 256 + c) 0xff = c.
Proof.
  intros Hc. change 0xff with (Z.ones 8). rewrite Z.land_ones by lia.
  change (2 ^ 8) with 256.
  symmetry. apply (Z.mod_unique _ _ a c); [left; exact Hc|lia].
Qed.

Lemma swapBytes_pair a c :
  0 <= a < 256 -> 0 <= c < 256 -> swapBytes (a * 256 + c) = c * 256 + a.
Proof.
  intros Ha Hc. unfold swapBytes, shl16, u16.
  rewrite high_byte by exact Hc.
  rewrite Z.shiftl_mul_pow2 by lia.
  change (2 ^ 8) with 256. change (2 ^ 16) with 65536.
  assert (Hm : ((a * 256 + c) * 256) mod 65536 = c * 256).
  { symmetry. apply (Z.mod_unique _ _ a (c * 256)); [left; lia|lia]. }
  rewrite Hm, lor_bytes by lia. apply Z.mod_small. lia.
Qed.

Lemma swapBytes_involutive b :
  0 <= b < 65536 -> swapBytes (swapBytes b) = b.
Proof.
  intros H. destruct (u16_split b H) as (Hb & Hhi & Hlo).
  rewrite Hb at 1. rewrite !swapBytes_pair by assumption. lia.
Qed.

(** A [true] observation is a [false] observation on the swapped
    cell, swapped back. *)
Lemma RecordAndUpdateBit_true b :
  RecordAndUpdateBit b true
  = swapBytes (RecordAndUpdateBit (swapBytes b) false).
Proof. reflexivity. Qed.

(** The cell after a [false] observation, from its two bytes. *)
Lemma RecordAndUpdateBit_false f t :
  0 <= f < 256 -> 0 <= t < 256 ->
  RecordAndUpdateBit (f * 256 + t) false
  = if f <? 255 then (f + 1) * 256 + t
    else (if t =? 1 then 255 else 129) * 256 + (t + 1) / 2.
Proof.
  intros Hf Ht. unfold RecordAndUpdateBit. cbv iota.
  unfold u16. change (2 ^ 16) with 65536. change 0x100 with 256.
  destruct (Z.ltb_spec f 255) as [Hlow|Hsat].
  - rewrite (Z.mod_small (f * 256 + t + 256)) by lia.
    destruct (Z.ltb_spec (f * 256 + t + 256) (f * 256 + t)) as [E|_]; [lia|].
    lia.
  - assert (Hf255 : f = 255) by lia. subst f.
    assert (Hs : (255 * 256 + t + 256) mod 65536 = t).
    { symmetry. apply (Z.mod_unique _ _ 1 t); [left; lia|lia]. }
    rewrite Hs.
    destruct (Z.ltb_spec t (255 * 256 + t)) as [_|E]; [|lia].
    assert (Hl : Z.land t 0xFF = t).
    { change 0xFF with (Z.ones 8). rewrite Z.land_ones by lia.
      apply Z.mod_small. exact Ht. }
    rewrite Hl, (Z.mod_small (1 + t)) by lia.
    rewrite Z.shiftr_div_pow2 by lia. change (2 ^ 1) with 2.
    assert (Hh : 0 <= (1 + t) / 2 < 256).
    { split; [apply Z.div_pos; lia|apply Z.div_lt_upper_bound; lia]. }
    replace (t + 1) with (1 + t) by lia.
    destruct (Z.eqb_spec t 1) as [E1|E1].
    + subst t.
      change (255 * 256 + 1 =? 0xff01) with true. cbv iota.
      change 0xff00 with (255 * 256). apply lor_bytes; lia.
    + destruct (Z.eqb_spec (255 * 256 + t) 0xff01) as [E|_];
        [change 0xff01 with 65281 in E; lia|].
      change 0x8100 with (129 * 256). apply lor_bytes; lia.
Qed.

Lemma RecordAndUpdateBit_false_u16 b :
  0 <= b < 65536 -> 0 <= RecordAndUpdateBit b false < 65536.
Proof.
  intros H. destruct (u16_split b H) as (Hb & Hhi & Hlo).
  rewrite Hb, RecordAndUpdateBit_false by assumption.
  assert (0 <= (b mod 256 + 1) / 2 < 256)
    by (split; [apply Z.div_pos; lia|apply Z.div_lt_upper_bound; lia]).
  destruct (Z.ltb_spec (b / 256) 255); [lia|].
  destruct (b mod 256 =? 1); lia.
Qed.

Lemma swapBytes_u16 b : 0 <= b < 65536 -> 0 <= swapBytes b < 65536.
Proof.
  intros H. destruct (u16_split b H) as (Hb & Hhi & Hlo).
  rewrite Hb, swapBytes_pair by assumption. lia.
Qed.

(** A [true] observation is the byte-swapped mirror of a [false]
    observation, for every 16-bit cell value. *)
Theorem RecordAndUpdateBit_mirror (b : Branch) :
  0 <= b < 65536 ->
  RecordAndUpdateBit (swapBytes b) true
  = swapBytes (RecordAndUpdateBit b false)
  /\ RecordAndUpdateBit (swapBytes b) false
     = swapBytes (RecordAndUpdateBit b true).
Proof.
  intros H. split.
  - rewrite RecordAndUpdateBit_true, swapBytes_involutive by exact H.
    reflexivity.
  - rewrite RecordAndUpdateBit_true, swapBytes_involutive; [reflexivity|].
    apply RecordAndUpdateBit_false_u16, swapBytes_u16, H.
Qed.

Lemma RecordAndUpdateBit_mirror_witness :
  RecordAndUpdateBit (swapBytes 0xff02) true
  = swapBytes (RecordAndUpdateBit 0xff02 false)
  /\ RecordAndUpdateBit (swapBytes 0xff02) false
     = swapBytes (RecordAndUpdateBit 0xff02 true).
Proof. apply (RecordAndUpdateBit_mirror 0xff02). lia. Defined.

Lemma counters_after own other :
  1 <= own <= 255 -> 1 <= other <= 255 ->
  let r := RecordAndUpdateBit (own * 256 + other) false in
  r = ownAfter own other * 256 + otherAfter own other
  /\ 0 <= ownAfter own other < 256 /\ 0 <= otherAfter own other < 256.
Proof.
  intros Ho Ht r. unfold r, ownAfter, otherAfter.
  rewrite RecordAndUpdateBit_false by lia.
  assert (0 <= (other + 1) / 2 < 256)
    by (split; [apply Z.div_pos; lia|apply Z.div_lt_upper_bound; lia]).
  destruct (Z.ltb_spec own 255); [lia|].
  destruct (other =? 1); lia.
Qed.

(** The update rule in terms of the counters: below 255 the observed
    side grows by one and the other side is untouched; at 255 the other
    side is halved rounding up and the observed side drops to 129, except
    that it stays at 255 when the other side is 1. *)
Theorem RecordAndUpdateBit_counters (b : Branch) :
  inRange b ->
  let f := falseCount b in
  let t := trueCount b in
  falseCount (RecordAndUpdateBit b false) = ownAfter f t
  /\ trueCount (RecordAndUpdateBit b false) = otherAfter f t
  /\ trueCount (RecordAndUpdateBit b true) = ownAfter t f
  /\ falseCount (RecordAndUpdateBit b true) = otherAfter t f.
Proof.
  intros H f t. pose proof (inRange_split b H) as Hb. fold f t in Hb.
  destruct H as [Hf Ht]. fold f in Hf. fold t in Ht.
  destruct (counters_after f t Hf Ht) as (Hr & Ho & Hx).
  destruct (counters_after t f Ht Hf) as (Hr' & Ho' & Hx').
  cbv zeta in Hr, Hr'.
  rewrite RecordAndUpdateBit_true. rewrite Hb at 1 2 3 4.
  rewrite swapBytes_pair by lia. rewrite Hr, Hr'.
  rewrite swapBytes_pair by lia.
  unfold falseCount, trueCount.
  rewrite !high_byte, !low_byte by lia. auto.
Qed.

Lemma RecordAndUpdateBit_counters_witness :
  let f := falseCount 0xff02 in
  let t := trueCount 0xff02 in
  falseCount (RecordAndUpdateBit 0xff02 false) = ownAfter f t
  /\ trueCount (RecordAndUpdateBit 0xff02 false) = otherAfter f t
  /\ trueCount (RecordAndUpdateBit 0xff02 true) = ownAfter t f
  /\ falseCount (RecordAndUpdateBit 0xff02 true) = otherAfter t f.
Proof.
  apply (RecordAndUpdateBit_counters 0xff02).
  unfold inRange, falseCount, trueCount. split; vm_compute; split; discriminate.
Defined.

End BranchRuleFacts.

(** ** VPXBoolWriter: the range register *)

Section WriterFacts.
Import Branch VPXBoolWriter WriterInv.

Lemma put_check_all :
  forallb (fun rg => forallb (fun p => put_check rg p) (zrange 0 256))
          (zrange 128 128) = true.
Proof. vm_cast_no_check (eq_refl true). Qed.

Lemma nextRange_ok rg p bit :
  rangeOk rg -> 0 <= p <= 255 -> rangeOk (nextRange rg p bit).
Proof.
  intros Hr Hp. unfold rangeOk in *.
  assert (H128 : Z.of_nat 128 = 128) by reflexivity.
  assert (H256 : Z.of_nat 256 = 256) by reflexivity.
  pose proof (zrange_forallb _ 0 256
    (zrange_forallb _ 128 128 put_check_all rg ltac:(rewrite H128; lia))
    p ltac:(rewrite H256; lia)) as Hc.
  unfold put_check in Hc.
  rewrite !andb_true_iff, !Z.leb_le in Hc.
  destruct bit; lia.
Qed.

Lemma probability_u8 b : 0 <= GetProbability b <= 255.
Proof.
  unfold GetProbability, probLookup.
  destruct (_ && _); [|lia].
  unfold u8.
  pose proof (Z.mod_pos_bound (Z.shiftl (Z.shiftr b 8) 8 /
    (Z.shiftr b 8 + Z.land b 255)) (2 ^ 8)). lia.
Qed.

Lemma put_rangeOk buf bit branch v rg b' v' rg' buf' :
  rangeOk rg ->
  put (E:=VPXError) buf bit branch v rg = Ok (b', v', rg', buf') ->
  rangeOk rg'.
Proof.
  intros Hr. pose proof (nextRange_ok rg (GetProbability branch) bit Hr
                           (probability_u8 branch)) as Hn.
  unfold put. unfold nextRange in Hn.
  set (split := u32 (1 + Z.shiftr (u32 (u32 (rg - 1) * GetProbability branch)) 8)) in *.
  destruct bit.
  - destruct (negb _).
    + destruct (if negb _ then carry buf else Ok buf) as [b0| |];
        cbn; try discriminate.
      intros [= <- <- <- <-]. exact Hn.
    + intros [= <- <- <- <-]. exact Hn.
  - destruct (negb _).
    + destruct (if negb _ then carry buf else Ok buf) as [b0| |];
        cbn; try discriminate.
      intros [= <- <- <- <-]. exact Hn.
    + intros [= <- <- <- <-]. exact Hn.
Qed.

Lemma PutGrid_loop_rangeOk k : forall v bs s tv rg buf bs' tv' rg' buf',
  rangeOk rg ->
  PutGrid_loop (E:=VPXError) k v bs s tv rg buf = Ok (bs', tv', rg', buf') ->
  rangeOk rg'.
Proof.
  induction k as [|k IH]; intros v bs s tv rg buf bs' tv' rg' buf' Hr;
    cbn [PutGrid_loop].
  - intros [= <- <- <- <-]. exact Hr.
  - destruct (index bs s) as [b| |]; cbn; try discriminate.
    destruct (put buf _ b tv rg) as [[[[b1 tv1] rg1] buf1]| |] eqn:Ep;
      cbn; try discriminate.
    apply IH. eapply put_rangeOk; eauto.
Qed.

Lemma PutNBits_loop_rangeOk k : forall bits bs tv rg buf bs' tv' rg' buf',
  rangeOk rg ->
  PutNBits_loop (E:=VPXError) k bits bs tv rg buf = Ok (bs', tv', rg', buf') ->
  rangeOk rg'.
Proof.
  induction k as [|k IH]; intros bits bs tv rg buf bs' tv' rg' buf' Hr;
    cbn [PutNBits_loop].
  - intros [= <- <- <- <-]. exact Hr.
  - destruct (index bs (Z.of_nat k)) as [b| |]; cbn; try discriminate.
    destruct (put buf _ b tv rg) as [[[[b1 tv1] rg1] buf1]| |] eqn:Ep;
      cbn; try discriminate.
    apply IH. eapply put_rangeOk; eauto.
Qed.

Lemma PutUnaryEncoded_loop_rangeOk n : forall i v bs tv rg buf bs' tv' rg' buf',
  rangeOk rg ->
  PutUnaryEncoded_loop (E:=VPXError) n i v bs tv rg buf
  = Ok (bs', tv', rg', buf') ->
  rangeOk rg'.
Proof.
  induction n as [|n IH]; intros i v bs tv rg buf bs' tv' rg' buf' Hr;
    cbn [PutUnaryEncoded_loop].
  - intros [= <- <- <- <-]. exact Hr.
  - destruct (index bs i) as [b| |]; cbn; try discriminate.
    destruct (put buf _ b tv rg) as [[[[b1 tv1] rg1] buf1]| |] eqn:Ep;
      cbn; try discriminate.
    pose proof (put_rangeOk _ _ _ _ _ _ _ _ _ Hr Ep) as Hr1.
    destruct (negb (v =? i)).
    + apply IH, Hr1.
    + intros [= <- <- <- <-]. exact Hr1.
Qed.

Lemma runCall_writer_rangeOk w c w' :
  rangeOk (rang w) -> runCall w c = Ok w' -> rangeOk (rang w').
Proof.
  intros Hr. destruct c as [bit b|v bs|bits n bs|v bs]; cbn [runCall].
  - unfold PutBit.
    destruct (put _ _ _ _ _) as [[[[b1 tv1] rg1] buf1]| |] eqn:Ep;
      cbn; try discriminate.
    intros [= <-]. cbn [rang]. eapply put_rangeOk; eauto.
  - unfold PutGrid. destruct (negb _); [discriminate|].
    destruct (PutGrid_loop _ _ _ _ _ _ _) as [[[[b1 tv1] rg1] buf1]| |] eqn:Ep;
      cbn; try discriminate.
    intros [= <-]. cbn [rang]. eapply PutGrid_loop_rangeOk; eauto.
  - unfold PutNBits.
    destruct (PutNBits_loop _ _ _ _ _ _) as [[[[b1 tv1] rg1] buf1]| |] eqn:Ep;
      cbn; try discriminate.
    intros [= <-]. cbn [rang]. eapply PutNBits_loop_rangeOk; eauto.
  - unfold PutUnaryEncoded. destruct (_ <? v); [discriminate|].
    destruct (PutUnaryEncoded_loop _ _ _ _ _ _ _)
      as [[[[b1 tv1] rg1] buf1]| |] eqn:Ep; cbn; try discriminate.
    intros [= <-]. cbn [rang]. eapply PutUnaryEncoded_loop_rangeOk; eauto.
Qed.

Lemma runCalls_writer_rangeOk cs : forall w w',
  rangeOk (rang w) -> runCalls w cs = Ok w' -> rangeOk (rang w').
Proof.
  induction cs as [|c cs IH]; intros w w' Hr; cbn [runCalls].
  - intros [= <-]. exact Hr.
  - destruct (runCall w c) as [w1| |] eqn:E; cbn; try discriminate.
    apply IH. eapply runCall_writer_rangeOk; eauto.
Qed.

(** The encoder keeps its range register in 128..255: it is there after
    construction and after any sequence of successful [PutBit],
    [PutGrid], [PutNBits] and [PutUnaryEncoded] calls, whatever the
    branch cells hold. *)
Theorem VPXBoolWriter_range_invariant out w calls w' :
  NewVPXBoolWriter (E:=VPXError) out = Ok w ->
  runCalls w calls = Ok w' ->
  128 <= rang w' <= 255.
Proof.
  intros Hnew Hrun.
  apply (runCalls_writer_rangeOk calls w w'); [|exact Hrun].
  unfold NewVPXBoolWriter in Hnew.
  destruct (PutBit _ _ _) as [[b1 w1]| |] eqn:Ep; cbn in Hnew;
    try discriminate.
  injection Hnew as <-.
  apply (runCall_writer_rangeOk (mkWriter (Z.shiftl 1 9) 255 [] out)
           (CallPutBit false NewBranch) w1).
  - unfold rangeOk. cbn [rang]. lia.
  - cbn [runCall]. rewrite Ep. reflexivity.
Qed.

Lemma VPXBoolWriter_range_invariant_witness :
  exists w',
    (w ← NewVPXBoolWriter (E:=VPXError) [];
     runCalls w [CallPutGrid 7 (freshBranches 16);
                 CallPutUnaryEncoded 3 (freshBranches 11)]) = Ok w'
    /\ 128 <= rang w' <= 255.
Proof.
  destruct (NewVPXBoolWriter (E:=VPXError) []) as [w| |] eqn:Hnew;
    [|vm_compute in Hnew; discriminate..].
  destruct (runCalls w [CallPutGrid 7 (freshBranches 16);
                        CallPutUnaryEncoded 3 (freshBranches 11)])
    as [w'| |] eqn:Hrun.
  - exists w'. split; [exact Hrun|].
    exact (VPXBoolWriter_range_invariant [] w _ w' Hnew Hrun).
  - exfalso. vm_compute in Hnew. injection Hnew as <-.
    vm_compute in Hrun. discriminate.
  - exfalso. vm_compute in Hnew. injection Hnew as <-.
    vm_compute in Hrun. discriminate.
Defined.

End WriterFacts.

(** ** Coefficient coding: bit lengths, range check, round trip *)

Section CoefFacts.
Import CoefCoding CoefRoundtrip.

Lemma bitLength_check_all :
  forallb (fun hi => forallb (fun lo => bitLength_check (hi * 256 + lo))
                             (zrange 0 256))
          (zrange 0 256) = true.
Proof. vm_cast_no_check (eq_refl true). Qed.

(** [u16BitLength] is the number of binary digits: 0 for 0 and
    [log2 x + 1] otherwise, for every 16-bit value. *)
Theorem u16BitLength_log2 (x : Z) :
  0 <= x < 65536 ->
  u16BitLength x = if x =? 0 then 0 else Z.log2 x + 1.
Proof.
  intros H.
  assert (Hs : x = (x / 256) * 256 + x mod 256
               /\ 0 <= x / 256 < 256 /\ 0 <= x mod 256 < 256).
  { pose proof (Z.div_mod x 256). pose proof (Z.mod_pos_bound x 256).
    assert (0 <= x / 256) by (apply Z.div_pos; lia).
    assert (x / 256 < 256) by (apply Z.div_lt_upper_bound; lia). lia. }
  destruct Hs as (Hx & Hhi & Hlo).
  assert (Hn : Z.of_nat 256 = 256) by reflexivity.
  pose proof (zrange_forallb _ 0 256
    (zrange_forallb _ 0 256 bitLength_check_all (x / 256)
       ltac:(rewrite Hn; lia))
    (x mod 256) ltac:(rewrite Hn; lia)) as Hc.
  cbv beta in Hc. rewrite <- Hx in Hc.
  unfold bitLength_check in Hc. apply Z.eqb_eq in Hc. exact Hc.
Qed.

Lemma u16BitLength_log2_witness :
  u16BitLength 1020 = if 1020 =? 0 then 0 else Z.log2 1020 + 1.
Proof. apply (u16BitLength_log2 1020). lia. Defined.

Lemma abs16_value c :
  - 32768 <= c <= 32767 -> abs16 c = Z.abs c.
Proof.
  intros H. unfold abs16, s16, u16.
  change (2 ^ 15) with 32768. change (2 ^ 16) with 65536.
  destruct (c <? 0) eqn:E.
  - apply Z.ltb_lt in E.
    destruct (Z.eq_dec c (-32768)) as [->|Hn]; [reflexivity|].
    rewrite (Z.mod_small (- c + 32768)) by lia.
    rewrite Z.mod_small by lia. lia.
  - apply Z.ltb_ge in E. rewrite Z.mod_small by lia. lia.
Qed.

(** A coefficient whose magnitude needs more binary digits than there
    are magnitude branches is refused with [CoefficientOutOfRange]. *)
Theorem writeLengthSignCoef_out_of_range w coef bs :
  - 32768 <= coef <= 32767 ->
  2 ^ Z.of_nat (length (magnitudeBranches bs)) <= Z.abs coef ->
  writeLengthSignCoef w coef bs = Error ExitCodeCoefficientOutOfRange.
Proof.
  intros Hc Hbig. unfold writeLengthSignCoef.
  rewrite abs16_value by exact Hc.
  set (m := Z.of_nat (length (magnitudeBranches bs))) in *.
  assert (Hm : 0 <= m) by (unfold m; lia).
  assert (Hp : 0 < 2 ^ m) by (apply Z.pow_pos_nonneg; lia).
  rewrite u16BitLength_log2 by lia.
  destruct (Z.abs coef =? 0) eqn:E0; [apply Z.eqb_eq in E0; lia|].
  assert (Hl : m <= Z.log2 (Z.abs coef)) by (apply Z.log2_le_pow2; lia).
  destruct (m <? Z.log2 (Z.abs coef) + 1) eqn:E; [reflexivity|].
  apply Z.ltb_ge in E. lia.
Qed.

Lemma writeLengthSignCoef_out_of_range_witness :
  exists w,
    VPXBoolWriter.NewVPXBoolWriter (E:=CoefError) [] = Ok w
    /\ writeLengthSignCoef w (-2048) freshCoefBranches
       = Error ExitCodeCoefficientOutOfRange.
Proof.
  eexists. split; [vm_compute; reflexivity|].
  apply writeLengthSignCoef_out_of_range; [lia|].
  vm_compute. discriminate.
Defined.

Lemma coef_roundtrip_all :
  forallb coef_roundtrip_ok (zrange (-511) 1023) = true.
Proof. vm_cast_no_check (eq_refl true). Qed.

(** Every coefficient of up to nine binary digits ([-511 .. 511])
    survives the round trip through a fresh encoder and a fresh decoder:
    unary bit length, sign bit and residual bits are read back as
    written. *)
Theorem coefficient_roundtrip (c : Z) :
  - 511 <= c <= 511 -> coef_roundtrip [c] = Ok [c].
Proof.
  intros H.
  pose proof (zrange_forallb _ (-511) 1023 coef_roundtrip_all c) as Hc.
  change (Z.of_nat 1023) with 1023 in Hc. specialize (Hc ltac:(lia)).
  unfold coef_roundtrip_ok in Hc.
  destruct (coef_roundtrip [c]) as [[|c' [|d l]]| |]; try discriminate.
  apply Z.eqb_eq in Hc. subst c'. reflexivity.
Qed.

Lemma coefficient_roundtrip_witness : coef_roundtrip [-300] = Ok [-300].
Proof. apply coefficient_roundtrip. lia. Defined.

End CoefFacts.

(** ** AlignedBlock: zigzag and transposed order *)

Section BlockFacts.
Import AlignedBlock.

Ltac split64 a H :=
  do 64 (destruct a as [|? a]; [discriminate H|]);
  destruct a; [|discriminate H].

(** Converting a block from zigzag to transposed order and back, or the
    other way round, gives the block back. *)
Theorem zigzag_transposed_involution (a : list Z) :
  length a = 64%nat ->
  ZigzagFromTransposed (ZigzagToTransposedBlock a) = a
  /\ ZigzagToTransposedBlock (ZigzagFromTransposed a) = a.
Proof. intros H. split64 a H. split; reflexivity. Qed.

Lemma zigzag_transposed_involution_witness :
  ZigzagFromTransposed (ZigzagToTransposedBlock (replicate 64 7))
  = replicate 64 7
  /\ ZigzagToTransposedBlock (ZigzagFromTransposed (replicate 64 7))
     = replicate 64 7.
Proof. apply zigzag_transposed_involution. reflexivity. Defined.

(** The scan reader's table-driven loop and the literal permutation of
    [ZigzagToTransposedBlock] are the same conversion, and it puts the
    coefficient of zigzag index [i] where [GetTransposedFromZigzag]
    looks for it. *)
Theorem zigzagToTransposed_agrees (a : list Z) :
  length a = 64%nat ->
  zigzagToTransposed a = ZigzagToTransposedBlock a
  /\ forall i, 0 <= i < 64 ->
       GetTransposedFromZigzag (zigzagToTransposed a) i = at_ a i.
Proof.
  intros H. split64 a H. split; [reflexivity|].
  intros i Hi.
  assert (Hc : exists k, (k < 64)%nat /\ i = Z.of_nat k)
    by (exists (Z.to_nat i); lia).
  destruct Hc as (k & Hk & ->).
  do 64 (destruct k as [|k]; [reflexivity|]). lia.
Qed.

Lemma zigzagToTransposed_agrees_witness :
  zigzagToTransposed (replicate 64 7) = ZigzagToTransposedBlock (replicate 64 7)
  /\ forall i, 0 <= i < 64 ->
       GetTransposedFromZigzag (zigzagToTransposed (replicate 64 7)) i
       = at_ (replicate 64 7) i.
Proof. apply zigzagToTransposed_agrees. reflexivity. Defined.

(** [Transpose] is an involution on blocks and keeps their size. *)
Theorem Transpose_involution (a : list Z) :
  length a = 64%nat ->
  Transpose (Transpose a) = a
  /\ length (Transpose a) = 64%nat.
Proof. intros H. split64 a H. split; reflexivity. Qed.

Lemma Transpose_involution_witness :
  Transpose (Transpose (replicate 64 7)) = replicate 64 7
  /\ length (Transpose (replicate 64 7)) = 64%nat.
Proof. apply Transpose_involution. reflexivity. Defined.

End BlockFacts.

(** ** Variable-length integers, EOB runs and [divPow2] *)

Section SyntaxFacts.
Import CoefCoding JpegSyntax.

Lemma s16_small x : - 32768 <= x <= 32767 -> s16 x = x.
Proof.
  intros H. unfold s16. change (2 ^ 15) with 32768.
  change (2 ^ 16) with 65536. rewrite Z.mod_small by lia. lia.
Qed.

Lemma s32_small x : - 2147483648 <= x <= 2147483647 -> s32 x = x.
Proof.
  intros H. unfold s32. change (2 ^ 31) with 2147483648.
  change (2 ^ 32) with 4294967296. rewrite Z.mod_small by lia. lia.
Qed.

Lemma u8_small x : 0 <= x < 256 -> u8 x = x.
Proof. intros H. unfold u8. apply Z.mod_small. exact H. Qed.

Lemma u16_small x : 0 <= x < 65536 -> u16 x = x.
Proof. intros H. unfold u16. apply Z.mod_small. exact H. Qed.

(** Number of binary digits. *)
Lemma digits_half x :
  0 < x ->
  (if x =? 0 then 0 else Z.log2 x + 1)
  = 1 + (if x / 2 =? 0 then 0 else Z.log2 (x / 2) + 1).
Proof.
  intros Hx. destruct (Z.eqb_spec x 0) as [E|_]; [lia|].
  destruct (Z.eq_dec x 1) as [->|H1]; [reflexivity|].
  assert (Hh : 0 < x / 2) by (apply Z.div_str_pos; lia).
  destruct (Z.eqb_spec (x / 2) 0) as [E|_]; [lia|].
  assert (Hsh : x / 2 = Z.shiftr x 1)
    by (rewrite Z.shiftr_div_pow2 by lia; reflexivity).
  rewrite Hsh, Z.log2_shiftr by lia.
  assert (1 <= Z.log2 x) by (apply Z.log2_le_pow2; lia). lia.
Qed.

(** The counting loops stop after as many iterations as the operand has
    binary digits. *)
Lemma category_loop_digits fuel : forall x c,
  0 <= x < 2 ^ Z.of_nat fuel -> 0 <= c -> c + Z.of_nat fuel < 256 ->
  category_loop fuel x c = c + (if x =? 0 then 0 else Z.log2 x + 1).
Proof.
  induction fuel as [|fuel IH]; intros x c Hx Hc Hr.
  - change (2 ^ Z.of_nat 0) with 1 in Hx. assert (x = 0) by lia. subst x.
    cbn [category_loop]. change (0 =? 0) with true. cbv iota. lia.
  - cbn [category_loop]. destruct (Z.ltb_spec 0 x) as [Hpos|Hz].
    + rewrite Z.shiftr_div_pow2 by lia. change (2 ^ 1) with 2.
      rewrite u8_small by lia.
      rewrite Nat2Z.inj_succ, Z.pow_succ_r in Hx by lia.
      rewrite IH; [rewrite (digits_half x Hpos); lia| |lia|lia].
      split; [apply Z.div_pos; lia|apply Z.div_lt_upper_bound; lia].
    + assert (x = 0) by lia. subst x. change (0 =? 0) with true.
      cbv iota. lia.
Qed.

Lemma bitLength_loop_digits fuel : forall x c,
  0 <= x < 2 ^ Z.of_nat fuel ->
  bitLength_loop fuel x c = c + (if x =? 0 then 0 else Z.log2 x + 1).
Proof.
  induction fuel as [|fuel IH]; intros x c Hx.
  - change (2 ^ Z.of_nat 0) with 1 in Hx. assert (x = 0) by lia. subst x.
    cbn [bitLength_loop]. change (0 =? 0) with true. cbv iota. lia.
  - cbn [bitLength_loop]. destruct (Z.ltb_spec 0 x) as [Hpos|Hz].
    + rewrite Z.shiftr_div_pow2 by lia. change (2 ^ 1) with 2.
      rewrite Nat2Z.inj_succ, Z.pow_succ_r in Hx by lia.
      rewrite IH; [rewrite (digits_half x Hpos); lia|].
      split; [apply Z.div_pos; lia|apply Z.div_lt_upper_bound; lia].
    + assert (x = 0) by lia. subst x. change (0 =? 0) with true.
      cbv iota. lia.
Qed.

Lemma coefCategory_digits coef :
  - 32767 <= coef <= 32767 -> coef <> 0 ->
  coefCategory coef = Z.log2 (Z.abs coef) + 1.
Proof.
  intros Hc Hn. unfold coefCategory.
  assert (Habs : (if coef <? 0 then s16 (- coef) else coef) = Z.abs coef).
  { destruct (Z.ltb_spec coef 0); [rewrite s16_small by lia|]; lia. }
  rewrite Habs, category_loop_digits;
    [destruct (Z.eqb_spec (Z.abs coef) 0); lia
    |change (2 ^ Z.of_nat 16) with 65536; lia|lia|lia].
Qed.

Lemma pow2_bounds s : 1 <= s <= 15 -> 2 <= 2 ^ s <= 32768 /\ 2 ^ s = 2 * 2 ^ (s - 1).
Proof.
  intros H. split.
  - split.
    + change 2 with (2 ^ 1) at 1. apply Z.pow_le_mono_r; lia.
    + change 32768 with (2 ^ 15). apply Z.pow_le_mono_r; lia.
  - replace s with (Z.succ (s - 1)) at 1 by lia.
    apply Z.pow_succ_r. lia.
Qed.

(** What [writeCoef] emits for a nonzero coefficient is read back by
    [decodeVLI]: the category [s] is the bit length of the magnitude
    (1..15), the additional bits fit in [s] bits, and decoding them with
    size [s] returns the coefficient.  The two writes are the Huffman
    code of the symbol [run << 4 | s] and the additional bits. *)
Theorem writeCoef_decodeVLI w table (coef run : Z) :
  - 32767 <= coef <= 32767 -> coef <> 0 ->
  let s := coefCategory coef in
  let a := coefAdditionalBits coef s in
  let symbol := Z.lor (u8 (Z.shiftl run 4)) s in
  1 <= s <= 15
  /\ 2 ^ (s - 1) <= Z.abs coef < 2 ^ s
  /\ 0 <= a < 2 ^ s
  /\ decodeVLI s a = coef
  /\ writeCoef w table coef run
     = BitWriter.Write
         (BitWriter.Write w (at_ (Huffman.codes table) symbol)
                            (at_ (Huffman.lengths table) symbol))
         a s.
Proof.
  intros Hc Hn s a symbol.
  assert (Hs : s = Z.log2 (Z.abs coef) + 1)
    by (apply coefCategory_digits; assumption).
  assert (Habs : 0 < Z.abs coef < 2 ^ 15)
    by (change (2 ^ 15) with 32768; lia).
  assert (Hl : 0 <= Z.log2 (Z.abs coef) < 15).
  { split; [apply Z.log2_nonneg|apply Z.log2_lt_pow2; lia]. }
  assert (Hs15 : 1 <= s <= 15) by lia.
  assert (Hlog : 2 ^ (s - 1) <= Z.abs coef < 2 ^ s).
  { pose proof (Z.log2_spec (Z.abs coef) ltac:(lia)) as Hsp.
    replace (s - 1) with (Z.log2 (Z.abs coef)) by lia.
    replace s with (Z.succ (Z.log2 (Z.abs coef))) by lia. exact Hsp. }
  destruct (pow2_bounds s Hs15) as (Hp & Hp2).
  assert (Ha : a = if 0 <=? coef then coef else 2 ^ s + coef - 1).
  { unfold a, coefAdditionalBits.
    destruct (Z.leb_spec 0 coef) as [Hpos|Hneg].
    - unfold u32. apply Z.mod_small. change (2 ^ 32) with 4294967296. lia.
    - rewrite s16_small by lia.
      unfold shl32. rewrite Z.shiftl_1_l.
      assert (Hu : u32 (2 ^ s) = 2 ^ s).
      { unfold u32. apply Z.mod_small.
        change (2 ^ 32) with 4294967296. lia. }
      rewrite Hu.
      assert (Hu' : u32 (2 ^ s - 1) = Z.ones s).
      { rewrite Z.ones_equiv. unfold u32, Z.pred.
        replace (2 ^ s + -1) with (2 ^ s - 1) by lia.
        apply Z.mod_small. change (2 ^ 32) with 4294967296. lia. }
      rewrite Hu', Z.land_ones by lia.
      unfold u32.
      assert (Hm : (coef - 1) mod 2 ^ 32 = coef - 1 + 2 ^ 32).
      { symmetry. apply (Z.mod_unique _ _ (-1) (coef - 1 + 2 ^ 32)).
        - left. change (2 ^ 32) with 4294967296. lia.
        - lia. }
      rewrite Hm.
      symmetry.
      apply (Z.mod_unique _ _ (2 ^ (32 - s) - 1) (2 ^ s + coef - 1)).
      + left. lia.
      + assert (H32 : 2 ^ 32 = 2 ^ s * 2 ^ (32 - s)).
        { rewrite <- Z.pow_add_r by lia. f_equal. lia. }
        rewrite H32. ring. }
  assert (Har : 0 <= a < 2 ^ s).
  { rewrite Ha. destruct (Z.leb_spec 0 coef); lia. }
  assert (Hdec : decodeVLI s a = coef).
  { unfold decodeVLI.
    destruct (Z.eqb_spec s 0) as [E|_]; [lia|].
    rewrite (u8_small (s - 1)) by lia.
    unfold shl16. rewrite !Z.shiftl_1_l.
    assert (Hq : 1 <= 2 ^ (s - 1) <= 16384) by lia.
    rewrite (u16_small (2 ^ (s - 1))) by lia.
    assert (Hone : s16 (s16 (2 ^ s) - 1) = 2 ^ s - 1).
    { destruct (Z.eq_dec s 15) as [->|Hne]; [reflexivity|].
      assert (2 ^ s <= 16384).
      { change 16384 with (2 ^ 14). apply Z.pow_le_mono_r; lia. }
      rewrite (s16_small (2 ^ s)) by lia. apply s16_small. lia. }
    rewrite Hone, Ha.
    destruct (Z.leb_spec 0 coef) as [Hpos|Hneg].
    - destruct (Z.ltb_spec coef (2 ^ (s - 1))) as [E|_]; [lia|].
      apply s16_small. lia.
    - destruct (Z.ltb_spec (2 ^ s + coef - 1) (2 ^ (s - 1))) as [_|E]; [|lia].
      rewrite (s16_small (2 ^ s + coef - 1)) by lia.
      replace (2 ^ s + coef - 1 - (2 ^ s - 1)) with coef by lia.
      apply s16_small. lia. }
  repeat split; try assumption; try lia.
  unfold writeCoef. fold s. fold symbol. fold a.
  destruct (0 <? s) eqn:E; [reflexivity|]. apply Z.ltb_ge in E. lia.
Qed.

Lemma writeCoef_decodeVLI_witness :
  let s := coefCategory (-5) in
  let a := coefAdditionalBits (-5) s in
  let symbol := Z.lor (u8 (Z.shiftl 2 4)) s in
  let table := Huffman.mkHuffmanEncodeTable [] [] 0 in
  1 <= s <= 15
  /\ 2 ^ (s - 1) <= Z.abs (-5) < 2 ^ s
  /\ 0 <= a < 2 ^ s
  /\ decodeVLI s a = -5
  /\ writeCoef BitWriter.NewBitWriter table (-5) 2
     = BitWriter.Write
         (BitWriter.Write BitWriter.NewBitWriter
            (at_ (Huffman.codes table) symbol)
            (at_ (Huffman.lengths table) symbol))
         a s.
Proof.
  apply (writeCoef_decodeVLI BitWriter.NewBitWriter
           (Huffman.mkHuffmanEncodeTable [] [] 0) (-5) 2); lia.
Defined.

(** What [encodeEOBRun] emits for a run of 1..32767 blocks is read back
    by [decodeEobrunBits]: the symbol is EOBk with [2^k <= run < 2^(k+1)],
    [k <= 14], followed (for [k > 0]) by [run - 2^k] in [k] bits, and
    [decodeEobrunBits k (run - 2^k)] is the run. *)
Theorem encodeEOBRun_decodeEobrunBits w acTable (run : Z) :
  1 <= run <= 32767 ->
  let k := eobCategory run in
  let symbol := u8 (Z.shiftl k 4) in
  let w1 := BitWriter.Write w (at_ (Huffman.codes acTable) symbol)
                              (at_ (Huffman.lengths acTable) symbol) in
  0 <= k <= 14
  /\ symbol = 16 * k
  /\ 2 ^ k <= run < 2 ^ (k + 1)
  /\ decodeEobrunBits k (run - 2 ^ k) = run
  /\ encodeEOBRun w acTable run
     = if 0 <? k then BitWriter.Write w1 (run - 2 ^ k) k else w1.
Proof.
  intros Hr k symbol w1.
  assert (Hk : k = Z.log2 run).
  { unfold k, eobCategory. rewrite bitLength_loop_digits.
    - destruct (Z.eqb_spec run 0); lia.
    - change (2 ^ Z.of_nat 64) with 18446744073709551616. lia. }
  assert (H1 : 0 <= k <= 14).
  { rewrite Hk. split; [apply Z.log2_nonneg|].
    assert (Z.log2 run < 15)
      by (apply Z.log2_lt_pow2; [lia|change (2 ^ 15) with 32768; lia]).
    lia. }
  assert (H3 : 2 ^ k <= run < 2 ^ (k + 1)).
  { pose proof (Z.log2_spec run ltac:(lia)) as Hsp.
    rewrite Hk. exact Hsp. }
  assert (Hp : 0 < 2 ^ k) by (apply Z.pow_pos_nonneg; lia).
  assert (H5 : decodeEobrunBits k (run - 2 ^ k) = run).
  { unfold decodeEobrunBits, shl16. rewrite Z.shiftl_1_l.
    rewrite (u16_small (2 ^ k)) by lia.
    replace (run - 2 ^ k + 2 ^ k) with run by lia. apply u16_small. lia. }
  assert (Hsym : symbol = 16 * k).
  { unfold symbol, u8. rewrite Z.shiftl_mul_pow2 by lia.
    change (2 ^ 4) with 16. change (2 ^ 8) with 256.
    rewrite Z.mod_small by lia. lia. }
  repeat split; try assumption; try lia.
  unfold encodeEOBRun. fold k. fold symbol. fold w1.
  destruct (run =? 0) eqn:E0; [apply Z.eqb_eq in E0; lia|].
  destruct (0 <? k) eqn:Ek; [|reflexivity].
  rewrite Z.shiftl_1_l.
  assert (Hu1 : u32 (run - 2 ^ k) = run - 2 ^ k)
    by (unfold u32; apply Z.mod_small; change (2 ^ 32) with 4294967296; lia).
  assert (Hu2 : u32 k = k)
    by (unfold u32; apply Z.mod_small; change (2 ^ 32) with 4294967296; lia).
  rewrite Hu1, Hu2. reflexivity.
Qed.

Lemma encodeEOBRun_decodeEobrunBits_witness :
  let acTable := Huffman.mkHuffmanEncodeTable [] [] 0 in
  let k := eobCategory 5 in
  let symbol := u8 (Z.shiftl k 4) in
  let w1 := BitWriter.Write BitWriter.NewBitWriter
              (at_ (Huffman.codes acTable) symbol)
              (at_ (Huffman.lengths acTable) symbol) in
  0 <= k <= 14
  /\ symbol = 16 * k
  /\ 2 ^ k <= 5 < 2 ^ (k + 1)
  /\ decodeEobrunBits k (5 - 2 ^ k) = 5
  /\ encodeEOBRun BitWriter.NewBitWriter acTable 5
     = if 0 <? k then BitWriter.Write w1 (5 - 2 ^ k) k else w1.
Proof.
  apply (encodeEOBRun_decodeEobrunBits BitWriter.NewBitWriter
           (Huffman.mkHuffmanEncodeTable [] [] 0) 5). lia.
Defined.

(** [divPow2] divides by [2^p] rounding toward zero. *)
Theorem divPow2_quot (v p : Z) :
  - 32768 <= v <= 32767 -> 0 <= p <= 15 ->
  divPow2 v p = Z.quot v (2 ^ p).
Proof.
  intros Hv Hp. unfold divPow2.
  destruct (p =? 0) eqn:E0.
  - apply Z.eqb_eq in E0. subst p. rewrite Z.pow_0_r, Z.quot_1_r. reflexivity.
  - apply Z.eqb_neq in E0.
    assert (Hd : 2 <= 2 ^ p <= 32768).
    { split.
      - change 2 with (2 ^ 1) at 1. apply Z.pow_le_mono_r; lia.
      - change 32768 with (2 ^ 15). apply Z.pow_le_mono_r; lia. }
    set (d := 2 ^ p) in *.
    rewrite Z.shiftl_1_l. fold d.
    rewrite (s32_small d) by lia. rewrite (s32_small (d - 1)) by lia.
    destruct (v <? 0) eqn:En.
    + apply Z.ltb_lt in En.
      rewrite (s32_small (v + (d - 1))) by lia.
      rewrite Z.shiftr_div_pow2 by lia. fold d.
      assert (Hq : (v + (d - 1)) / d = Z.quot v d).
      { replace v with (- (- v)) at 2 by lia.
        rewrite Z.quot_opp_l by lia.
        rewrite Z.quot_div_nonneg by lia.
        symmetry. apply Z.div_unique with (r := d - 1 - (- v) mod d).
        - left. pose proof (Z.mod_pos_bound (- v) d). lia.
        - pose proof (Z.div_mod (- v) d). lia. }
      rewrite Hq. apply s16_small.
      assert (- 32768 <= Z.quot v d <= 0).
      { rewrite <- Hq. split.
        - apply Z.div_le_lower_bound; lia.
        - assert ((v + (d - 1)) / d < 1)
            by (apply Z.div_lt_upper_bound; lia). lia. }
      lia.
    + apply Z.ltb_ge in En.
      rewrite Z.shiftr_div_pow2 by lia. fold d.
      rewrite <- Z.quot_div_nonneg by lia.
      apply s16_small.
      assert (0 <= Z.quot v d <= v).
      { rewrite Z.quot_div_nonneg by lia. split.
        - apply Z.div_pos; lia.
        - apply Z.div_le_upper_bound; [lia|]. nia. }
      lia.
Qed.

Lemma divPow2_quot_witness : divPow2 (-17) 3 = Z.quot (-17) (2 ^ 3).
Proof. apply divPow2_quot; lia. Defined.

End SyntaxFacts.

(** ** Multiplexer round trip *)

Section MuxFacts.
Import Multiplex.

Lemma multiplex_loop_app fuel : forall rest out,
  multiplex_loop fuel rest out
  = option_map (app out) (multiplex_loop fuel rest []).
Proof.
  induction fuel as [|fuel IH]; intros rest out;
    destruct rest as [|x rest]; cbn [multiplex_loop option_map];
    try (rewrite app_nil_r; reflexivity); try reflexivity.
  set (rest' := drop _ _). set (chunk := take _ _).
  rewrite (IH rest' (_ ++ chunk)).
  rewrite (IH rest' (_ ++ chunk)).
  destruct (multiplex_loop fuel rest' []) as [m|]; cbn [option_map];
    [|reflexivity].
  rewrite !app_nil_l, <- !app_assoc. reflexivity.
Qed.

Lemma split_length_bytes x :
  0 <= x < 65536 ->
  Z.shiftl (u8 (Z.shiftr (u16 x) 8)) 8 + u8 (Z.land (u16 x) 0xff) = x.
Proof.
  intros H. unfold u16, u8. change (2 ^ 16) with 65536.
  change (2 ^ 8) with 256. rewrite (Z.mod_small x) by lia.
  change 0xff with (Z.ones 8). rewrite Z.land_ones by lia.
  rewrite Z.shiftr_div_pow2, Z.shiftl_mul_pow2 by lia.
  change (2 ^ 8) with 256.
  pose proof (Z.div_mod x 256). pose proof (Z.mod_pos_bound x 256).
  assert (0 <= x / 256 < 256)
    by (split; [apply Z.div_pos; lia|apply Z.div_lt_upper_bound; lia]).
  rewrite (Z.mod_small (x / 256)) by lia.
  rewrite (Z.mod_small (x mod 256)) by lia. lia.
Qed.

(** The framing of [rest] is undone by the demultiplexer loop, which
    appends [rest] to partition 0. *)
Lemma multiplex_demultiplex_loop fuel : forall rest,
  (length rest <= fuel)%nat ->
  exists m,
    multiplex_loop fuel rest [] = Some m
    /\ forall fuel' numPartitions p0 ps,
         1 <= numPartitions -> (length m <= fuel')%nat ->
         demultiplex_loop fuel' numPartitions m (p0 :: ps)
         = Some ((p0 ++ rest) :: ps).
Proof.
  induction fuel as [|fuel IH]; intros rest Hlen.
  - destruct rest; [|cbn in Hlen; lia].
    exists []. split; [reflexivity|].
    intros fuel' n p0 ps _ _. destruct fuel'; cbn; rewrite app_nil_r;
      reflexivity.
  - destruct rest as [|x rest0].
    + exists []. split; [reflexivity|].
      intros fuel' n p0 ps _ _. destruct fuel'; cbn; rewrite app_nil_r;
        reflexivity.
    + set (rest := x :: rest0) in *.
      cbn [multiplex_loop]. fold rest.
      set (blockSize := Z.min (Z.of_nat (length rest)) 65536).
      assert (Hbs : 1 <= blockSize <= 65536)
        by (unfold blockSize, rest; cbn [length]; lia).
      assert (Hbl : (Z.to_nat blockSize <= length rest)%nat)
        by (unfold blockSize; lia).
      set (chunk := take (Z.to_nat blockSize) rest).
      set (rest' := drop (Z.to_nat blockSize) rest).
      assert (Hchunk : length chunk = Z.to_nat blockSize)
        by (unfold chunk; rewrite length_take; lia).
      assert (Hrest' : (length rest' <= fuel)%nat).
      { unfold rest'. rewrite length_drop. unfold rest in *.
        cbn [length] in *. lia. }
      destruct (IH rest' Hrest') as (m' & Hm' & Hdemux).
      rewrite multiplex_loop_app, Hm'. cbn [option_map].
      eexists. split; [reflexivity|].
      intros fuel' n p0 ps Hn Hfuel'.
      rewrite !app_nil_l, <- !app_assoc in *. cbn [app] in *.
      destruct fuel' as [|fuel']; [cbn [length] in Hfuel'; lia|].
      cbn [demultiplex_loop]. change (0 <? 16) with true. cbv iota.
      change (Z.land 0 15) with 0.
      rewrite split_length_bytes by lia.
      replace (blockSize - 1 + 1) with blockSize by lia.
      unfold takeBlock.
      assert (Hl : (Z.of_nat (length (chunk ++ m')) <? blockSize) = false).
      { apply Z.ltb_ge. rewrite length_app. lia. }
      rewrite Hl.
      assert (Hp : (0 <? n) = true) by (apply Z.ltb_lt; lia).
      rewrite Hp. change (Z.to_nat 0) with 0%nat. cbn [alter list_alter].
      rewrite <- Hchunk, take_app_length, drop_app_length.
      rewrite Hdemux.
      * unfold chunk, rest'. rewrite <- app_assoc, take_drop. reflexivity.
      * exact Hn.
      * cbn [length] in Hfuel'. rewrite length_app in Hfuel'. lia.
Qed.

(** Round trip of the single-thread framing: whatever the coded segment,
    the demultiplexer returns it as the data of partition 0 (for any
    number of partitions from 1 on). *)
Theorem multiplex_roundtrip (data : list Z) (numPartitions : Z) :
  1 <= numPartitions ->
  exists m d,
    multiplexSingleThread data = Some m
    /\ newDemultiplexer m numPartitions = Some d
    /\ getPartitionData d 0 = data.
Proof.
  intros Hn. unfold multiplexSingleThread, newDemultiplexer.
  destruct (multiplex_demultiplex_loop (length data) data (le_n _))
    as (m & Hm & Hd).
  assert (Hparts : exists ps, replicate (Z.to_nat numPartitions) []
                              = ([] : list Z) :: ps).
  { destruct (Z.to_nat numPartitions) as [|k] eqn:E; [lia|].
    exists (replicate k []). reflexivity. }
  destruct Hparts as (ps & Hps).
  exists m, (data :: ps). split; [exact Hm|]. split.
  - rewrite Hps. rewrite (Hd (length m) numPartitions [] ps Hn (le_n _)).
    reflexivity.
  - unfold getPartitionData. cbn [length].
    destruct (0 <? Z.of_nat (S (length ps))) eqn:E; [reflexivity|].
    apply Z.ltb_ge in E. lia.
Qed.

Lemma multiplex_roundtrip_witness :
  exists m d,
    multiplexSingleThread [1; 2; 3] = Some m
    /\ newDemultiplexer m 1 = Some d
    /\ getPartitionData d 0 = [1; 2; 3].
Proof. apply (multiplex_roundtrip [1; 2; 3] 1). lia. Defined.

End MuxFacts.

(** ** Quantization tables: layout, divisors, and the threshold's range *)

Section QuantMoreFacts.
Import QuantizationTables QuantInv QuantRange.

Ltac split64q a H :=
  do 64 (destruct a as [|? a]; [discriminate H|]);
  destruct a; [|discriminate H].

Lemma fillQTable_permutes (table : list Z) :
  length table = 64%nat ->
  fillQTable table = AlignedBlock.ZigzagToTransposedBlock table.
Proof. intros H. split64q table H. reflexivity. Qed.

Lemma at_insert (l : list Z) (i : nat) (v : Z) (n : nat) :
  (i < length l)%nat ->
  nth n (<[i := v]> l) 0 = if Nat.eqb n i then v else nth n l 0.
Proof.
  revert i n. induction l as [|x l IH]; intros i n Hi; [cbn in Hi; lia|].
  destruct i as [|i]; destruct n as [|n]; cbn; try reflexivity.
  apply IH. cbn in Hi. lia.
Qed.

Lemma fillDivisors_upTo (qtable : list Z) (k : nat) :
  (k <= 64)%nat ->
  divisorsUpTo qtable k
    (fold_left
       (fun '(d, b) i =>
          let q := at_ qtable (Z.of_nat i) in
          if negb (q =? 0) then (<[i := q]> d, <[i := q / 2]> b) else (d, b))
       (seq 0 k) (replicate 64 0, replicate 64 0)).
Proof.
  induction k as [|k IH]; intros Hk.
  - cbn [seq fold_left]. unfold divisorsUpTo. cbn [fst snd].
    rewrite length_replicate. split; [reflexivity|]. split; [reflexivity|].
    intros n. cbn [Nat.ltb Nat.leb].
    assert (Hz : forall m, nth n (replicate m 0) 0 = 0).
    { clear. intros m. revert n.
      induction m as [|m IHm]; intros [|n]; cbn [replicate nth]; auto. }
    rewrite Hz. split; reflexivity.
  - rewrite seq_S, fold_left_app. cbn [fold_left Nat.add].
    specialize (IH ltac:(lia)).
    destruct (fold_left _ (seq 0 k) _) as [d b].
    destruct IH as (Hd & Hb & Hn). cbn [fst snd] in Hd, Hb, Hn.
    unfold at_, divisorsUpTo. rewrite Nat2Z.id.
    destruct (Z.eqb_spec (nth k qtable 0) 0) as [E|E]; cbn [negb].
    + split; [exact Hd|]. split; [exact Hb|]. intros n. cbn [fst snd].
      destruct (Hn n) as [H1 H2]. rewrite H1, H2.
      destruct (Nat.ltb_spec n k), (Nat.ltb_spec n (S k)); try lia;
        try (split; reflexivity).
      assert (n = k) by lia. subst n. rewrite E. split; reflexivity.
    + cbn [fst snd]. rewrite !length_insert.
      split; [exact Hd|]. split; [exact Hb|]. intros n.
      rewrite !at_insert by lia.
      destruct (Hn n) as [H1 H2]. rewrite H1, H2.
      destruct (Nat.eqb_spec n k) as [->|Hne].
      * destruct (Nat.ltb_spec k (S k)); [|lia]. split; reflexivity.
      * destruct (Nat.ltb_spec n k), (Nat.ltb_spec n (S k)); try lia;
          split; reflexivity.
Qed.

(** What the constructor stores: the quantization value of zigzag index
    [i] sits at transposed position [ZigzagToTransposed[i]] (the table is
    the zigzag-to-transposed permutation of the input), each divisor is
    the quantization value at its position and each biased divisor half
    of it, zero entries included. *)
Theorem NewQuantizationTables_layout (table : list Z) :
  length table = 64%nat ->
  let qt := NewQuantizationTables table in
  QTable qt = AlignedBlock.ZigzagToTransposedBlock table
  /\ (forall i, 0 <= i < 64 ->
        GetQ qt (at_ ZigzagToTransposed i) = at_ table i)
  /\ (forall pos, 0 <= pos < 64 ->
        GetDivisor qt pos = GetQ qt pos
        /\ GetBiasedDivisor qt pos = GetQ qt pos / 2).
Proof.
  intros Hlen qt.
  assert (HQ : QTable qt = fillQTable table).
  { unfold qt, NewQuantizationTables.
    destruct (fillDivisors (fillQTable table)). reflexivity. }
  split; [rewrite HQ; apply fillQTable_permutes, Hlen|]. split.
  - intros i Hi. unfold GetQ. rewrite HQ, fillQTable_permutes by exact Hlen.
    assert (Hi' : exists k, (k < 64)%nat /\ i = Z.of_nat k)
      by (exists (Z.to_nat i); lia).
    destruct Hi' as (k & Hk & ->). clear Hi. split64q table Hlen.
    do 64 (destruct k as [|k]; [reflexivity|]). lia.
  - intros pos Hpos. unfold GetDivisor, GetBiasedDivisor, GetQ.
    assert (Hf : divisorsUpTo (fillQTable table) 64
                   (fillDivisors (fillQTable table)))
      by exact (fillDivisors_upTo (fillQTable table) 64 (le_n _)).
    assert (HD : (Divisors qt, BiasedDivisors qt)
                 = fillDivisors (fillQTable table)).
    { unfold qt, NewQuantizationTables.
      destruct (fillDivisors (fillQTable table)). reflexivity. }
    rewrite <- HD in Hf. destruct Hf as (_ & _ & Hn). cbn [fst snd] in Hn.
    destruct (Hn (Z.to_nat pos)) as [H1 H2].
    unfold at_. rewrite H1, H2, HQ.
    destruct (Nat.ltb_spec (Z.to_nat pos) 64); [|lia]. split; reflexivity.
Qed.

Lemma NewQuantizationTables_layout_witness :
  let qt := NewQuantizationTables (map Z.of_nat (seq 1 64)) in
  QTable qt = AlignedBlock.ZigzagToTransposedBlock (map Z.of_nat (seq 1 64))
  /\ (forall i, 0 <= i < 64 ->
        GetQ qt (at_ ZigzagToTransposed i) = at_ (map Z.of_nat (seq 1 64)) i)
  /\ (forall pos, 0 <= pos < 64 ->
        GetDivisor qt pos = GetQ qt pos
        /\ GetBiasedDivisor qt pos = GetQ qt pos / 2).
Proof.
  apply (NewQuantizationTables_layout (map Z.of_nat (seq 1 64))).
  reflexivity.
Defined.

Lemma threshold_check_all :
  forallb (fun i => forallb (threshold_check i) (zrange 0 9)) (zrange 0 14)
  = true.
Proof. vm_cast_no_check (eq_refl true). Qed.

Lemma at_Forall (P : Z -> Prop) (l : list Z) (i : Z) :
  P 0 -> Forall P l -> P (at_ l i).
Proof.
  intros H0 Hl. unfold at_. generalize (Z.to_nat i). clear i.
  induction Hl as [|x l Hx Hl IH]; intros [|n]; cbn; auto.
Qed.

Lemma fillQTable_Forall (P : Z -> Prop) (table : list Z) :
  P 0 -> Forall P table -> Forall P (fillQTable table).
Proof.
  intros H0 Ht. unfold fillQTable.
  assert (Hinit : Forall P (replicate 64 0))
    by (apply Forall_replicate; exact H0).
  revert Hinit. generalize (replicate 64 0). generalize (seq 0 64).
  intros idx. induction idx as [|i idx IH]; intros q Hq; cbn [fold_left].
  - exact Hq.
  - apply IH. apply Forall_insert; [exact Hq|].
    apply at_Forall; assumption.
Qed.

(** For a table of [uint16] values the noise threshold never leaves
    0..3, whatever position is asked for; at an edge position where the
    table's entry (the one at the zigzag index of the position) is 0 it
    is 3, and outside the 14 edge positions it is 0. *)
Theorem MinNoiseThreshold_range (table : list Z) (i : Z) :
  Forall (fun x => 0 <= x < 65536) table ->
  let qt := NewQuantizationTables table in
  0 <= GetMinNoiseThreshold qt i <= 3
  /\ (0 <= i < 14 -> at_ table (at_ spec_edgeZigzag i) = 0 ->
      GetMinNoiseThreshold qt i = 3)
  /\ (i < 0 \/ 14 <= i -> GetMinNoiseThreshold qt i = 0).
Proof.
  intros Htab qt.
  assert (Hout : i < 0 \/ 14 <= i -> GetMinNoiseThreshold qt i = 0).
  { intros H. unfold GetMinNoiseThreshold.
    destruct (i <? 0) eqn:E1; [reflexivity|].
    destruct (14 <=? i) eqn:E2; [reflexivity|].
    apply Z.ltb_ge in E1. apply Z.leb_gt in E2. lia. }
  assert (HQ : QTable qt = fillQTable table).
  { unfold qt, NewQuantizationTables.
    destruct (fillDivisors (fillQTable table)). reflexivity. }
  assert (Hin : 0 <= i < 14 ->
    GetMinNoiseThreshold qt i = minNoiseOf i (GetQ qt (coordTR i))).
  { intros Hi. unfold GetMinNoiseThreshold.
    destruct (i <? 0) eqn:E1; [apply Z.ltb_lt in E1; lia|].
    destruct (14 <=? i) eqn:E2; [apply Z.leb_le in E2; lia|].
    cbn [orb]. unfold qt. rewrite MinNoiseThreshold_New.
    rewrite fillMinNoise_at by exact Hi. apply minNoiseAt_Of. }
  assert (Hchk : forall q, 0 <= i < 14 -> 0 <= q < 9 ->
                           threshold_check i q = true).
  { intros q Hi Hq.
    exact (zrange_forallb _ 0 9
      (zrange_forallb _ 0 14 threshold_check_all i
         ltac:(change (Z.of_nat 14) with 14; lia))
      q ltac:(change (Z.of_nat 9) with 9; lia)). }
  split; [|split; [|exact Hout]].
  - destruct (Z.lt_ge_cases i 0) as [Hneg|Hnn]; [rewrite Hout; lia|].
    destruct (Z.lt_ge_cases i 14) as [Hlt|Hge]; [|rewrite Hout; lia].
    rewrite Hin by lia.
    assert (Hq0 : 0 <= GetQ qt (coordTR i) < 65536).
    { unfold GetQ. rewrite HQ.
      apply (at_Forall (fun x => 0 <= x < 65536)); [lia|].
      apply fillQTable_Forall; [lia|exact Htab]. }
    set (q := GetQ qt (coordTR i)) in *.
    destruct (Z.lt_ge_cases q 9) as [Hs|Hl].
    + specialize (Hchk q ltac:(lia) ltac:(lia)).
      unfold threshold_check in Hchk.
      rewrite !andb_true_iff, Z.leb_le, Z.leb_le in Hchk. lia.
    + unfold minNoiseOf.
      destruct (q <? 9) eqn:E; [apply Z.ltb_lt in E; lia|lia].
  - intros Hi Hq. rewrite Hin by exact Hi.
    unfold GetQ. rewrite HQ, edge_quantization_value, Hq by exact Hi.
    specialize (Hchk 0 Hi ltac:(lia)). unfold threshold_check in Hchk.
    rewrite !andb_true_iff in Hchk. destruct Hchk as [_ H3].
    change (0 =? 0) with true in H3. cbv iota in H3.
    apply Z.eqb_eq in H3. exact H3.
Qed.

Lemma MinNoiseThreshold_range_witness :
  let table := replicate 27 2 ++ [0] ++ replicate 36 2 in
  let qt := NewQuantizationTables table in
  at_ spec_edgeZigzag 5 = 27
  /\ 0 <= GetMinNoiseThreshold qt 5 <= 3
  /\ GetMinNoiseThreshold qt 5 = 3
  /\ GetMinNoiseThreshold qt 4 = 2.
Proof.
  intros table qt.
  assert (Htab : Forall (fun x => 0 <= x < 65536) table).
  { apply Forall_app. split; [apply Forall_replicate; lia|].
    apply Forall_app. split; [repeat constructor; lia|].
    apply Forall_replicate. lia. }
  destruct (MinNoiseThreshold_range table 5 Htab) as (Hr & H3 & _).
  split; [reflexivity|]. split; [exact Hr|].
  split; [apply H3; [lia|reflexivity]|reflexivity].
Defined.

End QuantMoreFacts.

(** ** Position in a non-interleaved scan *)

Section PositionFacts.
Import JpegPositionState.

Lemma div_mod_split (B x : Z) :
  0 < B -> 0 <= x ->
  x = B * (x / B) + x mod B /\ 0 <= x mod B < B /\ 0 <= x / B.
Proof.
  intros HB Hx. split; [apply Z.div_mod; lia|].
  split; [apply Z.mod_pos_bound; lia|apply Z.div_pos; lia].
Qed.

Lemma div_mod_of (B r c : Z) :
  0 <= c < B -> (B * r + c) / B = r /\ (B * r + c) mod B = c.
Proof.
  intros Hc. split.
  - symmetry. apply (Z.div_unique _ _ r c); [left; exact Hc|reflexivity].
  - symmetry. apply (Z.mod_unique _ _ r c); [left; exact Hc|reflexivity].
Qed.

(** A non-interleaved scan walks the visible window: from a block
    inside the [Nch] x [Ncv] window of a [Bch] x [Bcv] grid,
    [nextMcuPosNonInterleaved] moves to the next block of the window in
    raster order, skipping the padding columns and rows; it reports
    [ScanCompleted] exactly when the window is exhausted (the position is
    then [Bc]), and otherwise the new position is again inside the
    window.  The only division by zero is the one by the [uint32]
    product [Sfv * Sfh] of a sequential JPEG: the call panics exactly
    when the JPEG is sequential and that product is zero; a progressive
    JPEG leaves [mcu] as it is. *)
Theorem nextMcuPosNonInterleaved_walks_window
    (s : JpegPositionState) (c : ComponentInfo) (sequential : bool)
    (RestartInterval : Z) :
  1 <= Nch c <= Bch c -> 1 <= Ncv c <= Bcv c ->
  Bc c = Bch c * Bcv c -> Bc c < 2 ^ 32 ->
  inWindow c (dpos s) ->
  if sequential && (u32 (Sfv c * Sfh c) =? 0)
  then nextMcuPosNonInterleaved s c sequential RestartInterval = Panic
  else
    exists st s',
      nextMcuPosNonInterleaved s c sequential RestartInterval = Ok (st, s')
      /\ dpos s' = windowNext c (dpos s)
      /\ dpos s < dpos s' <= Bc c
      /\ (st = ScanCompleted <-> dpos s' = Bc c)
      /\ (dpos s' < Bc c -> inWindow c (dpos s'))
      /\ mcu s' = (if sequential then dpos s' / u32 (Sfv c * Sfh c)
                   else mcu s).
Proof.
  intros HN HV HBc Hmax (Hd0 & Hcol & Hrow).
  destruct c as [sfv sfh bcv bch bc ncv nch]. cbn [Sfv Sfh Bcv Bch Bc Ncv Nch] in *.
  destruct s as [cmp0 mcu0 csc0 sub0 d rstw0 eob prev]. cbn [dpos] in *.
  destruct (div_mod_split bch d ltac:(lia) Hd0) as (Hd & Hc & Hr).
  set (col := d mod bch) in *. set (row := d / bch) in *.
  assert (Hdlt : d + 1 + (bch - nch) <= bc).
  { subst bc. nia. }
  unfold nextMcuPosNonInterleaved, windowNext.
  cbn [dpos mcu rstw Sfv Sfh Bcv Bch Bc Ncv Nch].
  fold col row.
  rewrite (u32_small (d + 1)) by lia.
  set (D := u32 (sfv * sfh)).
  (* the position after the horizontal and the vertical fix *)
  assert (Hnext : exists d',
    (dpos ← (if negb (bch =? nch)
             then if bch =? 0 then Panic (E:=LeptonError)
                  else if (d + 1) mod bch =? nch
                       then Ok (u32 (d + 1 + u32 (bch - nch)))
                       else Ok (d + 1)
             else Ok (d + 1));
     (if negb (bcv =? ncv)
      then if bch =? 0 then Panic
           else if dpos / bch =? ncv then Ok bc else Ok dpos
      else Ok dpos)) = Ok d'
    /\ d' = (if col + 1 <? nch then d + 1
             else if row + 1 <? ncv then (row + 1) * bch else bc)).
  { destruct (Z.eqb_spec bch 0) as [E0|_]; [lia|].
    destruct (Z.ltb_spec (col + 1) nch) as [Hin|Hlast].
    - (* inside the row *)
      destruct (div_mod_of bch row (col + 1) ltac:(lia)) as [Hq Hm].
      replace (bch * row + (col + 1)) with (d + 1) in Hq, Hm by lia.
      exists (d + 1). split; [|reflexivity].
      rewrite Hm.
      destruct (Z.eqb_spec (col + 1) nch) as [E|_]; [lia|].
      assert (Hh : (if negb (bch =? nch)
                    then Ok (E:=LeptonError) (d + 1) else Ok (d + 1))
                   = Ok (d + 1)) by (destruct (negb (bch =? nch)); reflexivity).
      rewrite Hh. cbn [mbind result_bind].
      rewrite Hq.
      destruct (Z.eqb_spec row ncv) as [E|_]; [lia|].
      destruct (negb (bcv =? ncv)); reflexivity.
    - (* last visible column: on to the next row *)
      assert (Hcn : col + 1 = nch) by lia.
      destruct (div_mod_of bch (row + 1) 0 ltac:(lia)) as [Hq Hm].
      replace (bch * (row + 1) + 0) with ((row + 1) * bch) in Hq, Hm by lia.
      assert (Hrow1 : (row + 1) * bch = d + 1 + (bch - nch)) by lia.
      assert (Hfix : (if negb (bch =? nch)
                      then if (d + 1) mod bch =? nch
                           then Ok (E:=LeptonError)
                                  (u32 (d + 1 + u32 (bch - nch)))
                           else Ok (d + 1)
                      else Ok (d + 1))
                     = Ok ((row + 1) * bch)).
      { destruct (Z.eqb_spec bch nch) as [E|E]; cbn [negb].
        - f_equal. lia.
        - destruct (div_mod_of bch row (col + 1) ltac:(lia)) as [_ Hm'].
          replace (bch * row + (col + 1)) with (d + 1) in Hm' by lia.
          rewrite Hm'.
          destruct (Z.eqb_spec (col + 1) nch) as [_|E']; [|lia].
          rewrite (u32_small (bch - nch)) by lia.
          rewrite u32_small by lia. f_equal. lia. }
      rewrite Hfix. cbn [mbind result_bind]. rewrite Hq.
      destruct (Z.ltb_spec (row + 1) ncv) as [Hmore|Hend].
      + exists ((row + 1) * bch). split; [|reflexivity].
        destruct (Z.eqb_spec (row + 1) ncv) as [E|_]; [lia|].
        destruct (negb (bcv =? ncv)); reflexivity.
      + assert (Hrn : row + 1 = ncv) by lia.
        exists bc. split; [|reflexivity].
        destruct (Z.eqb_spec bcv ncv) as [E|E]; cbn [negb].
        * f_equal. subst bc. rewrite Hrn, E. lia.
        * destruct (Z.eqb_spec (row + 1) ncv) as [_|E']; [|lia].
          reflexivity. }
  destruct Hnext as (d' & Hrun & Hd').
  assert (Hrange : d < d' <= bc).
  { rewrite Hd'.
    destruct (Z.ltb_spec (col + 1) nch); [lia|].
    destruct (Z.ltb_spec (row + 1) ncv); [|lia].
    split; [nia|]. subst bc. nia. }
  assert (Hwin : d' < bc -> 0 <= d' /\ d' mod bch < nch /\ d' / bch < ncv).
  { intros Hlt. split; [lia|]. rewrite Hd' in *.
    destruct (Z.ltb_spec (col + 1) nch).
    - destruct (div_mod_of bch row (col + 1) ltac:(lia)) as [Hq Hm].
      replace (bch * row + (col + 1)) with (d + 1) in Hq, Hm by lia.
      rewrite Hq, Hm. lia.
    - destruct (Z.ltb_spec (row + 1) ncv); [|lia].
      destruct (div_mod_of bch (row + 1) 0 ltac:(lia)) as [Hq Hm].
      replace (bch * (row + 1) + 0) with ((row + 1) * bch) in Hq, Hm by lia.
      rewrite Hq, Hm. lia. }
  rewrite <- Hd'. clear Hd'.
  (* the rest of the function *)
  match type of Hrun with
  | mbind _ ?m = _ => destruct m as [d1|e|] eqn:Hh
  end; cbn [mbind result_bind] in Hrun |- *; try discriminate Hrun.
  rewrite Hrun. cbn [mbind result_bind].
  destruct sequential; cbn [andb].
  - destruct (Z.eqb_spec D 0) as [E|E]; [reflexivity|].
    cbn [mbind result_bind].
    destruct (Z.leb_spec bc d') as [Hdone|Hmore].
    + do 2 eexists. split; [reflexivity|]. cbn [dpos mcu setPosition].
      split; [reflexivity|]. split; [lia|].
      split; [split; intros; [lia|reflexivity]|].
      split; [intros; lia|reflexivity].
    + assert (Hgo : forall st r,
        st <> ScanCompleted ->
        exists st' s',
          Ok (E:=LeptonError)
             (st, setPosition (mkState cmp0 mcu0 csc0 sub0 d rstw0 eob prev)
                              (d' / D) d' r) = Ok (st', s')
          /\ dpos s' = d' /\ d < dpos s' <= bc
          /\ (st' = ScanCompleted <-> dpos s' = bc)
          /\ (dpos s' < bc ->
              inWindow (mkComponentInfo sfv sfh bcv bch bc ncv nch) (dpos s'))
          /\ mcu s' = dpos s' / D).
      { intros st r Hst. do 2 eexists. split; [reflexivity|].
        cbn [dpos mcu setPosition]. split; [reflexivity|]. split; [lia|].
        split; [split; intros; [contradiction|lia]|].
        split; [|reflexivity].
        intros Hlt. unfold inWindow. cbn [Bch Nch Ncv]. apply Hwin.
        exact Hlt. }
      destruct (0 <? RestartInterval);
        [destruct (u32 (rstw0 - 1) =? 0)|]; apply Hgo; discriminate.
  - cbn [mbind result_bind].
    destruct (Z.leb_spec bc d') as [Hdone|Hmore].
    + do 2 eexists. split; [reflexivity|]. cbn [dpos mcu setPosition].
      split; [reflexivity|]. split; [lia|].
      split; [split; intros; [lia|reflexivity]|].
      split; [intros; lia|reflexivity].
    + assert (Hgo : forall st r,
        st <> ScanCompleted ->
        exists st' s',
          Ok (E:=LeptonError)
             (st, setPosition (mkState cmp0 mcu0 csc0 sub0 d rstw0 eob prev)
                              mcu0 d' r) = Ok (st', s')
          /\ dpos s' = d' /\ d < dpos s' <= bc
          /\ (st' = ScanCompleted <-> dpos s' = bc)
          /\ (dpos s' < bc ->
              inWindow (mkComponentInfo sfv sfh bcv bch bc ncv nch) (dpos s'))
          /\ mcu s' = mcu0).
      { intros st r Hst. do 2 eexists. split; [reflexivity|].
        cbn [dpos mcu setPosition]. split; [reflexivity|]. split; [lia|].
        split; [split; intros; [contradiction|lia]|].
        split; [|reflexivity].
        intros Hlt. unfold inWindow. cbn [Bch Nch Ncv]. apply Hwin.
        exact Hlt. }
      destruct (0 <? RestartInterval);
        [destruct (u32 (rstw0 - 1) =? 0)|]; apply Hgo; discriminate.
Qed.

Lemma nextMcuPosNonInterleaved_walks_window_witness :
  let c := mkComponentInfo 1 1 3 4 12 2 3 in
  let s := mkState 0 0 0 0 2 0 0 0 in
  exists st s',
    nextMcuPosNonInterleaved s c true 0 = Ok (st, s')
    /\ dpos s' = windowNext c (dpos s)
    /\ dpos s < dpos s' <= Bc c
    /\ (st = ScanCompleted <-> dpos s' = Bc c)
    /\ (dpos s' < Bc c -> inWindow c (dpos s'))
    /\ mcu s' = dpos s' / u32 (Sfv c * Sfh c).
Proof.
  apply (nextMcuPosNonInterleaved_walks_window
           (mkState 0 0 0 0 2 0 0 0) (mkComponentInfo 1 1 3 4 12 2 3) true 0);
    cbn [Sfv Sfh Bcv Bch Bc Ncv Nch dpos]; try lia.
  unfold inWindow. cbn [Sfv Sfh Bcv Bch Bc Ncv Nch dpos].
  change (2 mod 4) with 2. change (2 / 4) with 0. lia.
Defined.

End PositionFacts.

(** ** BitWriter and BitReader: what is written is read back *)

Section BitRoundtripFacts.
Import BitWriter BitReader BitWriterInv BitReaderInv BitReaderPost BitRoundtrip.

Lemma testbit_above v n i :
  0 <= v < 2 ^ n -> 0 <= n <= i -> Z.testbit v i = false.
Proof.
  intros Hv Hi. rewrite <- (Z.mod_small v (2 ^ n)) by exact Hv.
  apply Z.mod_pow2_bits_high. lia.
Qed.

Lemma lor_range64 a b :
  0 <= a < 2 ^ 64 -> 0 <= b < 2 ^ 64 -> 0 <= Z.lor a b < 2 ^ 64.
Proof.
  intros Ha Hb. split; [apply Z.lor_nonneg; lia|].
  destruct (Z.eq_dec (Z.lor a b) 0) as [->|Hn]; [lia|].
  assert (H0 : 0 <= Z.lor a b) by (apply Z.lor_nonneg; lia).
  apply Z.log2_lt_pow2; [lia|].
  rewrite Z.log2_lor by lia.
  apply Z.max_lub_lt.
  - destruct (Z.eq_dec a 0) as [->|Ha0]; [simpl; lia|].
    apply Z.log2_lt_pow2; lia.
  - destruct (Z.eq_dec b 0) as [->|Hb0]; [simpl; lia|].
    apply Z.log2_lt_pow2; lia.
Qed.

Lemma testbit_shl64 x s i :
  0 <= s -> 0 <= i < 64 ->
  Z.testbit (shl64 x s) i = if i <? s then false else Z.testbit x (i - s).
Proof.
  intros Hs Hi. unfold shl64, u64.
  rewrite Z.mod_pow2_bits_low by lia.
  rewrite Z.shiftl_spec by lia.
  destruct (Z.ltb_spec i s); [|reflexivity].
  apply Z.testbit_neg_r. lia.
Qed.

Lemma byteStream_app U X k :
  0 <= k ->
  byteStream (U ++ X) k
  = if k <? 8 * Z.of_nat (length U) then byteStream U k
    else byteStream X (k - 8 * Z.of_nat (length U)).
Proof.
  revert k. induction U as [|b U IH]; intros k Hk.
  - cbn [app length]. change (Z.of_nat 0) with 0.
    destruct (Z.ltb_spec k (8 * 0)); [lia|]. f_equal. lia.
  - cbn [app length]. rewrite Nat2Z.inj_succ.
    rewrite !byteStream_cons by lia.
    destruct (Z.ltb_spec k 8) as [H8|H8].
    + destruct (Z.ltb_spec k (8 * Z.succ (Z.of_nat (length U)))); [reflexivity|lia].
    + rewrite IH by lia.
      destruct (Z.ltb_spec (k - 8) (8 * Z.of_nat (length U)));
        destruct (Z.ltb_spec k (8 * Z.succ (Z.of_nat (length U))));
        try lia; try reflexivity.
      f_equal. lia.
Qed.

Lemma stuff_app U X : stuff (U ++ X) = stuff U ++ stuff X.
Proof. unfold stuff. apply flat_map_app. Qed.

Lemma writeFFEncoded_loop_bytes8 fill buf :
  writeFFEncoded_loop 8 0 fill buf = buf ++ stuff (bytes8 fill).
Proof.
  cbn [writeFFEncoded_loop]. rewrite !appendFFEncoded_app.
  unfold stuff, bytes8. cbn [map flat_map].
  rewrite app_nil_r, <- !app_assoc. reflexivity.
Qed.

Lemma bytes8_range fill : Forall (fun b => 0 <= b < 256) (bytes8 fill).
Proof.
  unfold bytes8. apply Forall_map, Forall_forall. intros i _.
  unfold u8. change (2 ^ 8) with 256. apply Z.mod_pos_bound. lia.
Qed.

Lemma at_bytes8 fill q :
  0 <= q < 8 -> at_ (bytes8 fill) q = u8 (Z.shiftr fill (56 - q * 8)).
Proof.
  intros Hq.
  assert (Hc : q = 0 \/ q = 1 \/ q = 2 \/ q = 3 \/ q = 4 \/ q = 5
               \/ q = 6 \/ q = 7) by lia.
  repeat (destruct Hc as [->|Hc]; [reflexivity|]). subst q. reflexivity.
Qed.

Lemma byteStream_bytes8 fill m :
  0 <= m < 64 -> byteStream (bytes8 fill) m = Z.testbit fill (63 - m).
Proof.
  intros Hm. unfold byteStream.
  pose proof (Z.div_mod m 8 ltac:(lia)) as Hdm.
  pose proof (Z.mod_pos_bound m 8 ltac:(lia)) as Hr.
  assert (Hq : 0 <= m / 8 < 8).
  { split; [apply Z.div_pos; lia|apply Z.div_lt_upper_bound; lia]. }
  set (q := m / 8) in *. set (r := m mod 8) in *.
  rewrite (at_bytes8 fill q Hq). unfold u8.
  rewrite Z.mod_pow2_bits_low by lia.
  rewrite Z.shiftr_spec by lia. f_equal. lia.
Qed.

(** One [Write]: the bits written before stay, and the [n] bits of
    [val] follow them. *)
Lemma Write_stream w U val n :
  winv w U -> 0 <= n <= 16 -> 0 <= val < 2 ^ n ->
  exists U',
    winv (Write w val n) U'
    /\ written (Write w val n) U' = written w U + n
    /\ (forall k, 0 <= k < written w U ->
          wbit (Write w val n) U' k = wbit w U k)
    /\ (forall j, 0 <= j < n ->
          wbit (Write w val n) U' (written w U + j)
          = Z.testbit val (n - 1 - j)).
Proof.
  intros (Hbuf & HU & Hcb & Hreg & Hlow) Hn Hval.
  unfold Write. destruct (Z.eqb_spec n 0) as [E0|E0].
  { exists U. split; [repeat split; assumption || lia|].
    split; [lia|]. split; [reflexivity|]. intros j Hj. lia. }
  set (cb := currentBit w) in *. set (reg := BitWriter.fillRegister w) in *.
  set (lenU := Z.of_nat (length U)).
  destruct (Z.leb_spec n cb) as [Hfit|Hover].
  - (* the value fits into the register *)
    rewrite (u32_small (cb - n)) by lia.
    destruct (Z.ltb_spec (cb - n) 64) as [_|E]; [|lia].
    exists U. unfold winv, written, wbit.
    cbn [dataBuffer BitWriter.fillRegister currentBit].
    fold lenU. fold cb. fold reg.
    assert (Hbit : forall i, 0 <= i < 64 ->
      Z.testbit (Z.lor reg (shl64 val (cb - n))) i
      = Z.testbit reg i
        || (if i <? cb - n then false else Z.testbit val (i - (cb - n)))).
    { intros i Hi. rewrite Z.lor_spec, testbit_shl64 by lia. reflexivity. }
    split; [|split; [lia|split]].
    + split; [exact Hbuf|]. split; [exact HU|]. split; [lia|].
      split; [apply lor_range64; [exact Hreg|apply shl64_range]|].
      intros i Hi. rewrite Hbit by lia. rewrite Hlow by lia.
      destruct (Z.ltb_spec i (cb - n)); [reflexivity|lia].
    + intros k Hk.
      destruct (Z.ltb_spec k (8 * lenU)); [reflexivity|].
      rewrite Hbit by lia.
      destruct (Z.ltb_spec (63 - (k - 8 * lenU)) (cb - n)); [lia|].
      rewrite (testbit_above val n) by lia. apply orb_false_r.
    + intros j Hj.
      destruct (Z.ltb_spec (8 * lenU + 64 - cb + j) (8 * lenU)); [lia|].
      rewrite Hbit by lia. rewrite Hlow by lia.
      destruct (Z.ltb_spec (63 - (8 * lenU + 64 - cb + j - 8 * lenU))
                           (cb - n)); [lia|].
      cbn [orb]. f_equal. lia.
  - (* the register overflows: eight bytes leave it *)
    destruct (Z.ltb_spec cb n) as [_|E]; [|lia].
    set (l := n - cb) in *.
    rewrite (u32_small l) by (unfold l; lia).
    assert (Hpl : 2 <= 2 ^ l <= 65536).
    { split.
      - change 2 with (2 ^ 1) at 1. apply Z.pow_le_mono_r; unfold l; lia.
      - change 65536 with (2 ^ 16). apply Z.pow_le_mono_r; unfold l; lia. }
    assert (Hmask : u32 (shl32 1 l - 1) = Z.ones l).
    { unfold shl32. rewrite Z.shiftl_1_l.
      rewrite (u32_small (2 ^ l)) by lia.
      rewrite Z.ones_equiv. unfold Z.pred.
      replace (2 ^ l + -1) with (2 ^ l - 1) by lia.
      apply u32_small. lia. }
    rewrite Hmask, Z.land_ones by (unfold l; lia).
    destruct (Z.ltb_spec l 64) as [_|E]; [|unfold l in E; lia].
    rewrite (u32_small (64 - l)) by (unfold l; lia).
    set (fill := Z.lor reg (Z.shiftr val l)).
    unfold writeFFEncoded. cbn [dataBuffer BitWriter.fillRegister currentBit].
    rewrite writeFFEncoded_loop_bytes8.
    exists (U ++ bytes8 fill). unfold winv, written, wbit.
    cbn [dataBuffer BitWriter.fillRegister currentBit].
    rewrite length_app, Nat2Z.inj_add. fold lenU. fold cb. fold reg.
    change (Z.of_nat (length (bytes8 fill))) with 8.
    assert (Hfill : forall i, 0 <= i < 64 ->
      Z.testbit fill i = Z.testbit reg i || Z.testbit val (i + l)).
    { intros i Hi. unfold fill.
      rewrite Z.lor_spec, Z.shiftr_spec by lia. reflexivity. }
    assert (Hnew : forall i, 0 <= i < 64 ->
      Z.testbit (shl64 (val mod 2 ^ l) (64 - l)) i
      = if i <? 64 - l then false else Z.testbit val (i - (64 - l))).
    { intros i Hi. rewrite testbit_shl64 by (unfold l; lia).
      destruct (Z.ltb_spec i (64 - l)); [reflexivity|].
      apply Z.mod_pow2_bits_low. lia. }
    split; [|split; [unfold l; lia|split]].
    + split; [rewrite Hbuf, stuff_app; reflexivity|].
      split; [apply Forall_app; split; [exact HU|apply bytes8_range]|].
      split; [unfold l; lia|]. split; [apply shl64_range|].
      intros i Hi. rewrite Hnew by lia.
      destruct (Z.ltb_spec i (64 - l)); [reflexivity|lia].
    + intros k Hk.
      destruct (Z.ltb_spec k (8 * (lenU + 8))) as [_|E]; [|lia].
      rewrite byteStream_app by lia. fold lenU.
      destruct (Z.ltb_spec k (8 * lenU)); [reflexivity|].
      rewrite byteStream_bytes8 by lia. rewrite Hfill by lia.
      rewrite (testbit_above val n) by (unfold l; lia). apply orb_false_r.
    + intros j Hj.
      destruct (Z.ltb_spec j cb) as [Hold|Hfresh].
      * destruct (Z.ltb_spec (8 * lenU + 64 - cb + j) (8 * (lenU + 8)))
          as [_|E]; [|lia].
        rewrite byteStream_app by lia. fold lenU.
        destruct (Z.ltb_spec (8 * lenU + 64 - cb + j) (8 * lenU)); [lia|].
        rewrite byteStream_bytes8 by lia. rewrite Hfill by lia.
        rewrite Hlow by lia. cbn [orb]. f_equal. unfold l. lia.
      * destruct (Z.ltb_spec (8 * lenU + 64 - cb + j) (8 * (lenU + 8)))
          as [E|_]; [lia|].
        rewrite Hnew by (unfold l; lia).
        destruct (Z.ltb_spec
                    (63 - (8 * lenU + 64 - cb + j - 8 * (lenU + 8)))
                    (64 - l)); [unfold l in *; lia|].
        f_equal. unfold l. lia.
Qed.

(** One iteration of [flushWholeBytes]: the top byte moves from the
    register to the buffer. *)
Lemma flush_step w U :
  winv w U -> currentBit w <= 56 ->
  let b := u8 (Z.shiftr (BitWriter.fillRegister w) 56) in
  let w1 := mkBitWriter (appendFFEncoded (dataBuffer w) b)
                        (shl64 (BitWriter.fillRegister w) 8)
                        (u32 (currentBit w + 8)) in
  winv w1 (U ++ [b])
  /\ currentBit w1 = currentBit w + 8
  /\ written w1 (U ++ [b]) = written w U
  /\ (forall k, 0 <= k < written w U -> wbit w1 (U ++ [b]) k = wbit w U k).
Proof.
  intros (Hbuf & HU & Hcb & Hreg & Hlow) H56 b w1.
  set (cb := currentBit w) in *. set (reg := BitWriter.fillRegister w) in *.
  set (lenU := Z.of_nat (length U)).
  assert (Hb : 0 <= b < 256).
  { unfold b, u8. change (2 ^ 8) with 256. apply Z.mod_pos_bound. lia. }
  assert (Hbbit : forall i, 0 <= i < 8 ->
                    Z.testbit b i = Z.testbit reg (i + 56)).
  { intros i Hi. unfold b, u8. rewrite Z.mod_pow2_bits_low by lia.
    rewrite Z.shiftr_spec by lia. reflexivity. }
  unfold w1, winv, written, wbit.
  cbn [dataBuffer BitWriter.fillRegister currentBit].
  rewrite (u32_small (cb + 8)) by lia.
  rewrite length_app, Nat2Z.inj_add. fold lenU.
  change (Z.of_nat (length [b])) with 1.
  split; [|split; [reflexivity|split; [lia|]]].
  - split.
    { rewrite appendFFEncoded_app, Hbuf, stuff_app. unfold stuff.
      cbn [flat_map]. rewrite app_nil_r. reflexivity. }
    split; [apply Forall_app; split; [exact HU|]; repeat constructor; lia|].
    split; [lia|]. split; [apply shl64_range|].
    intros i Hi. rewrite testbit_shl64_8 by lia.
    destruct (Z.ltb_spec i 8); [reflexivity|]. apply Hlow. lia.
  - intros k Hk.
    destruct (Z.ltb_spec k (8 * (lenU + 1))) as [Hin|Hout].
    + rewrite byteStream_app by lia. fold lenU.
      destruct (Z.ltb_spec k (8 * lenU)); [reflexivity|].
      rewrite byteStream_cons by lia.
      destruct (Z.ltb_spec (k - 8 * lenU) 8); [|lia].
      rewrite Hbbit by lia. f_equal. lia.
    + destruct (Z.ltb_spec k (8 * lenU)); [lia|].
      rewrite testbit_shl64_8 by lia.
      destruct (Z.ltb_spec (63 - (k - 8 * (lenU + 1))) 8); [lia|].
      f_equal. lia.
Qed.

Lemma flush_stream fuel : forall w U,
  winv w U -> currentBit w mod 8 = 0 ->
  64 - 8 * Z.of_nat fuel <= currentBit w ->
  exists w' U',
    flushWholeBytes_loop fuel w = Some w'
    /\ winv w' U' /\ currentBit w' = 64
    /\ written w' U' = written w U
    /\ (forall k, 0 <= k < written w U -> wbit w' U' k = wbit w U k).
Proof.
  induction fuel as [|fuel IH]; intros w U Hinv Hal Hf;
    cbn [flushWholeBytes_loop];
    assert (Hcb : 0 <= currentBit w <= 64) by apply Hinv;
    pose proof (Z.div_mod (currentBit w) 8 ltac:(lia)) as Hdm;
    destruct (Z.leb_spec (currentBit w) 56) as [Hle|Hgt];
    try solve [exists w, U; split; [reflexivity|split; [exact Hinv|
               split; [lia|split; [lia|intros; reflexivity]]]]].
  - change (Z.of_nat 0) with 0 in Hf. lia.
  - destruct (flush_step w U Hinv Hle) as (Hinv1 & Hcb1 & Hw1 & Hk1).
    cbv zeta in Hinv1, Hcb1, Hw1, Hk1.
    match type of Hinv1 with
    | winv ?w1 ?U1 => destruct (IH w1 U1 Hinv1) as (w' & U' & Hrun & Hinv' & Hcb' & Hw' & Hk')
    end.
    + rewrite Hcb1.
      replace (currentBit w + 8) with (currentBit w + 1 * 8) by lia.
      rewrite Z.mod_add by lia. exact Hal.
    + rewrite Hcb1. lia.
    + exists w', U'. split; [exact Hrun|]. split; [exact Hinv'|].
      split; [exact Hcb'|]. split; [lia|].
      intros k Hk. rewrite Hk' by lia. apply Hk1. exact Hk.
Qed.

Lemma Pad_loop_stream fuel : forall fillBit offset w U,
  winv w U -> currentBit w mod 8 <= Z.of_nat fuel ->
  exists w' U',
    Pad_loop fuel fillBit offset w = Some w'
    /\ winv w' U' /\ currentBit w' mod 8 = 0
    /\ written w U <= written w' U'
    /\ (forall k, 0 <= k < written w U -> wbit w' U' k = wbit w U k).
Proof.
  induction fuel as [|fuel IH]; intros fillBit offset w U Hinv Hf;
    cbn [Pad_loop]; rewrite land7;
    assert (Hcb : 0 <= currentBit w <= 64) by apply Hinv;
    pose proof (Z.mod_pos_bound (currentBit w) 8 ltac:(lia)) as Hmb;
    destruct (Z.eqb_spec (currentBit w mod 8) 0) as [E|E]; cbn [negb];
    try solve [exists w, U; split; [reflexivity|split; [exact Hinv|
               split; [lia|split; [lia|intros; reflexivity]]]]].
  - change (Z.of_nat 0) with 0 in Hf. lia.
  - set (bit := if negb (Z.land fillBit (u8 offset) =? 0) then 1 else 0).
    assert (Hbit : 0 <= bit < 2 ^ 1)
      by (unfold bit; destruct (negb _); change (2 ^ 1) with 2; lia).
    destruct (Write_stream w U bit 1 Hinv ltac:(lia) Hbit)
      as (U1 & Hinv1 & Hw1 & Hk1 & _).
    assert (Ht : typed w) by (unfold typed; change (2 ^ 32) with 4294967296; lia).
    pose proof (Write_one_bit w bit Ht E) as Hcb1.
    assert (Hm : currentBit (Write w bit 1) mod 8 <= Z.of_nat fuel).
    { rewrite Hcb1.
      pose proof (Z.mod_pos_bound (currentBit w - 1) 8 ltac:(lia)).
      pose proof (Z.div_mod (currentBit w) 8 ltac:(lia)).
      pose proof (Z.div_mod (currentBit w - 1) 8 ltac:(lia)). lia. }
    destruct (IH fillBit (shl32 offset 1) (Write w bit 1) U1 Hinv1 Hm)
      as (w' & U' & Hrun & Hinv' & Hal' & Hw' & Hk').
    exists w', U'. split; [exact Hrun|]. split; [exact Hinv'|].
    split; [exact Hal'|]. split; [lia|].
    intros k Hk. rewrite Hk' by lia. apply Hk1. exact Hk.
Qed.

Lemma totalBits_nonneg items : Forall validItem items -> 0 <= totalBits items.
Proof.
  induction 1 as [|it items Hit _ IH]; cbn [totalBits fold_right]; [lia|].
  fold (totalBits items). destruct Hit as [Hn _]. lia.
Qed.

(** A run of writes lays the items out one after the other. *)
Lemma writeBits_stream items : forall w U,
  winv w U -> Forall validItem items ->
  exists U',
    winv (writeBits w items) U'
    /\ written (writeBits w items) U' = written w U + totalBits items
    /\ (forall k, 0 <= k < written w U ->
          wbit (writeBits w items) U' k = wbit w U k)
    /\ (forall k, 0 <= k < totalBits items ->
          wbit (writeBits w items) U' (written w U + k) = itemsBit items k).
Proof.
  induction items as [|[v n] items IH]; intros w U Hinv Hitems.
  - exists U. cbn [writeBits fold_left totalBits fold_right].
    split; [exact Hinv|]. split; [lia|]. split; [reflexivity|].
    intros k Hk. lia.
  - inversion Hitems as [|it its [Hn Hv] Hrest]; subst.
    cbn [fst snd] in Hn, Hv.
    destruct (Write_stream w U v n Hinv Hn Hv) as (U1 & Hinv1 & Hw1 & Hk1 & Hnew).
    destruct (IH (Write w v n) U1 Hinv1 Hrest) as (U' & Hinv' & Hw' & Hk' & Hnew').
    pose proof (totalBits_nonneg items Hrest) as Htot.
    assert (Hwr : 0 <= written w U).
    { unfold written. destruct Hinv as (_ & _ & Hcb & _). lia. }
    exists U'. unfold writeBits in *. cbn [fold_left fst snd].
    cbn [totalBits fold_right itemsBit fst snd]. fold (totalBits items).
    split; [exact Hinv'|]. split; [lia|]. split.
    + intros k Hk. rewrite Hk' by lia. apply Hk1. exact Hk.
    + intros k Hk. destruct (Z.ltb_spec k n) as [Hin|Hout].
      * rewrite Hk' by lia. apply Hnew. lia.
      * replace (written w U + k)
          with (written (Write w v n) U1 + (k - n)) by lia.
        apply Hnew'. lia.
Qed.

(** The finished segment: [Pad] and [DetachBuffer] hand out the stuffed
    form of bytes whose bits begin with the items. *)
Lemma encodeBits_stream items fillBit :
  Forall validItem items ->
  exists U,
    encodeBits items fillBit = Some (stuff U)
    /\ Forall (fun b => 0 <= b < 256) U
    /\ totalBits items <= 8 * Z.of_nat (length U)
    /\ (forall k, 0 <= k < totalBits items ->
          byteStream U k = itemsBit items k).
Proof.
  intros Hitems.
  assert (H0 : winv NewBitWriter []).
  { unfold winv, NewBitWriter. cbn. repeat split; try lia.
    - constructor.
    - intros i _. apply Z.testbit_0_l. }
  destruct (writeBits_stream items NewBitWriter [] H0 Hitems)
    as (U1 & Hinv1 & Hw1 & _ & Hnew1).
  assert (Hz : written NewBitWriter [] = 0) by reflexivity.
  rewrite Hz in Hw1, Hnew1. cbn [Z.add] in Hw1.
  set (w1 := writeBits NewBitWriter items) in *.
  assert (Hcb1 : 0 <= currentBit w1 <= 64) by apply Hinv1.
  destruct (Pad_loop_stream 7 fillBit 1 w1 U1 Hinv1) as
    (w2 & U2 & Hrun2 & Hinv2 & Hal2 & Hw2 & Hk2).
  { pose proof (Z.mod_pos_bound (currentBit w1) 8 ltac:(lia)).
    change (Z.of_nat 7) with 7. lia. }
  assert (Hcb2 : 0 <= currentBit w2 <= 64) by apply Hinv2.
  destruct (flush_stream 8 w2 U2 Hinv2 Hal2) as
    (w3 & U3 & Hrun3 & Hinv3 & Hcb3 & Hw3 & Hk3).
  { change (Z.of_nat 8) with 8. lia. }
  exists U3. unfold encodeBits, Pad. fold w1.
  rewrite Hrun2. unfold flushWholeBytes. rewrite Hrun3.
  unfold DetachBuffer, flushWholeBytes. cbn [flushWholeBytes_loop].
  rewrite Hcb3. change (64 <=? 56) with false. cbv iota.
  cbn [option_map fst].
  destruct Hinv3 as (Hbuf3 & HU3 & _).
  split; [rewrite Hbuf3; reflexivity|]. split; [exact HU3|].
  assert (Hlen : written w3 U3 = 8 * Z.of_nat (length U3))
    by (unfold written; lia).
  pose proof (totalBits_nonneg items Hitems) as Htot.
  split; [lia|].
  intros k Hk. rewrite <- (Hnew1 k Hk).
  replace (0 + k) with k by lia.
  rewrite <- Hk2 by lia. rewrite <- Hk3 by lia.
  unfold wbit at 1.
  destruct (Z.ltb_spec k (8 * Z.of_nat (length U3))); [reflexivity|lia].
Qed.

Lemma unstuff_stuff U :
  Forall (fun b => 0 <= b < 256) U ->
  spec_unstuff (bytesReader (stuff U)) = (U, AtEOF)
  /\ Forall isByte (bytesReader (stuff U)).
Proof.
  induction 1 as [|b U Hb _ [IHu IHb]].
  - split; [reflexivity|constructor].
  - unfold stuff, bytesReader in *. cbn [flat_map]. unfold ffEncoded at 1 3.
    destruct (Z.eqb_spec b 255) as [->|Hne]; cbn [app map].
    + rewrite unstuff_escaped, IHu. cbn [fst snd].
      split; [reflexivity|]. repeat constructor; cbn [isByte]; try lia.
      exact IHb.
    + rewrite unstuff_plain by (apply Z.eqb_neq; exact Hne).
      rewrite IHu. cbn [fst snd].
      split; [reflexivity|]. constructor; [exact Hb|exact IHb].
Qed.

Lemma bits_value_item f v n :
  0 <= n -> 0 <= v < 2 ^ n ->
  (forall j, 0 <= j < n -> f j = Z.testbit v (n - 1 - j)) ->
  spec_bits_value f (Z.to_nat n) = v.
Proof.
  intros Hn Hv Hf.
  rewrite (bits_value_ext f (fun k => Z.testbit v (n - 1 - k)))
    by (intros k Hk; apply Hf; lia).
  rewrite bits_value_register by lia.
  rewrite Z2Nat.id by lia.
  replace (n - n) with 0 by lia. rewrite Z.pow_0_r, Z.div_1_r.
  apply Z.mod_small. exact Hv.
Qed.

(** A run of reads over a stream that begins with the items returns
    their values. *)
Lemma readBits_stream items : forall r,
  wf r -> ending r = AtEOF -> Forall validItem items ->
  (forall k, 0 <= k < totalBits items -> spec_stream r k = itemsBit items k) ->
  exists r', readBits r (map snd items) = Some (Ok (map fst items, r')).
Proof.
  induction items as [|[v n] items IH]; intros r Hwf Hend Hitems Hbits.
  - exists r. reflexivity.
  - inversion Hitems as [|it its [Hn Hv] Hrest]; subst.
    cbn [fst snd] in Hn, Hv.
    pose proof (totalBits_nonneg items Hrest) as Htot.
    cbn [map fst snd readBits].
    pose proof (Read_spec r n Hwf Hn) as Hpost.
    unfold read_post in Hpost.
    destruct (Read r n) as [[[v' r1]|[| x | |]|]|];
      try contradiction;
      try (destruct Hpost as (_ & Hbad & _); congruence);
      try (destruct Hpost as (_ & Hbad); congruence).
    destruct Hpost as (Hval & Hnext & Hwf1 & _ & Hend1 & _).
    assert (Hv' : v' = v).
    { rewrite Hval. apply bits_value_item; [lia|exact Hv|].
      intros j Hj. rewrite Hbits.
      - cbn [itemsBit fst snd].
        destruct (Z.ltb_spec j n); [reflexivity|lia].
      - cbn [totalBits fold_right snd]. fold (totalBits items). lia. }
    destruct (IH r1 Hwf1 ltac:(congruence) Hrest) as (r' & Hr').
    + intros k Hk. rewrite Hnext by lia. rewrite Hbits.
      * cbn [itemsBit fst snd].
        destruct (Z.ltb_spec (n + k) n); [lia|]. f_equal. lia.
      * cbn [totalBits fold_right snd]. fold (totalBits items). lia.
    + exists r'. rewrite Hr', Hv'. reflexivity.
Qed.

(** What the bit writer writes, the bit reader reads back: any run of
    values of up to 16 bits each, written with [Write], padded with any
    fill pattern and detached, is a byte sequence with every [0xFF]
    stuffed, from which the same run of [Read] calls returns the values
    in order, without an error. *)
Theorem BitWriter_BitReader_roundtrip (items : list (Z * Z)) (fillBit : Z) :
  Forall validItem items ->
  exists data r',
    encodeBits items fillBit = Some data
    /\ ffEscaped data
    /\ readBits (NewBitReader (bytesReader data)) (map snd items)
       = Some (Ok (map fst items, r')).
Proof.
  intros Hitems.
  destruct (encodeBits_stream items fillBit Hitems)
    as (U & Henc & HU & Hlen & Hbits).
  destruct (unstuff_stuff U HU) as [Hun Hby].
  set (r0 := NewBitReader (bytesReader (stuff U))).
  assert (Hwf : wf r0).
  { unfold r0, NewBitReader. apply wf_mk; [|lia|exact Hby].
    change (2 ^ 64) with 18446744073709551616. lia. }
  assert (Hend : ending r0 = AtEOF).
  { unfold ending, r0, NewBitReader. cbn [inner]. rewrite Hun. reflexivity. }
  destruct (readBits_stream items r0 Hwf Hend Hitems) as (r' & Hr').
  { intros k Hk. unfold spec_stream, r0, NewBitReader.
    cbn [bitsLeft inner bits]. rewrite Hun. cbn [fst].
    destruct (Z.ltb_spec k 0); [lia|].
    replace (k - 0) with k by lia. apply Hbits. exact Hk. }
  exists (stuff U), r'. split; [exact Henc|]. split; [|exact Hr'].
  unfold stuff. clear. induction U as [|b U IH]; cbn [flat_map].
  - exact I.
  - apply ffEscaped_app; [apply ffEncoded_escaped|exact IH].
Qed.

Lemma BitWriter_BitReader_roundtrip_witness :
  exists data r',
    encodeBits [(0xFF, 8); (5, 3); (0x1FFF, 13); (0, 0); (1, 1)] 0xFF
    = Some data
    /\ ffEscaped data
    /\ readBits (NewBitReader (bytesReader data)) [8; 3; 13; 0; 1]
       = Some (Ok ([0xFF; 5; 0x1FFF; 0; 1], r')).
Proof.
  apply (BitWriter_BitReader_roundtrip
           [(0xFF, 8); (5, 3); (0x1FFF, 13); (0, 0); (1, 1)] 0xFF).
  repeat constructor; cbn [fst snd]; try lia.
Defined.

End BitRoundtripFacts.

(** ** BlockBasedImage: a store of blocks that grows on demand *)

Section ImageFacts.
Import AlignedBlock BlockBasedImage.

Lemma len32_small (bs : list AlignedBlock) :
  Z.of_nat (length bs) < 2 ^ 32 -> len32 bs = Z.of_nat (length bs).
Proof. intros H. unfold len32, u32. apply Z.mod_small. lia. Qed.

(** The extension loop appends empty blocks up to index [dpos], and
    nothing when the store is long enough. *)
Lemma extend_loop_spec fuel : forall bs dpos,
  0 <= dpos < 2 ^ 32 - 1 -> Z.of_nat (length bs) < 2 ^ 32 ->
  dpos + 1 - Z.of_nat (length bs) <= Z.of_nat fuel ->
  extend_loop fuel bs dpos
  = Some (bs ++ replicate (Z.to_nat (dpos + 1) - length bs) emptyBlock).
Proof.
  induction fuel as [|fuel IH]; intros bs dpos Hd Hlen Hf;
    cbn [extend_loop]; rewrite len32_small by exact Hlen;
    destruct (Z.leb_spec (Z.of_nat (length bs)) dpos) as [Hshort|Hlong].
  - change (Z.of_nat 0) with 0 in Hf. lia.
  - replace (Z.to_nat (dpos + 1) - length bs)%nat with 0%nat by lia.
    cbn [replicate]. rewrite app_nil_r. reflexivity.
  - rewrite IH; try (rewrite length_app; cbn [length]; lia); [|exact Hd].
    rewrite length_app. cbn [length].
    replace (Z.to_nat (dpos + 1) - length bs)%nat
      with (S (Z.to_nat (dpos + 1) - (length bs + 1)))%nat by lia.
    cbn [replicate]. rewrite <- app_assoc. reflexivity.
  - replace (Z.to_nat (dpos + 1) - length bs)%nat with 0%nat by lia.
    cbn [replicate]. rewrite app_nil_r. reflexivity.
Qed.

Lemma nth_extended (bs : list AlignedBlock) k i :
  nth i (bs ++ replicate k emptyBlock) emptyBlock = nth i bs emptyBlock.
Proof.
  destruct (Nat.lt_ge_cases i (length bs)) as [Hin|Hout].
  - apply app_nth1. exact Hin.
  - rewrite app_nth2 by exact Hout.
    rewrite (nth_overflow bs) by exact Hout.
    generalize (i - length bs)%nat. clear. intros j. revert j.
    induction k as [|k IH]; intros [|j]; cbn [replicate nth]; auto.
Qed.

Lemma nth_insert_block (bs : list AlignedBlock) i j b :
  (i < length bs)%nat ->
  nth j (<[i := b]> bs) emptyBlock
  = if Nat.eqb j i then b else nth j bs emptyBlock.
Proof.
  revert i j. induction bs as [|x bs IH]; intros i j Hi; [cbn in Hi; lia|].
  destruct i as [|i]; destruct j as [|j]; cbn; try reflexivity.
  apply IH. cbn in Hi. lia.
Qed.

(** The store behaves as a total map from positions to blocks whose
    default is the empty block: [SetBlockByDpos] always succeeds, the
    block is then found at its position, every other position reads as
    before (positions never written read as the empty block), and the
    store has grown to [dpos + 1] blocks if it was shorter. *)
Theorem SetBlockByDpos_GetBlock (img : BlockBasedImage) (dpos : Z)
    (block : AlignedBlock) :
  0 <= dpos < 2 ^ 32 - 1 -> GetNumBlocks img < 2 ^ 32 ->
  exists img',
    SetBlockByDpos img dpos block = Some img'
    /\ GetBlock img' dpos = block
    /\ (forall d, 0 <= d -> d <> dpos -> GetBlock img' d = GetBlock img d)
    /\ GetNumBlocks img' = Z.max (GetNumBlocks img) (dpos + 1).
Proof.
  unfold GetNumBlocks. intros Hd Hlen.
  unfold SetBlockByDpos.
  rewrite extend_loop_spec by (try assumption; lia).
  set (k := (Z.to_nat (dpos + 1) - length (blocks img))%nat).
  set (bs := blocks img ++ replicate k emptyBlock).
  assert (Hbs : length bs = Nat.max (length (blocks img)) (Z.to_nat (dpos + 1))).
  { unfold bs. rewrite length_app, length_replicate. unfold k. lia. }
  eexists. split; [reflexivity|].
  unfold GetBlock, setBlocks. cbn [blocks].
  assert (Hins : length (<[Z.to_nat dpos := block]> bs) = length bs)
    by apply length_insert.
  rewrite !len32_small by (rewrite ?Hins, ?Hbs; lia).
  rewrite Hins, Hbs. split; [|split].
  - destruct (Z.leb_spec (Z.of_nat (Nat.max (length (blocks img))
                                      (Z.to_nat (dpos + 1)))) dpos); [lia|].
    rewrite nth_insert_block by lia. rewrite Nat.eqb_refl. reflexivity.
  - intros d Hd0 Hne.
    assert (Hread : nth (Z.to_nat d) (<[Z.to_nat dpos := block]> bs) emptyBlock
                    = nth (Z.to_nat d) (blocks img) emptyBlock).
    { rewrite nth_insert_block by lia.
      destruct (Nat.eqb_spec (Z.to_nat d) (Z.to_nat dpos)) as [E|_]; [lia|].
      apply nth_extended. }
    rewrite Hread.
    destruct (Z.leb_spec (Z.of_nat (Nat.max (length (blocks img))
                                      (Z.to_nat (dpos + 1)))) d);
      destruct (Z.leb_spec (Z.of_nat (length (blocks img))) d);
      try reflexivity; try lia.
    apply nth_overflow. lia.
  - lia.
Qed.

Lemma SetBlockByDpos_GetBlock_witness :
  let img := mkImage [] 4 3 [] in
  exists img',
    SetBlockByDpos img 2 (replicate 64 7) = Some img'
    /\ GetBlock img' 2 = replicate 64 7
    /\ (forall d, 0 <= d -> d <> 2 -> GetBlock img' d = GetBlock img d)
    /\ GetNumBlocks img' = Z.max (GetNumBlocks img) (2 + 1).
Proof.
  apply (SetBlockByDpos_GetBlock (mkImage [] 4 3 []) 2 (replicate 64 7)).
  - change (2 ^ 32) with 4294967296. lia.
  - unfold GetNumBlocks. cbn [blocks length].
    change (2 ^ 32) with 4294967296. lia.
Defined.

(** [EnsureBlock] always succeeds, returns the block that [GetBlock]
    reads at the position, and changes no read. *)
Theorem EnsureBlock_reads_unchanged (img : BlockBasedImage) (dpos : Z) :
  0 <= dpos < 2 ^ 32 - 1 -> GetNumBlocks img < 2 ^ 32 ->
  exists img',
    EnsureBlock img dpos = Some (GetBlock img dpos, img')
    /\ (forall d, 0 <= d -> GetBlock img' d = GetBlock img d)
    /\ dpos < GetNumBlocks img'.
Proof.
  unfold GetNumBlocks. intros Hd Hlen.
  unfold EnsureBlock.
  rewrite extend_loop_spec by (try assumption; lia).
  set (k := (Z.to_nat (dpos + 1) - length (blocks img))%nat).
  assert (Hbs : length (blocks img ++ replicate k emptyBlock)
                = Nat.max (length (blocks img)) (Z.to_nat (dpos + 1))).
  { rewrite length_app, length_replicate. unfold k. lia. }
  assert (Hget : forall d, 0 <= d ->
    GetBlock (setBlocks img (blocks img ++ replicate k emptyBlock)) d
    = GetBlock img d).
  { intros d Hd0. unfold GetBlock, setBlocks. cbn [blocks].
    rewrite !len32_small by (rewrite ?Hbs; lia).
    rewrite Hbs, nth_extended.
    destruct (Z.leb_spec (Z.of_nat (Nat.max (length (blocks img))
                                      (Z.to_nat (dpos + 1)))) d);
      destruct (Z.leb_spec (Z.of_nat (length (blocks img))) d);
      try reflexivity; try lia.
    apply nth_overflow. lia. }
  eexists. split; [|split; [exact Hget|]].
  - f_equal. f_equal. rewrite nth_extended.
    unfold GetBlock. rewrite len32_small by lia.
    destruct (Z.leb_spec (Z.of_nat (length (blocks img))) dpos);
      [|reflexivity].
    apply nth_overflow. lia.
  - unfold setBlocks. cbn [blocks]. rewrite Hbs. lia.
Qed.

Lemma EnsureBlock_reads_unchanged_witness :
  let img := mkImage [replicate 64 1] 4 3 [] in
  exists img',
    EnsureBlock img 5 = Some (GetBlock img 5, img')
    /\ (forall d, 0 <= d -> GetBlock img' d = GetBlock img d)
    /\ 5 < GetNumBlocks img'.
Proof.
  apply (EnsureBlock_reads_unchanged (mkImage [replicate 64 1] 4 3 []) 5).
  - change (2 ^ 32) with 4294967296. lia.
  - unfold GetNumBlocks. cbn [blocks length].
    change (2 ^ 32) with 4294967296. lia.
Defined.

End ImageFacts.

(** ** Thread handoffs: what the header writer stores, the parser finds *)

Section HandoffFacts.
Import CoefCoding ThreadHandoffs HandoffFormat.

Lemma testbit_u8 v i :
  0 <= i -> Z.testbit (u8 v) i = (i <? 8) && Z.testbit v i.
Proof.
  intros Hi. unfold u8. destruct (Z.ltb_spec i 8).
  - rewrite Z.mod_pow2_bits_low by lia. reflexivity.
  - rewrite Z.mod_pow2_bits_high by lia. reflexivity.
Qed.

Lemma testbit_byte_at v k i :
  0 <= k -> 0 <= i ->
  Z.testbit (Z.shiftl (u8 (Z.shiftr v k)) k) i
  = (k <=? i) && (i <? k + 8) && Z.testbit v i.
Proof.
  intros Hk Hi. destruct (Z.leb_spec k i) as [Hge|Hlt].
  - rewrite Z.shiftl_spec, testbit_u8, Z.shiftr_spec by lia.
    replace (i - k + k) with i by lia.
    destruct (Z.ltb_spec (i - k) 8); destruct (Z.ltb_spec i (k + 8));
      try lia; reflexivity.
  - rewrite Z.shiftl_spec_low by lia. reflexivity.
Qed.

Lemma Uint16_putUint16 v :
  0 <= v < 2 ^ 16 ->
  Z.lor (u8 v) (Z.shiftl (u8 (Z.shiftr v 8)) 8) = v.
Proof.
  intros Hv. apply Z.bits_inj'. intros i Hi.
  rewrite Z.lor_spec, testbit_u8, testbit_byte_at by lia.
  destruct (Z.ltb_spec i 8); destruct (Z.leb_spec 8 i);
    destruct (Z.ltb_spec i (8 + 8)); try lia; cbn [andb orb];
    rewrite ?orb_false_r; try reflexivity.
  symmetry. apply (testbit_above v 16); lia.
Qed.

Lemma Uint32_putUint32 v :
  0 <= v < 2 ^ 32 ->
  Z.lor (Z.lor (Z.lor (u8 v) (Z.shiftl (u8 (Z.shiftr v 8)) 8))
               (Z.shiftl (u8 (Z.shiftr v 16)) 16))
        (Z.shiftl (u8 (Z.shiftr v 24)) 24) = v.
Proof.
  intros Hv. apply Z.bits_inj'. intros i Hi.
  rewrite !Z.lor_spec, testbit_u8, !testbit_byte_at by lia.
  destruct (Z.ltb_spec i 8); destruct (Z.leb_spec 8 i);
    destruct (Z.ltb_spec i (8 + 8)); destruct (Z.leb_spec 16 i);
    destruct (Z.ltb_spec i (16 + 8)); destruct (Z.leb_spec 24 i);
    destruct (Z.ltb_spec i (24 + 8)); try lia; cbn [andb orb];
    rewrite ?orb_false_r; try reflexivity.
  symmetry. apply (testbit_above v 32); lia.
Qed.

Lemma s16_u16 d : - 32768 <= d <= 32767 -> s16 (u16 d) = d.
Proof.
  intros Hd. unfold s16, u16.
  change (2 ^ 15) with 32768. change (2 ^ 16) with 65536.
  rewrite Zplus_mod_idemp_l.
  rewrite (Z.mod_small (d + 32768)) by lia. lia.
Qed.

Lemma u16_range v : 0 <= u16 v < 2 ^ 16.
Proof. unfold u16. apply Z.mod_pos_bound. lia. Qed.

(** Reading inside a block that sits between a prefix and a tail. *)
Lemma index_block (pre blk tl : list Z) (k : nat) (p : Z) :
  p = Z.of_nat (length pre) + Z.of_nat k -> (k < length blk)%nat ->
  index (E:=HeaderError) (pre ++ blk ++ tl) p = Ok (nth k blk 0).
Proof.
  intros -> Hk. unfold index.
  destruct (Z.ltb_spec (Z.of_nat (length pre) + Z.of_nat k) 0); [lia|].
  replace (Z.to_nat (Z.of_nat (length pre) + Z.of_nat k))
    with (length pre + k)%nat by lia.
  rewrite lookup_app_r by lia.
  replace (length pre + k - length pre)%nat with k by lia.
  rewrite lookup_app_l by exact Hk.
  destruct (nth_lookup_or_length blk k 0) as [Hl|Hl]; [|lia].
  rewrite Hl. reflexivity.
Qed.

Lemma writeHandoff_length h : length (writeHandoff h) = 16%nat.
Proof. reflexivity. Qed.

Lemma writeHandoffs_length hs :
  length (writeHandoffs hs) = (16 * length hs)%nat.
Proof.
  induction hs as [|h hs IH]; [reflexivity|].
  unfold writeHandoffs in *. cbn [flat_map].
  rewrite length_app, IH, writeHandoff_length. cbn [length]. lia.
Qed.

(** The first loop reads back what was stored. *)
Lemma parse_loop_stored hs : forall pre tl,
  Forall typedHandoff hs ->
  parse_loop (length hs) (pre ++ writeHandoffs hs ++ tl)
             (Z.of_nat (length pre))
  = Ok (map stored hs,
        Z.of_nat (length pre) + 16 * Z.of_nat (length hs)).
Proof.
  induction hs as [|h hs IH]; intros pre tl Hall.
  - cbn [length parse_loop map]. f_equal. f_equal. lia.
  - inversion Hall as [|h' hs' Hh Hrest]; subst.
    destruct Hh as (Hy & Hs & Hob & Hnb & Hlen & Hdc).
    destruct h as [ys ye ss ob nb dc].
    cbn [LumaYStart LumaYEnd SegmentSize OverhangByte NumOverhangBits LastDC]
      in *.
    destruct dc as [|d0 [|d1 [|d2 [|d3 [|? ?]]]]]; try discriminate Hlen.
    inversion Hdc as [|? ? Hd0 Hdc1]; subst.
    inversion Hdc1 as [|? ? Hd1 Hdc2]; subst.
    inversion Hdc2 as [|? ? Hd2 Hdc3]; subst.
    inversion Hdc3 as [|? ? Hd3 _]; subst.
    set (h := mkThreadHandoff ys ye ss ob nb [d0; d1; d2; d3]).
    unfold writeHandoffs. cbn [flat_map length parse_loop].
    fold (writeHandoffs hs). rewrite <- app_assoc.
    set (data := pre ++ writeHandoff h ++ writeHandoffs hs ++ tl).
    set (pos := Z.of_nat (length pre)).
    assert (Hidx : forall (k : nat) p,
      p = pos + Z.of_nat k -> (k < 16)%nat ->
      index (E:=HeaderError) data p = Ok (nth k (writeHandoff h) 0)).
    { intros k p Hp Hk. apply index_block; [exact Hp|].
      rewrite writeHandoff_length. exact Hk. }
    unfold Uint16, Uint32.
    rewrite (Hidx 0%nat pos), (Hidx 1%nat (pos + 1)),
      (Hidx 2%nat (pos + 2)), (Hidx 3%nat (pos + 2 + 1)),
      (Hidx 4%nat (pos + 2 + 2)), (Hidx 5%nat (pos + 2 + 3)),
      (Hidx 6%nat (pos + 2 + 4)), (Hidx 7%nat (pos + 2 + 4 + 1)),
      (Hidx 8%nat (pos + 2 + 4 + 1 + 1)),
      (Hidx 9%nat (pos + 2 + 4 + 1 + 1 + 1)),
      (Hidx 10%nat (pos + 2 + 4 + 1 + 1 + 2)),
      (Hidx 11%nat (pos + 2 + 4 + 1 + 1 + 2 + 1)),
      (Hidx 12%nat (pos + 2 + 4 + 1 + 1 + 4)),
      (Hidx 13%nat (pos + 2 + 4 + 1 + 1 + 4 + 1)),
      (Hidx 14%nat (pos + 2 + 4 + 1 + 1 + 6)),
      (Hidx 15%nat (pos + 2 + 4 + 1 + 1 + 6 + 1)) by lia.
    cbn [mbind result_bind nth writeHandoff putUint16 putUint32 app flat_map
         LumaYStart SegmentSize OverhangByte NumOverhangBits LastDC h].
    change (at_ [d0; d1; d2; d3] 0) with d0.
    change (at_ [d0; d1; d2; d3] 1) with d1.
    change (at_ [d0; d1; d2; d3] 2) with d2.
    change (at_ [d0; d1; d2; d3] 3) with d3.
    rewrite Uint32_putUint32 by exact Hs.
    rewrite !Uint16_putUint16 by apply u16_range.
    rewrite !s16_u16 by assumption.
    assert (Hpre : data = (pre ++ writeHandoff h) ++ writeHandoffs hs ++ tl)
      by (unfold data; rewrite <- app_assoc; reflexivity).
    assert (Hpos : pos + 2 + 4 + 1 + 1 + 8
                   = Z.of_nat (length (pre ++ writeHandoff h))).
    { rewrite length_app, writeHandoff_length. unfold pos. lia. }
    rewrite Hpos, Hpre, (IH (pre ++ writeHandoff h) tl Hrest).
    cbn [mbind result_bind map]. unfold stored at 2.
    cbn [LumaYStart SegmentSize OverhangByte NumOverhangBits LastDC h].
    f_equal. f_equal. rewrite length_app, writeHandoff_length. lia.
Qed.

(** What the second loop leaves at index [k]: the handoff with
    [LumaYEnd] replaced by the next handoff's [LumaYStart]; the last
    handoff is left as it is. *)
Lemma setLumaYEnds_lookup (l : list ThreadHandoff) : forall k : nat,
  setLumaYEnds l !! k
  = match l !! k with
    | Some h =>
        Some (mkThreadHandoff (LumaYStart h)
                (match l !! S k with
                 | Some next => LumaYStart next
                 | None => LumaYEnd h
                 end)
                (SegmentSize h) (OverhangByte h) (NumOverhangBits h)
                (LastDC h))
    | None => None
    end.
Proof.
  induction l as [|h [|next rest] IH]; intros k.
  - reflexivity.
  - destruct k as [|k]; [destruct h|]; reflexivity.
  - destruct k as [|k]; [reflexivity|].
    change (setLumaYEnds (h :: next :: rest))
      with (mkThreadHandoff (LumaYStart h) (LumaYStart next) (SegmentSize h)
              (OverhangByte h) (NumOverhangBits h) (LastDC h)
            :: setLumaYEnds (next :: rest)).
    change ((?x :: ?t) !! S k) with (t !! k).
    rewrite IH. reflexivity.
Qed.

Lemma setLumaYEnds_length (l : list ThreadHandoff) :
  length (setLumaYEnds l) = length l.
Proof.
  induction l as [|h [|next rest] IH]; [reflexivity|reflexivity|].
  change (setLumaYEnds (h :: next :: rest))
    with (mkThreadHandoff (LumaYStart h) (LumaYStart next) (SegmentSize h)
            (OverhangByte h) (NumOverhangBits h) (LastDC h)
          :: setLumaYEnds (next :: rest)).
  cbn [length]. rewrite IH. reflexivity.
Qed.

(** The handoffs the header writer stores are the handoffs the parser
    returns, with two exceptions the format imposes: [LumaYStart] is
    kept modulo 65536, and [LumaYEnd] is not stored: the parser returns
    as [LumaYEnd] of the handoff at index [k] the stored [LumaYStart]
    of the handoff at index [k + 1], and zero for the last handoff.
    The parser consumes 16 bytes per handoff. *)
Theorem parseThreadHandoffs_roundtrip (hs : list ThreadHandoff)
    (tl : list Z) :
  Forall typedHandoff hs ->
  exists out,
    parseThreadHandoffs (writeHandoffs hs ++ tl) (Z.of_nat (length hs))
    = Ok (out, 16 * Z.of_nat (length hs))
    /\ length out = length hs
    /\ forall (k : nat) (h : ThreadHandoff),
         hs !! k = Some h ->
         out !! k
         = Some (mkThreadHandoff
                   (LumaYStart h mod 65536)
                   (match hs !! S k with
                    | Some next => LumaYStart next mod 65536
                    | None => 0
                    end)
                   (SegmentSize h) (OverhangByte h) (NumOverhangBits h)
                   (LastDC h)).
Proof.
  intros Hall. exists (setLumaYEnds (map stored hs)).
  split; [|split].
  - unfold parseThreadHandoffs.
    rewrite length_app, writeHandoffs_length.
    destruct (Z.ltb_spec (Z.of_nat (16 * length hs + length tl))
                         (Z.of_nat (length hs) * 16)); [lia|].
    destruct (Z.ltb_spec (Z.of_nat (length hs)) 0); [lia|].
    rewrite Nat2Z.id.
    pose proof (parse_loop_stored hs [] tl Hall) as Hp.
    cbn [app length] in Hp. change (Z.of_nat 0) with 0 in Hp.
    rewrite Hp. cbn [mbind result_bind]. reflexivity.
  - rewrite setLumaYEnds_length, length_map. reflexivity.
  - intros k h Hk. rewrite setLumaYEnds_lookup, !list_lookup_fmap, Hk.
    cbn [fmap option_fmap option_map stored LumaYStart LumaYEnd SegmentSize
         OverhangByte NumOverhangBits LastDC].
    destruct (hs !! S k) as [next|]; reflexivity.
Qed.

Lemma parseThreadHandoffs_roundtrip_witness :
  let h1 := mkThreadHandoff 0 9 1000 0x80 1 [5; -3; 7; 0] in
  let h2 := mkThreadHandoff 70000 20 70000 0 0 [-32768; 32767; 0; 0] in
  exists out,
    parseThreadHandoffs (writeHandoffs [h1; h2] ++ [1; 2; 3]) (Z.of_nat 2)
    = Ok (out, 16 * Z.of_nat 2)
    /\ length out = 2%nat
    /\ forall (k : nat) (h : ThreadHandoff),
         [h1; h2] !! k = Some h ->
         out !! k
         = Some (mkThreadHandoff
                   (LumaYStart h mod 65536)
                   (match [h1; h2] !! S k with
                    | Some next => LumaYStart next mod 65536
                    | None => 0
                    end)
                   (SegmentSize h) (OverhangByte h) (NumOverhangBits h)
                   (LastDC h)).
Proof.
  apply (parseThreadHandoffs_roundtrip
           [mkThreadHandoff 0 9 1000 0x80 1 [5; -3; 7; 0];
            mkThreadHandoff 70000 20 70000 0 0 [-32768; 32767; 0; 0]]
           [1; 2; 3]).
  repeat constructor; cbn; lia.
Defined.

End HandoffFacts.

(** ** AlignedBlock: counting the nonzero interior coefficients *)

Section CountFacts.
Import AlignedBlock BlockCount.

Lemma ind_range x : 0 <= ind x <= 1.
Proof. unfold ind. destruct (x =? 0); lia. Qed.

(** The inner loop adds one per nonzero entry; the [uint8] counter does
    not wrap while it stays below 256. *)
Lemma count_row (f : nat -> Z) (l : list nat) : forall c,
  0 <= c -> c + Z.of_nat (length l) <= 255 ->
  fold_left (fun count col =>
               if negb (f col =? 0) then u8 (count + 1) else count) l c
  = c + fold_right (fun col acc => ind (f col) + acc) 0 l
  /\ 0 <= fold_right (fun col acc => ind (f col) + acc) 0 l
     <= Z.of_nat (length l).
Proof.
  induction l as [|col l IH]; intros c Hc Hl;
    cbn [fold_left fold_right length]; cbn [length] in Hl.
  - split; lia.
  - rewrite Nat2Z.inj_succ in *.
    assert (Hind : ind (f col) = if f col =? 0 then 0 else 1) by reflexivity.
    destruct (f col =? 0); cbn [negb]; rewrite Hind.
    + destruct (IH c Hc ltac:(lia)) as [-> Hb]. split; lia.
    + assert (Hu : u8 (c + 1) = c + 1)
        by (unfold u8; apply Z.mod_small; change (2 ^ 8) with 256; lia).
      rewrite Hu. destruct (IH (c + 1) ltac:(lia) ltac:(lia)) as [-> Hb].
      split; lia.
Qed.

Lemma count_rows (b : AlignedBlock) (rows : list nat) : forall c,
  0 <= c -> c + 7 * Z.of_nat (length rows) <= 255 ->
  fold_left
    (fun count row =>
       fold_left
         (fun count col =>
            if negb (at_ b (Z.of_nat (row * 8 + col)) =? 0)
            then u8 (count + 1) else count)
         (seq 1 7) count)
    rows c
  = c + fold_right
          (fun row acc =>
             fold_right
               (fun col acc => ind (at_ b (Z.of_nat (row * 8 + col))) + acc)
               0 (seq 1 7) + acc)
          0 rows
  /\ 0 <= fold_right
            (fun row acc =>
               fold_right
                 (fun col acc => ind (at_ b (Z.of_nat (row * 8 + col))) + acc)
                 0 (seq 1 7) + acc)
            0 rows
     <= 7 * Z.of_nat (length rows).
Proof.
  induction rows as [|row rows IH]; intros c Hc Hl;
    cbn [fold_left fold_right length]; cbn [length] in Hl.
  - split; lia.
  - rewrite Nat2Z.inj_succ in *.
    destruct (count_row (fun col => at_ b (Z.of_nat (row * 8 + col)))
                (seq 1 7) c Hc) as [Hrow Hb].
    { rewrite length_seq. change (Z.of_nat 7) with 7. lia. }
    rewrite length_seq in Hb. change (Z.of_nat 7) with 7 in Hb.
    rewrite Hrow.
    destruct (IH (c + fold_right
                       (fun col acc =>
                          ind (at_ b (Z.of_nat (row * 8 + col))) + acc)
                       0 (seq 1 7)) ltac:(lia) ltac:(lia)) as [-> Hbs].
    split; lia.
Qed.

Lemma GetCountOfNonZeros7x7_sum b :
  GetCountOfNonZeros7x7 b = interiorSum b /\ 0 <= interiorSum b <= 49.
Proof.
  unfold GetCountOfNonZeros7x7, interiorSum.
  destruct (count_rows b (seq 1 7) 0 ltac:(lia)) as [H Hb].
  { rewrite length_seq. change (Z.of_nat 7) with 7. lia. }
  rewrite length_seq in Hb. change (Z.of_nat 7) with 7 in Hb.
  rewrite H. split; lia.
Qed.

Ltac split64c a H :=
  do 64 (destruct a as [|? a]; [discriminate H|]);
  destruct a; [|discriminate H].

Lemma Transpose_at (a : AlignedBlock) (row col : nat) :
  length a = 64%nat -> (row < 8)%nat -> (col < 8)%nat ->
  at_ (Transpose a) (Z.of_nat (row * 8 + col))
  = at_ a (Z.of_nat (col * 8 + row)).
Proof.
  intros H Hr Hc. split64c a H.
  do 8 (destruct row as [|row];
        [do 8 (destruct col as [|col]; [reflexivity|]); lia|]).
  lia.
Qed.

(** [GetCountOfNonZeros7x7] is the number of nonzero coefficients of
    the 7x7 interior, at most 49 (the [uint8] counter never wraps), and
    transposing the block does not change it. *)
Theorem GetCountOfNonZeros7x7_Transpose (a : AlignedBlock) :
  length a = 64%nat ->
  GetCountOfNonZeros7x7 a = interiorSum a
  /\ 0 <= GetCountOfNonZeros7x7 a <= 49
  /\ GetCountOfNonZeros7x7 (Transpose a) = GetCountOfNonZeros7x7 a.
Proof.
  intros H.
  destruct (GetCountOfNonZeros7x7_sum a) as [Ha Hba].
  destruct (GetCountOfNonZeros7x7_sum (Transpose a)) as [Ht _].
  split; [exact Ha|]. split; [lia|].
  rewrite Ha, Ht. unfold interiorSum. cbn [fold_right seq].
  rewrite !(Transpose_at a) by (try exact H; lia).
  lia.
Qed.

Lemma GetCountOfNonZeros7x7_Transpose_witness :
  let a := map Z.of_nat (seq 0 64) in
  GetCountOfNonZeros7x7 a = interiorSum a
  /\ 0 <= GetCountOfNonZeros7x7 a <= 49
  /\ GetCountOfNonZeros7x7 (Transpose a) = GetCountOfNonZeros7x7 a.
Proof.
  apply (GetCountOfNonZeros7x7_Transpose (map Z.of_nat (seq 0 64))).
  reflexivity.
Defined.

End CountFacts.

(** ** The coefficient order tables *)

Section TableFacts.
Import TableChecks.

(** The three order tables agree: [RasterToZigzag] is a permutation of
    0..63; the coefficient at raster position (row, col) is found,
    through its zigzag index, at the transposed position
    [col * 8 + row]; and [Unzigzag49TR] lists the interior positions in
    the order in which [ZigzagToTransposed] visits them. *)
Theorem zigzag_tables_consistent (row col z : Z) :
  0 <= row < 8 -> 0 <= col < 8 -> 0 <= z < 64 ->
  at_ ZigzagToTransposed (at_ RasterToZigzag (row * 8 + col)) = col * 8 + row
  /\ (exists r, 0 <= r < 64 /\ at_ RasterToZigzag r = z)
  /\ Unzigzag49TR = filter interior ZigzagToTransposed.
Proof.
  intros Hr Hc Hz. split; [|split].
  - assert (Hrow : row = 0 \/ row = 1 \/ row = 2 \/ row = 3 \/ row = 4
                   \/ row = 5 \/ row = 6 \/ row = 7) by lia.
    assert (Hcol : col = 0 \/ col = 1 \/ col = 2 \/ col = 3 \/ col = 4
                   \/ col = 5 \/ col = 6 \/ col = 7) by lia.
    clear Hr Hc.
    repeat (destruct Hrow as [->|Hrow]);
      try subst row;
      repeat (destruct Hcol as [->|Hcol]); try subst col; reflexivity.
  - exists (at_ (map (fun p => p / 8 + (p mod 8) * 8) ZigzagToTransposed) z).
    assert (Hk : exists k, (k < 64)%nat /\ z = Z.of_nat k)
      by (exists (Z.to_nat z); lia).
    destruct Hk as (k & Hk & ->).
    do 64 (destruct k as [|k];
           [split; [vm_compute; split; [intros Hx; discriminate Hx|reflexivity]
                   |reflexivity]|]).
    lia.
  - reflexivity.
Qed.

Lemma zigzag_tables_consistent_witness :
  at_ ZigzagToTransposed (at_ RasterToZigzag (2 * 8 + 5)) = 5 * 8 + 2
  /\ (exists r, 0 <= r < 64 /\ at_ RasterToZigzag r = 17)
  /\ Unzigzag49TR = filter interior ZigzagToTransposed.
Proof. apply (zigzag_tables_consistent 2 5 17); lia. Defined.

End TableFacts.

(** ** Huffman codes: what the writer's table assigns, the reader decodes *)

Section HuffmanFacts.
Import Huffman HuffmanDecode HuffmanCode BitReader BitReaderInv BitReaderPost.
Import CoefCoding JpegSyntax.

Variable t : HuffmanTable.
Hypothesis Hvalid : validTable t.

Lemma numCodes_range b : (1 <= b <= 16)%nat -> 0 <= numCodes t b <= 255.
Proof. apply Hvalid. Qed.

Lemma endCode_nonneg b : (b <= 16)%nat -> 0 <= endCode t b.
Proof.
  induction b as [|b IH]; intros Hb; cbn [endCode]; [lia|].
  pose proof (numCodes_range (S b) ltac:(lia)). specialize (IH ltac:(lia)). lia.
Qed.

Lemma symbolsUpTo_nonneg b : (b <= 16)%nat -> 0 <= symbolsUpTo t b.
Proof.
  induction b as [|b IH]; intros Hb; cbn [symbolsUpTo]; [lia|].
  pose proof (numCodes_range (S b) ltac:(lia)). specialize (IH ltac:(lia)). lia.
Qed.

Lemma symbolsUpTo_mono a b :
  (a <= b <= 16)%nat -> symbolsUpTo t a <= symbolsUpTo t b.
Proof.
  intros [Hab Hb]. induction Hab as [|b Hab IH]; [lia|].
  cbn [symbolsUpTo]. pose proof (numCodes_range (S b) ltac:(lia)).
  specialize (IH ltac:(lia)). lia.
Qed.

(** Codes double from one length to the next. *)
Lemma endCode_shift a d :
  (a + d <= 16)%nat -> endCode t a * 2 ^ Z.of_nat d <= endCode t (a + d).
Proof.
  induction d as [|d IH]; intros Hd.
  - rewrite Nat.add_0_r. change (2 ^ Z.of_nat 0) with 1. lia.
  - replace (a + S d)%nat with (S (a + d)) by lia. cbn [endCode].
    rewrite Nat2Z.inj_succ, Z.pow_succ_r by lia.
    pose proof (numCodes_range (S (a + d)) ltac:(lia)).
    specialize (IH ltac:(lia)). lia.
Qed.

(** Kraft's inequality at every length. *)
Lemma endCode_fits b : (b <= 16)%nat -> endCode t b <= 2 ^ Z.of_nat b.
Proof.
  intros Hb. pose proof (endCode_shift b (16 - b) ltac:(lia)) as Hs.
  replace (b + (16 - b))%nat with 16%nat in Hs by lia.
  destruct Hvalid as (_ & _ & _ & Hk & _).
  assert (Hp : 2 ^ 16 = 2 ^ Z.of_nat b * 2 ^ Z.of_nat (16 - b)).
  { rewrite <- Z.pow_add_r by lia. f_equal. lia. }
  assert (Hpos : 0 < 2 ^ Z.of_nat (16 - b)) by (apply Z.pow_pos_nonneg; lia).
  rewrite Hp in Hk. nia.
Qed.

Lemma pow2_le_65536 b : (b <= 16)%nat -> 1 <= 2 ^ Z.of_nat b <= 65536.
Proof.
  intros Hb. split.
  - change 1 with (2 ^ 0). apply Z.pow_le_mono_r; lia.
  - change 65536 with (2 ^ 16). apply Z.pow_le_mono_r; lia.
Qed.

Lemma insert_at_same (l : list Z) (i : nat) (v : Z) :
  (i < length l)%nat -> at_ (<[i := v]> l) (Z.of_nat i) = v.
Proof.
  intros Hi. unfold at_. rewrite Nat2Z.id, at_insert by exact Hi.
  rewrite Nat.eqb_refl. reflexivity.
Qed.

Lemma insert_at_other (l : list Z) (i j : nat) (v : Z) :
  i <> j -> at_ (<[i := v]> l) (Z.of_nat j) = at_ l (Z.of_nat j).
Proof.
  intros Hne. unfold at_. rewrite Nat2Z.id.
  destruct (Nat.lt_ge_cases i (length l)) as [Hi|Hi].
  - rewrite at_insert by exact Hi.
    destruct (Nat.eqb_spec j i); [congruence|reflexivity].
  - rewrite list_insert_ge by lia. reflexivity.
Qed.

(** The loop over the lengths fills [MaxCode] and [ValPtr] with the
    ranges of the canonical assignment. *)
Lemma code_ranges_upTo k : forall b st,
  (b + k <= 16)%nat -> rangesUpTo t b st ->
  rangesUpTo t (b + k) (code_ranges k (Z.of_nat (S b)) t st).
Proof.
  induction k as [|k IH]; intros b st Hbk Hst.
  - rewrite Nat.add_0_r. exact Hst.
  - destruct st as [[[[minC valP] maxC] code] sidx].
    destruct Hst as (Hlv & Hlm & Hcode & Hsidx & Hold).
    cbn [code_ranges]. fold (numCodes t (S b)).
    set (n := numCodes t (S b)).
    assert (Hn : 0 <= n <= 255) by (apply numCodes_range; lia).
    pose proof (endCode_nonneg b ltac:(lia)) as He0.
    pose proof (endCode_fits b ltac:(lia)) as Hef.
    pose proof (pow2_le_65536 b ltac:(lia)) as Hp.
    pose proof (symbolsUpTo_nonneg b ltac:(lia)) as Hs0.
    pose proof (symbolsUpTo_mono b 16 ltac:(lia)) as Hs1.
    assert (Hs256 : symbolsUpTo t 16 <= 256) by apply Hvalid.
    rewrite Nat2Z.id.
    rewrite (s32_small code), (s32_small sidx), (s32_small n) by lia.
    rewrite (s32_small (sidx - code)), (s32_small (code + n)) by lia.
    rewrite (s32_small (code + n - 1)) by lia.
    replace (b + S k)%nat with (S b + k)%nat by lia.
    replace (Z.of_nat (S b) + 1) with (Z.of_nat (S (S b))) by lia.
    assert (Hsh : Z.shiftl (code + n) 1 = 2 * endCode t (S b)).
    { rewrite Z.shiftl_mul_pow2 by lia. cbn [endCode]. fold n.
      change (2 ^ 1) with 2. lia. }
    assert (Hval : forall m : list Z,
      at_ (<[S b := sidx - code]> valP) (Z.of_nat (S b))
      = symbolsUpTo t (S b - 1) - 2 * endCode t (S b - 1)).
    { intros _. rewrite insert_at_same by lia.
      replace (S b - 1)%nat with b by lia. lia. }
    destruct (Z.ltb_spec 0 n) as [Hpos|Hzero]; apply IH; try lia;
      unfold rangesUpTo; rewrite !length_insert;
      (split; [exact Hlv|]); (split; [exact Hlm|]);
      (split; [exact Hsh|]); (split; [cbn [symbolsUpTo]; fold n; lia|]);
      intros i Hi; destruct (Nat.eq_dec i (S b)) as [->|Hne];
      try (rewrite !insert_at_other by lia; apply Hold; lia);
      fold n; (split; [|apply Hval; exact valP]);
      rewrite insert_at_same by lia.
    + destruct (Z.ltb_spec 0 n); [|lia]. cbn [endCode]. fold n. lia.
    + destruct (Z.ltb_spec 0 n); [lia|]. reflexivity.
Qed.

Lemma derived_ranges sc d i :
  BuildDerivedTable t = Ok (sc, d) -> (1 <= i <= 16)%nat ->
  at_ (MaxCode d) (Z.of_nat i)
  = (if 0 <? numCodes t i then endCode t i - 1 else - 1)
  /\ at_ (ValPtr d) (Z.of_nat i)
     = symbolsUpTo t (i - 1) - 2 * endCode t (i - 1).
Proof.
  intros Hb Hi. unfold BuildDerivedTable in Hb.
  set (init := (replicate 17 0, replicate 17 0, replicate 18 0, 0, 0)) in Hb.
  assert (Hinit : rangesUpTo t 0 init).
  { unfold rangesUpTo, init. rewrite !length_replicate.
    split; [reflexivity|]. split; [reflexivity|]. split; [reflexivity|].
    split; [reflexivity|]. intros j Hj. lia. }
  pose proof (code_ranges_upTo 16 0 init ltac:(lia) Hinit) as Hr.
  change (0 + 16)%nat with 16%nat in Hr.
  change (Z.of_nat 1) with 1 in Hr.
  set (res := code_ranges 16 1 t init) in *. clearbody res. clear Hinit init.
  destruct res as [[[[minC valP] maxC] code] sidx].
  destruct (fast_lengths 8 1 t _) as [[[fast c0] s0]| |];
    cbn [mbind result_bind] in Hb; [|discriminate Hb|discriminate Hb].
  assert (Hd : d = mkDerivedTable fast (<[17%nat := 2147483647]> maxC)
                                  valP minC) by congruence.
  subst d. cbn [MaxCode ValPtr].
  destruct Hr as (Hlv & Hlm & _ & _ & Hall).
  rewrite insert_at_other by lia. apply Hall. exact Hi.
Qed.

(** A [Read] on a reader that holds fewer than 8 bits leaves fewer than
    8 bits. *)
Lemma Read_few_bits r n v r' :
  wf r -> 1 <= n <= 16 -> bitsLeft r <= 7 ->
  Read r n = Some (Ok (v, r')) -> bitsLeft r' <= 7.
Proof.
  intros Hwf Hn Hfew. unfold Read.
  destruct (Z.eqb_spec n 0) as [E|_]; [lia|].
  assert (Hbl : 0 <= bitsLeft r <= 64) by apply Hwf.
  destruct (Z.ltb_spec (bitsLeft r) n) as [Hlt|Hge].
  - pose proof (fillRegister_spec (Z.to_nat (n / 8 + 1)) r n Hwf) as Hf.
    assert (H8 : 0 <= n / 8) by (apply Z.div_pos; lia).
    pose proof (Z.div_mod n 8 ltac:(lia)) as Hdm.
    pose proof (Z.mod_pos_bound n 8 ltac:(lia)) as Hmb.
    specialize (Hf ltac:(lia) ltac:(lia)).
    destruct (fillRegister _ r n) as [[r1|e|]|]; try discriminate.
    intros H. injection H as _ <-. cbn [bitsLeft].
    unfold fill_post in Hf. destruct Hf as (Hb & _).
    rewrite u32_small by lia. lia.
  - intros H. injection H as _ <-. cbn [bitsLeft].
    rewrite u32_small by lia. lia.
Qed.

(** Reading one bit from a stream that ends cleanly. *)
Lemma Read_one_bit r :
  wf r -> ending r = AtEOF -> bitsLeft r <= 7 ->
  exists r',
    Read r 1 = Some (Ok (Z.b2z (spec_stream r 0), r'))
    /\ wf r' /\ ending r' = AtEOF /\ bitsLeft r' <= 7
    /\ forall j, 0 <= j -> spec_stream r' j = spec_stream r (1 + j).
Proof.
  intros Hwf Hend Hfew.
  pose proof (Read_spec r 1 Hwf ltac:(lia)) as Hpost.
  pose proof (Read_few_bits r 1) as Hbits.
  unfold read_post in Hpost.
  destruct (Read r 1) as [[[v r1]|[| x | |]|]|];
    try contradiction;
    try (destruct Hpost as (_ & Hbad & _); congruence);
    try (destruct Hpost as (_ & Hbad); congruence).
  destruct Hpost as (Hval & Hnext & Hwf1 & _ & Hend1 & _).
  exists r1. change (Z.to_nat 1) with 1%nat in Hval.
  cbn [spec_bits_value] in Hval. change (Z.of_nat 0) with 0 in Hval.
  rewrite Hval. split; [do 3 f_equal; lia|].
  split; [exact Hwf1|]. split; [congruence|].
  split; [|exact Hnext].
  apply (Hbits v r1 Hwf ltac:(lia) Hfew). reflexivity.
Qed.

(** Appending one bit to a prefix of the code. *)
Lemma prefix_step c m :
  0 <= c -> 0 <= m ->
  Z.lor (Z.shiftl (Z.shiftr c (m + 1)) 1) (Z.b2z (Z.testbit c m))
  = Z.shiftr c m.
Proof.
  intros Hc Hm. apply Z.bits_inj'. intros i Hi.
  rewrite Z.lor_spec, Z.shiftr_spec by lia.
  destruct (Z.eq_dec i 0) as [->|Hne].
  - rewrite Z.shiftl_spec_low by lia. rewrite Z.b2z_bit0. reflexivity.
  - rewrite Z.shiftl_spec, Z.shiftr_spec by lia.
    rewrite (testbit_above (Z.b2z (Z.testbit c m)) 1)
      by (try (destruct (Z.testbit c m); cbn [Z.b2z];
               change (2 ^ 1) with 2); lia).
    rewrite orb_false_r. f_equal. lia.
Qed.

Lemma index_at (l : list Z) (i : Z) :
  0 <= i < Z.of_nat (length l) -> index (E:=LeptonError) l i = Ok (at_ l i).
Proof.
  intros Hi. unfold index, at_.
  destruct (Z.ltb_spec i 0); [lia|].
  destruct (nth_lookup_or_length l (Z.to_nat i) 0) as [Hl|Hl]; [|lia].
  rewrite Hl. reflexivity.
Qed.

(** The bit-by-bit path finds the [o]-th symbol of length [S L'] once
    it has read its code: [b] bits are read, [S m] are still to come. *)
Lemma slow_path_decodes sc d L' o :
  BuildDerivedTable t = Ok (sc, d) -> (S L' <= 16)%nat ->
  0 <= o < numCodes t (S L') ->
  forall m b r,
    (b + m = L')%nat -> wf r -> ending r = AtEOF -> bitsLeft r <= 7 ->
    (forall j, 0 <= j < Z.of_nat (S m) ->
       spec_stream r j = Z.testbit (codeOf t (S L') o) (Z.of_nat m - j)) ->
    exists r',
      slow_path (16 - b) (Z.of_nat (S b))
        (Z.shiftr (codeOf t (S L') o) (Z.of_nat (S m))) r t d
      = Some (Ok (at_ (Symbols t) (symbolIndex t (S L') o), r'))
      /\ wf r' /\ ending r' = AtEOF /\ bitsLeft r' <= 7
      /\ forall j, 0 <= j ->
           spec_stream r' j = spec_stream r (Z.of_nat (S m) + j).
Proof.
  intros Hd HL Ho.
  unfold codeOf, symbolIndex. replace (S L' - 1)%nat with L' by lia.
  set (c := 2 * endCode t L' + o).
  pose proof (endCode_nonneg L' ltac:(lia)) as He0.
  pose proof (endCode_fits (S L') HL) as HeL. cbn [endCode] in HeL.
  pose proof (pow2_le_65536 (S L') HL) as HpL.
  assert (Hc : 0 <= c < 65536) by (unfold c; lia).
  induction m as [|m IH]; intros b r Hbm Hwf Hend Hfew Hbits.
  - (* the last bit of the code *)
    assert (Hb : b = L') by lia. subst b.
    replace (16 - L')%nat with (S (15 - L')) by lia. cbn [slow_path].
    destruct (Read_one_bit r Hwf Hend Hfew)
      as (r1 & -> & Hwf1 & Hend1 & Hfew1 & Hnext).
    rewrite (Hbits 0) by lia. change (Z.of_nat 0 - 0) with 0.
    change (Z.of_nat 1) with (0 + 1).
    rewrite prefix_step by lia. rewrite Z.shiftr_0_r.
    destruct (derived_ranges sc d (S L') Hd ltac:(lia)) as [Hmax Hval].
    rewrite Hmax, Hval. replace (S L' - 1)%nat with L' by lia.
    destruct (Z.ltb_spec 0 (numCodes t (S L'))) as [_|E]; [|lia].
    cbn [endCode].
    destruct (Z.leb_spec c (2 * endCode t L' + numCodes t (S L') - 1))
      as [_|E]; [|unfold c in E; lia].
    pose proof (symbolsUpTo_nonneg L' ltac:(lia)) as Hs0.
    assert (Hs1 : symbolsUpTo t L' + numCodes t (S L') <= symbolsUpTo t 16)
      by exact (symbolsUpTo_mono (S L') 16 ltac:(lia)).
    assert (Hs256 : symbolsUpTo t 16 <= 256) by apply Hvalid.
    rewrite (s32_small c) by lia.
    rewrite s32_small by (unfold c; lia).
    replace (symbolsUpTo t L' - 2 * endCode t L' + c)
      with (symbolsUpTo t L' + o) by (unfold c; lia).
    assert (Hlen : length (Symbols t) = 256%nat) by apply Hvalid.
    rewrite index_at by (rewrite Hlen; lia).
    exists r1. split; [reflexivity|]. auto.
  - (* a proper prefix: no code of this length matches *)
    replace (16 - b)%nat with (S (16 - S b)) by lia. cbn [slow_path].
    destruct (Read_one_bit r Hwf Hend Hfew)
      as (r1 & -> & Hwf1 & Hend1 & Hfew1 & Hnext).
    rewrite (Hbits 0) by lia. rewrite Z.sub_0_r.
    replace (Z.of_nat (S (S m))) with (Z.of_nat (S m) + 1) by lia.
    rewrite prefix_step by lia.
    destruct (derived_ranges sc d (S b) Hd ltac:(lia)) as [Hmax _].
    rewrite Hmax.
    assert (Hpre : endCode t (S b) <= Z.shiftr c (Z.of_nat (S m))).
    { rewrite Z.shiftr_div_pow2 by lia.
      apply Z.div_le_lower_bound; [apply Z.pow_pos_nonneg; lia|].
      pose proof (endCode_shift (S b) m ltac:(lia)) as Hsh.
      replace (S b + m)%nat with L' in Hsh by lia.
      rewrite Nat2Z.inj_succ, Z.pow_succ_r by lia.
      assert (0 < 2 ^ Z.of_nat m) by (apply Z.pow_pos_nonneg; lia).
      unfold c. nia. }
    pose proof (endCode_nonneg (S b) ltac:(lia)) as Heb.
    assert (Hgt : (Z.shiftr c (Z.of_nat (S m))
                   <=? (if 0 <? numCodes t (S b)
                        then endCode t (S b) - 1 else - 1)) = false).
    { apply Z.leb_gt. destruct (0 <? numCodes t (S b)); lia. }
    rewrite Hgt.
    replace (Z.of_nat (S b) + 1) with (Z.of_nat (S (S b))) by lia.
    destruct (IH (S b) r1 ltac:(lia) Hwf1 Hend1 Hfew1)
      as (r' & Hrun & Hwf' & Hend' & Hfew' & Hnext').
    { intros j Hj. rewrite Hnext by lia. rewrite Hbits by lia.
      f_equal. lia. }
    exists r'. split; [exact Hrun|]. split; [exact Hwf'|].
    split; [exact Hend'|]. split; [exact Hfew'|].
    intros j Hj. rewrite Hnext' by lia. rewrite Hnext by lia.
    f_equal. lia.
Qed.

End HuffmanFacts.

Section HuffmanDecoding.
Import Huffman HuffmanDecode HuffmanCode BitReader BitReaderInv BitReaderPost.

(** X23. On a table whose counts satisfy Kraft's inequality, with the
    derived arrays [BuildDerivedTable] computes, [nextHuffCode] on a
    reader that holds fewer than 8 bits and whose stream begins with
    the canonical code of the [o]-th symbol of length [L] returns that
    symbol of [Symbols] and consumes exactly the [L] bits of the code;
    the reader again holds fewer than 8 bits afterwards. *)
Theorem nextHuffCode_decodes (t : HuffmanTable) (sc : Z) (d : DerivedTable)
    (L : nat) (o : Z) (r : BitReader) :
  validTable t ->
  BuildDerivedTable t = Ok (sc, d) ->
  (1 <= L <= 16)%nat -> 0 <= o < numCodes t L ->
  wf r -> ending r = AtEOF -> bitsLeft r <= 7 ->
  beginsWith r (codeOf t L o) L ->
  exists r',
    nextHuffCode r t d
    = Some (Ok (at_ (Symbols t) (symbolIndex t L o), r'))
    /\ wf r' /\ ending r' = AtEOF /\ bitsLeft r' <= 7
    /\ forall j, 0 <= j -> spec_stream r' j = spec_stream r (Z.of_nat L + j).
Proof.
  intros Hvalid Hd HL Ho Hwf Hend Hfew Hbegin.
  destruct L as [|L']; [lia|].
  unfold nextHuffCode, Peek.
  assert (Hskip : forall (a b : Z * Z),
             snd a = bitsLeft r -> snd b = bitsLeft r ->
             (let '(peek, peekLen) :=
                if 8 <=? bitsLeft r then a
                else if 0 <? bitsLeft r then b else (0, 0) in
              if (8 <=? peekLen) && (0 <=? at_ (FastLookup d) peek)
              then Some (Ok (u8 (Z.land (at_ (FastLookup d) peek) 255),
                             Advance r (u32 (Z.shiftr (at_ (FastLookup d) peek) 8))))
              else slow_path 16 1 0 r t d)
             = slow_path 16 1 0 r t d).
  { intros [a1 a2] [b1 b2] Ha Hb. cbn [snd] in Ha, Hb.
    destruct (Z.leb_spec 8 (bitsLeft r)) as [E|_]; [lia|].
    destruct (0 <? bitsLeft r).
    - destruct (Z.leb_spec 8 b2) as [E|_]; [lia|]. reflexivity.
    - reflexivity. }
  rewrite Hskip by reflexivity.
  destruct (slow_path_decodes t Hvalid sc d L' o Hd ltac:(lia) Ho
              L' 0%nat r ltac:(lia) Hwf Hend Hfew) as (r' & Hrun & Hrest).
  { intros j Hj. rewrite (Hbegin j Hj). f_equal. lia. }
  exists r'. split; [|exact Hrest].
  pose proof (endCode_nonneg t Hvalid L' ltac:(lia)) as He0.
  pose proof (endCode_fits t Hvalid (S L') ltac:(lia)) as HeL.
  cbn [endCode] in HeL.
  assert (Hzero : Z.shiftr (codeOf t (S L') o) (Z.of_nat (S L')) = 0).
  { unfold codeOf. replace (S L' - 1)%nat with L' by lia.
    rewrite Z.shiftr_div_pow2 by lia. apply Z.div_small. lia. }
  rewrite Hzero in Hrun. exact Hrun.
Qed.

Lemma nextHuffCode_decodes_witness :
  let t := mkHuffmanTable [0; 0; 1; 5; 1; 1; 1; 1; 1; 1; 0; 0; 0; 0; 0; 0; 0]
             ([0; 1; 2; 3; 4; 5; 6; 7; 8; 9; 10; 11] ++ replicate 244 0) 12 in
  let r := NewBitReader (bytesReader [0x80]) in
  exists d r',
    BuildDerivedTable t = Ok (12, d)
    /\ codeOf t 3 2 = 4
    /\ nextHuffCode r t d = Some (Ok (3, r'))
    /\ wf r' /\ ending r' = AtEOF /\ bitsLeft r' <= 7
    /\ forall j, 0 <= j -> spec_stream r' j = spec_stream r (3 + j).
Proof.
  intros t r.
  assert (Hd : { d | BuildDerivedTable t = Ok (12, d) })
    by (vm_compute; eexists; reflexivity).
  destruct Hd as [d Hd].
  assert (Hvalid : validTable t).
  { split; [reflexivity|]. split; [reflexivity|].
    split.
    { intros b Hb.
      do 17 (destruct b as [|b]; [vm_compute; split; discriminate|]). lia. }
    split; [vm_compute; discriminate|].
    split; [vm_compute; discriminate|].
    apply Forall_app. split; [repeat constructor; lia|].
    apply Forall_replicate. lia. }
  destruct (nextHuffCode_decodes t 12 d 3 2 r Hvalid Hd) as (r' & Hrun).
  - lia.
  - vm_compute. split; [discriminate|reflexivity].
  - unfold wf, r, NewBitReader, bytesReader.
    cbn [bits bitsLeft inner map].
    repeat split; try lia. repeat constructor; cbn [isByte]; lia.
  - reflexivity.
  - vm_compute. discriminate.
  - intros j Hj.
    assert (Hc : j = 0 \/ j = 1 \/ j = 2) by lia.
    destruct Hc as [->|[->| ->]]; reflexivity.
  - exists d, r'. split; [exact Hd|]. split; [reflexivity|]. exact Hrun.
Defined.

End HuffmanDecoding.
